(** * Expression normalization and the staged solver pipeline of [main.py]

    A shallow embedding of [AdvancedMathProcessor]: the text rewriting of
    [preprocess_text] and [handle_mathematical_notation], the candidate
    selection of [step2_simplify], the classifier [step3_solve], the
    formatter [step4_format_output] and the driver [process_user_input];
    then the steps log, the dialog of [OllamaAI] and the questions of
    [setup_ai_settings].

    Python text is a list of Unicode code points; the regular expressions
    of the source are values of a small pattern type run by a backtracking
    matcher; the symbolic engine (SymPy) is an interface whose operations
    either return a value or raise. *)

From Stdlib Require Import Ascii String DecimalString DecimalNat.
From Stdlib Require Import List NArith Bool Arith Lia Sorted.
Import ListNotations.

Set Implicit Arguments.

(** ** Python text *)

Module Py.

Definition char := N.
Definition str := list char.

(** An ASCII literal of the source as a list of code points. *)
Definition lit (s : string) : str := map N_of_ascii (list_ascii_of_string s).

Definition str_eqb (a b : str) : bool :=
  if list_eq_dec N.eq_dec a b then true else false.

Definition str_eqb_eq (a b : str) : str_eqb a b = true <-> a = b.
Proof.
  unfold str_eqb.
  destruct (list_eq_dec N.eq_dec a b); split; congruence.
Defined.

(** *** Character classes of [re] on [str] patterns

    [\s] and [str.strip] use Python's whitespace set, given here in full.
    Letters and digits are given for Basic Latin, the Latin-1 Supplement
    and the Cyrillic block, the alphabets that the tables of the program
    mention; a code point of another script is classified as a symbol. *)

#[local] Open Scope N_scope.

Definition between (lo hi c : char) : bool := (lo <=? c) && (c <=? hi).

Definition is_space (c : char) : bool :=
  between 9 13 c || between 28 32 c || (c =? 133)%N || (c =? 160)%N
  || (c =? 0x1680)%N || between 0x2000 0x200A c || between 0x2028 0x2029 c
  || (c =? 0x202F)%N || (c =? 0x205F)%N || (c =? 0x3000)%N.

Definition is_ascii_letter (c : char) : bool :=
  between 65 90 c || between 97 122 c.

Definition is_decimal (c : char) : bool := between 48 57 c.

Definition is_alpha (c : char) : bool :=
  is_ascii_letter c
  || (c =? 0xAA)%N || (c =? 0xB5)%N || (c =? 0xBA)%N
  || between 0xC0 0xD6 c || between 0xD8 0xF6 c || between 0xF8 0xFF c
  || between 0x400 0x481 c || between 0x48A 0x52F c.

Definition is_numeric (c : char) : bool :=
  is_decimal c || between 0xB2 0xB3 c || (c =? 0xB9)%N || between 0xBC 0xBE c.

(** [\w]: alphanumeric or underscore. *)
Definition is_word (c : char) : bool :=
  is_alpha c || is_numeric c || (c =? 95)%N.

#[local] Close Scope N_scope.

(** *** [str] methods *)

Fixpoint starts_with (p s : str) : bool :=
  match p, s with
  | [], _ => true
  | a :: p', b :: s' => (a =? b)%N && starts_with p' s'
  | _ :: _, [] => false
  end.

(** [sub in s] *)
Fixpoint contains (sub s : str) : bool :=
  starts_with sub s ||
  match s with
  | [] => false
  | _ :: s' => contains sub s'
  end.

(** [s.replace(old, new)]: occurrences taken left to right, not overlapping.
    [skip] counts the characters of the current occurrence still to drop. *)
Fixpoint replace_go (old new s : str) (skip : nat) : str :=
  match s with
  | [] => []
  | c :: s' =>
    match skip with
    | S k => replace_go old new s' k
    | O =>
      if starts_with old s
      then new ++ replace_go old new s' (length old - 1)
      else c :: replace_go old new s' 0
    end
  end.

Definition replace (old new s : str) : str :=
  match old with
  | [] => new ++ flat_map (fun c => c :: new) s
  | _ :: _ => replace_go old new s 0
  end.

Fixpoint lstrip (s : str) : str :=
  match s with
  | c :: s' => if is_space c then lstrip s' else s
  | [] => []
  end.

Definition rstrip (s : str) : str := rev (lstrip (rev s)).

(** [s.strip()] *)
Definition strip (s : str) : str := rstrip (lstrip s).

(** [s.split(sep)] for a one-character separator. *)
Fixpoint split_go (sep : char) (s cur : str) : list str :=
  match s with
  | [] => [rev cur]
  | c :: s' =>
    if (c =? sep)%N then rev cur :: split_go sep s' []
    else split_go sep s' (c :: cur)
  end.

Definition split (sep : char) (s : str) : list str := split_go sep s [].

(** [sep.join(parts)] *)
Fixpoint join (sep : str) (parts : list str) : str :=
  match parts with
  | [] => []
  | [p] => p
  | p :: ps => p ++ sep ++ join sep ps
  end.

(** [str(n)] for a non-negative integer. *)
Definition str_of_nat (n : nat) : str :=
  lit (NilEmpty.string_of_uint (Nat.to_uint n)).

End Py.

Import Py.

(** ** Regular expressions

    Every pattern of the source is a sequence of atoms: one character of a
    class, a greedy repetition of a class, or [\b]; a group always wraps a
    single atom, so a pattern is a list of atoms each flagged as captured
    or not. *)

Module Re.

Inductive cls : Type :=
| Chr (c : char)      (* a literal character *)
| Digit               (* \d *)
| Word                (* \w *)
| Space               (* \s *)
| Letter_             (* [a-zA-Z_] *)
| Letter              (* [a-zA-Z] *)
| Except (c : char)   (* [^c] *)
| Dot.                (* . *)

Definition in_cls (k : cls) (c : char) : bool :=
  match k with
  | Chr x => (c =? x)%N
  | Digit => is_decimal c
  | Word => is_word c
  | Space => is_space c
  | Letter_ => is_ascii_letter c || (c =? 95)%N
  | Letter => is_ascii_letter c
  | Except x => negb (c =? x)%N
  | Dot => negb (c =? 10)%N
  end.

Inductive atom : Type :=
| One (k : cls)
| Plus (k : cls)      (* k+ *)
| Star (k : cls)      (* k* *)
| Bound.              (* \b *)

Definition regex := list (bool * atom).

Definition tok (a : atom) : bool * atom := (false, a).
Definition grp (a : atom) : bool * atom := (true, a).
Definition text (s : string) : regex := map (fun c => tok (One (Chr c))) (lit s).

(** The captured groups in order, and the input left after the match. *)
Definition mres := option (list str * str).

Definition with_cap (cap : bool) (g : str) (r : mres) : mres :=
  match r with
  | Some (gs, rest) => Some (if cap then g :: gs else gs, rest)
  | None => None
  end.

Definition word_before (prev : option char) : bool :=
  match prev with
  | Some c => is_word c
  | None => false
  end.

Definition word_after (s : str) : bool :=
  match s with
  | c :: _ => is_word c
  | [] => false
  end.

Definition is_boundary (prev : option char) (s : str) : bool :=
  xorb (word_before prev) (word_after s).

(** Length of the longest prefix of [s] inside class [k]. *)
Fixpoint span (k : cls) (s : str) : nat :=
  match s with
  | c :: s' => if in_cls k c then S (span k s') else 0
  | [] => 0
  end.

Definition last_of (prev : option char) (taken : str) : option char :=
  match rev taken with
  | c :: _ => Some c
  | [] => prev
  end.

(** A greedy repetition gives characters back one at a time: take [n],
    then [n - 1], ... down to [lo], until the rest of the pattern matches. *)
Fixpoint backtrack (cont : option char -> str -> mres) (cap : bool)
    (prev : option char) (s : str) (lo n : nat) : mres :=
  match with_cap cap (firstn n s)
          (cont (last_of prev (firstn n s)) (skipn n s)) with
  | Some r => Some r
  | None =>
    match n with
    | O => None
    | S n' => if n' <? lo then None else backtrack cont cap prev s lo n'
    end
  end.

(** Match the pattern at the start of [s]; [prev] is the character before. *)
Fixpoint match_here (r : regex) (prev : option char) (s : str) : mres :=
  match r with
  | [] => Some ([], s)
  | (cap, a) :: r' =>
    match a with
    | Bound =>
      if is_boundary prev s then with_cap cap [] (match_here r' prev s) else None
    | One k =>
      match s with
      | c :: s' =>
        if in_cls k c then with_cap cap [c] (match_here r' (Some c) s') else None
      | [] => None
      end
    | Plus k =>
      let n := span k s in
      if n <? 1 then None else backtrack (match_here r') cap prev s 1 n
    | Star k => backtrack (match_here r') cap prev s 0 (span k s)
    end
  end.

(** A match object: group 0 (the matched text) followed by the groups. *)
Definition groups_of (s : str) (gs : list str) (rest : str) : list str :=
  firstn (length s - length rest) s :: gs.

Definition group (m : list str) (i : nat) : str := nth i m [].

(** [re.search(r, s)]: the leftmost match. *)
Fixpoint search_go (r : regex) (prev : option char) (s : str) : option (list str) :=
  match match_here r prev s with
  | Some (gs, rest) => Some (groups_of s gs rest)
  | None =>
    match s with
    | [] => None
    | c :: s' => search_go r (Some c) s'
    end
  end.

Definition search (r : regex) (s : str) : option (list str) := search_go r None s.

(** [re.sub(r, repl, s)] with a replacement function: matches are taken
    left to right without overlap; [skip] counts the characters of the
    current match still to pass over. *)
Fixpoint sub_go (r : regex) (repl : list str -> str) (prev : option char)
    (s : str) (skip : nat) {struct s} : str :=
  match skip with
  | S k =>
    match s with
    | [] => []
    | c :: s' => sub_go r repl (Some c) s' k
    end
  | O =>
    match match_here r prev s with
    | Some (gs, rest) =>
      let m := groups_of s gs rest in
      match s with
      | [] => repl m
      | c :: s' =>
        match length s - length rest with
        | O => repl m ++ c :: sub_go r repl (Some c) s' 0
        | S k => repl m ++ sub_go r repl (Some c) s' k
        end
      end
    | None =>
      match s with
      | [] => []
      | c :: s' => c :: sub_go r repl (Some c) s' 0
      end
    end
  end.

Definition sub_fn (r : regex) (repl : list str -> str) (s : str) : str :=
  sub_go r repl None s 0.

(** A replacement template such as [r'\1*\2']. *)
Inductive piece : Type :=
| T (s : string)
| G (n : nat).

Definition expand_template (tpl : list piece) (m : list str) : str :=
  flat_map (fun p => match p with T s => lit s | G n => group m n end) tpl.

Definition sub (r : regex) (tpl : list piece) (s : str) : str :=
  sub_fn r (expand_template tpl) s.

End Re.

Import Re.

(** ** The lexical normalizer: [preprocess_text] *)

Definition cyrillic_replacements : list (char * string) :=
  [ (0x445%N, "x"%string); (0x443%N, "y"%string); (0x437%N, "z"%string);
    (0x430%N, "a"%string); (0x431%N, "b"%string); (0x432%N, "c"%string);
    (0x43F%N, "pi"%string); (0x435%N, "E"%string) ].

Definition symbol_replacements : list (char * string) :=
  [ (94%N, "**"%string);       (* ^ *)
    (0x221A%N, "sqrt"%string); (* root sign *)
    (0x221E%N, "oo"%string);   (* infinity sign *)
    (0xB1%N, "+/-"%string);    (* plus-minus sign *)
    (0xD7%N, "*"%string);      (* multiplication sign *)
    (0xF7%N, "/"%string) ].    (* division sign *)

Definition word_pattern (w : string) : regex :=
  tok Bound :: text w ++ [tok Bound].

(** The alias patterns [\blg\b], [\bln\b], ... with their replacements. *)
Definition alias_patterns : list (regex * string) :=
  [ (word_pattern "lg", "log10"%string);
    (word_pattern "ln", "log"%string);
    (word_pattern "arctg", "atan"%string);
    (word_pattern "arcsin", "asin"%string);
    (word_pattern "arccos", "acos"%string);
    (word_pattern "sh", "sinh"%string);
    (word_pattern "ch", "cosh"%string);
    (word_pattern "th", "tanh"%string) ].

Definition collapse_spaces (expression : str) : str :=
  sub [tok (Plus Space)] [T " "] (strip expression).

Definition replace_aliases (expression : str) : str :=
  fold_left (fun e pr => sub (fst pr) [T (snd pr)] e) alias_patterns expression.

Definition replace_chars (table : list (char * string)) (expression : str) : str :=
  fold_left (fun e pr => replace [fst pr] (lit (snd pr)) e) table expression.

Definition preprocess_text (expression : str) : str :=
  let expression := collapse_spaces expression in
  let expression := replace_aliases expression in
  let expression := replace_chars cyrillic_replacements expression in
  replace_chars symbol_replacements expression.

(** ** The symbolic engine

    SymPy is outside the program: its operations are the fields of an
    interface.  An operation that can raise returns a [result].

    [Expr] holds the values that the annotation [sp.Expr] of the stages
    names: SymPy objects, on which the attributes [free_symbols],
    [is_number] and [has] exist.  A plain Python value that the parser can
    hand back instead (a [bool], a [tuple]) is no member of [Expr]. *)

Inductive result (A : Type) : Type :=
| Ok (a : A)
| Raise (msg : str).

Arguments Ok {A} a.
Arguments Raise {A} msg.

Definition bind {A B : Type} (r : result A) (k : A -> result B) : result B :=
  match r with
  | Ok a => k a
  | Raise msg => Raise msg
  end.

Notation "x <- r ;; k" := (bind r (fun x => k))
  (at level 61, r at next level, right associativity).

(** What [isinstance] is asked about in the source. *)
Inductive expr_class : Type :=
| ClsDerivative
| ClsIntegral
| ClsEq
| ClsSymbol
| ClsOther.

(** The calls that [handle_mathematical_notation] evaluates eagerly. *)
Inductive eager_function : Type :=
| FLog10 | FLog | FSqrt | FSin | FCos | FTan | FFactorial | FExp.

(** A solution: one engine object, or a Python list of them. *)
Inductive payload (X : Type) : Type :=
| PExpr (e : X)
| PList (l : list X).

Arguments PExpr {X} e.
Arguments PList {X} l.

Class Engine : Type := {
  Expr : Type;
  (* e1 == e2, structural equality *)
  expr_eqb : Expr -> Expr -> bool;
  expr_eqb_eq : forall a b, expr_eqb a b = true <-> a = b;
  class_of : Expr -> expr_class;
  str_of : Expr -> str;
  free_symbols : Expr -> list Expr;
  is_number : Expr -> bool;
  has_zoo : Expr -> bool;
  has_nan : Expr -> bool;
  has_evalf : Expr -> bool;
  (* parsers *)
  parse_expr : str -> result Expr;      (* parse_with_implicit_multiplication *)
  parse_latex : str -> result Expr;
  sympify : str -> result Expr;
  (* constructors *)
  apply_function : eager_function -> Expr -> result Expr;
  mk_symbol : str -> result Expr;
  mk_eq : Expr -> Expr -> result Expr;
  mk_integral : Expr -> Expr -> result Expr;
  mk_derivative : Expr -> Expr -> result Expr;
  (* simplification strategies *)
  simplify : Expr -> result Expr;
  expand : Expr -> result Expr;
  factor : Expr -> result Expr;
  cancel : Expr -> result Expr;
  collect : Expr -> list Expr -> result Expr;
  trigsimp : Expr -> result Expr;
  logcombine : Expr -> result Expr;     (* force=True *)
  powsimp : Expr -> result Expr;        (* force=True *)
  expand_log : Expr -> result Expr;     (* force=True *)
  replace_log_exp : Expr -> result Expr; (* e.replace(log(exp(Wild x)), Wild x) *)
  count_ops : Expr -> result nat;
  (* sp.simplify(None): returns None or raises, depending on the engine *)
  simplify_None : result (option Expr);
  (* solving *)
  doit : Expr -> result Expr;
  evalf : Expr -> result Expr;
  solve : Expr -> list Expr -> result (list Expr);
  solve_univariate_inequality : Expr -> Expr -> result Expr;
  (* rendering *)
  latex : Expr -> result str;
  pretty : payload Expr -> result str
}.

Definition ch (a : ascii) : char := N_of_ascii a.

Section Processor.

Context {E : Engine}.

Definition expr_neqb (a b : Expr) : bool := negb (expr_eqb a b).

(** ** The notation resolver: [handle_mathematical_notation] *)

Definition protected_words : list string :=
  [ "pi"; "E"; "oo"; "I";
    "sin"; "cos"; "tan"; "cot"; "sec"; "csc";
    "asin"; "acos"; "atan"; "acot"; "asec"; "acsc";
    "sinh"; "cosh"; "tanh"; "coth"; "sech"; "csch";
    "log"; "log10"; "ln"; "exp"; "sqrt"; "cbrt";
    "factorial"; "gamma"; "beta";
    "Abs"; "abs"; "Max"; "Min";
    "Sum"; "Product"; "Integral"; "Derivative" ]%string.

(** [name\(([^)]+)\)] *)
Definition call_pattern (name : string) : regex :=
  text name ++ text "(" ++ [grp (Plus (Except (ch ")")))] ++ text ")".

Definition function_patterns : list (regex * eager_function) :=
  [ (call_pattern "log10", FLog10);
    (call_pattern "log", FLog);
    (call_pattern "sqrt", FSqrt);
    (call_pattern "sin", FSin);
    (call_pattern "cos", FCos);
    (call_pattern "tan", FTan);
    (call_pattern "factorial", FFactorial);
    (call_pattern "exp", FExp) ].

(** [replacement(match)]: [str(sp.f(sp.sympify(m.group(1))))]. *)
Definition replacement (f : eager_function) (m : list str) : result str :=
  a <- sympify (group m 1) ;;
  v <- apply_function f a ;;
  Ok (str_of v).

Definition is_nil {A : Type} (l : list A) : bool :=
  match l with
  | [] => true
  | _ :: _ => false
  end.

(** [replace_func]: the call is evaluated when its argument is a number
    or has no free symbols; every failure keeps the matched text. *)
Definition replace_func (f : eager_function) (m : list str) : str :=
  match sympify (group m 1) with
  | Ok arg_value =>
    if is_number arg_value || is_nil (free_symbols arg_value)
    then match replacement f m with
         | Ok s => s
         | Raise _ => group m 0
         end
    else group m 0
  | Raise _ => group m 0
  end.

Definition evaluate_calls (expression : str) : str :=
  fold_left (fun e pr => sub_fn (fst pr) (replace_func (snd pr)) e)
            function_patterns expression.

(** [(\w+)\^(\d+)\(([^)]+)\)] rewritten to [\1(\3)**\2] *)
Definition power_call : regex :=
  [grp (Plus Word); tok (One (Chr (ch "^"))); grp (Plus Digit);
   tok (One (Chr (ch "("))); grp (Plus (Except (ch ")")));
   tok (One (Chr (ch ")")))].

Definition rewrite_power_calls (expression : str) : str :=
  sub power_call [G 1; T "("; G 3; T ")**"; G 2] expression.

Definition temp_marker (temp_counter : nat) : str :=
  lit "__TEMP_" ++ str_of_nat temp_counter ++ lit "__".

(** The loop over [protected_words].  [temp_replacements] is the dict in
    insertion order; every marker is a new key, so a new entry goes last. *)
Fixpoint protect (words : list string) (expression : str)
    (temp_replacements : list (str * str)) (temp_counter : nat)
    : str * list (str * str) :=
  match words with
  | [] => (expression, temp_replacements)
  | word :: words' =>
    if contains (lit word) expression
    then protect words'
           (replace (lit word) (temp_marker temp_counter) expression)
           (temp_replacements ++ [(temp_marker temp_counter, lit word)])
           (S temp_counter)
    else protect words' expression temp_replacements temp_counter
  end.

(** The five insertion rules, in the order of the source. *)
Definition insert_multiplication (expression : str) : str :=
  let expression :=
    sub [grp (Plus Digit); grp (One Letter_)] [G 1; T "*"; G 2] expression in
  let expression :=
    sub [grp (One Letter_); grp (Plus Digit)] [G 1; T "*"; G 2] expression in
  let expression :=
    sub [grp (Plus Digit); tok (One (Chr (ch "(")))] [G 1; T "*("] expression in
  let expression :=
    sub [tok (One (Chr (ch ")"))); grp (One Letter_)] [T ")*"; G 1] expression in
  sub [tok (One (Chr (ch ")"))); grp (Plus Digit)] [T ")*"; G 1] expression.

Definition restore (temp_replacements : list (str * str)) (expression : str) : str :=
  fold_left (fun e pr => replace (fst pr) (snd pr) e) temp_replacements expression.

(** [\|([^|]+)\|] rewritten to [Abs(\1)] *)
Definition rewrite_abs (expression : str) : str :=
  sub [tok (One (Chr (ch "|"))); grp (Plus (Except (ch "|")));
       tok (One (Chr (ch "|")))] [T "Abs("; G 1; T ")"] expression.

(** The text that [handle_mathematical_notation] hands to the parser. *)
Definition notation_text (expression : str) : str :=
  let expression := evaluate_calls expression in
  let expression := rewrite_power_calls expression in
  let (expression, temp_replacements) := protect protected_words expression [] 0 in
  let expression := insert_multiplication expression in
  let expression := restore temp_replacements expression in
  rewrite_abs expression.

Definition handle_mathematical_notation (expression : str) : result Expr :=
  parse_expr (notation_text expression).

(** ** Stage 1: parsing and validation *)

Inductive input_type : Type :=
| latex_input
| mathematical_input.

(** [latex_patterns] of [detect_input_type] *)
Definition latex_patterns : list regex :=
  [ [tok (One (Chr (ch "\"))); tok (Plus Letter)];                       (* \\[a-zA-Z]+ *)
    [tok (One (Chr (ch "{"))); tok (Star Dot); tok (One (Chr (ch "}")))]; (* \{.*\} *)
    text "\frac";
    text "\sqrt";
    text "\int" ].

Definition is_some {A : Type} (o : option A) : bool :=
  match o with
  | Some _ => true
  | None => false
  end.

Definition detect_input_type (expression : str) : input_type :=
  if existsb (fun pattern => is_some (search pattern expression)) latex_patterns
  then latex_input
  else mathematical_input.

(** The text of the [ValueError] of [parse_mathematical_expression]. *)
Definition parse_error (expression msg : str) : str :=
  [1053; 1077; 32; 1091; 1076; 1072; 1083; 1086; 1089; 1100; 32; 1088; 1072;
   1089; 1087; 1072; 1088; 1089; 1080; 1090; 1100; 32; 1074; 1099; 1088; 1072;
   1078; 1077; 1085; 1080; 1077; 32; 39]%N
  ++ expression ++ lit "': " ++ msg.

(** [name\(([^,]+),\s*([^)]+)\)] for [integrate] and [diff] *)
Definition construct_pattern (name : string) : regex :=
  text name ++ text "(" ++ [grp (Plus (Except (ch ",")))] ++ text ","
  ++ [tok (Star Space); grp (Plus (Except (ch ")")))] ++ text ")".

Definition parse_construct (mk : Expr -> Expr -> result Expr) (m : list str)
    : result Expr :=
  func_expr <- sympify (group m 1) ;;
  var <- mk_symbol (strip (group m 2)) ;;
  mk func_expr var.

(** The body of the [try] of [parse_mathematical_expression]. *)
Definition parse_mathematical_body (expression : str) : result Expr :=
  let as_expression :=
    let processed := preprocess_text expression in
    match (if contains (lit "integrate(") processed
           then search (construct_pattern "integrate") processed else None) with
    | Some m => parse_construct mk_integral m
    | None =>
      match (if contains (lit "diff(") processed
             then search (construct_pattern "diff") processed else None) with
      | Some m => parse_construct mk_derivative m
      | None => handle_mathematical_notation processed
      end
    end in
  if contains (lit "=") expression
     && negb (existsb (fun op => contains (lit op) expression)
                      ["<="; ">="; "=="]%string)
  then
    match split (ch "=") expression with
    | [part0; part1] =>
      let left := preprocess_text (strip part0) in
      let right := preprocess_text (strip part1) in
      left_expr <- handle_mathematical_notation left ;;
      right_expr <- handle_mathematical_notation right ;;
      mk_eq left_expr right_expr
    | _ => as_expression
    end
  else as_expression.

Definition parse_mathematical_expression (expression : str) : result Expr :=
  match parse_mathematical_body expression with
  | Ok e => Ok e
  | Raise msg => Raise (parse_error expression msg)
  end.

(** [\\[a-zA-Z]+\{([^}]+)\}] *)
Definition latex_command : regex :=
  [tok (One (Chr (ch "\"))); tok (Plus Letter); tok (One (Chr (ch "{")));
   grp (Plus (Except (ch "}"))); tok (One (Chr (ch "}")))].

Definition parse_latex_expression (latex_expr : str) : result Expr :=
  match parse_latex latex_expr with
  | Ok e => Ok e
  | Raise _ =>
    let cleaned := sub latex_command [G 1] latex_expr in
    let cleaned := replace (lit "}") [] (replace (lit "{") [] cleaned) in
    parse_mathematical_expression cleaned
  end.

Definition validate_expression (expr : Expr) : bool :=
  if has_zoo expr || has_nan expr then false
  else match simplify expr with
       | Ok _ => true
       | Raise _ => false
       end.

Record stage1 : Type := {
  s1_success : bool;
  s1_input_type : option input_type;
  s1_original_input : str;
  s1_preprocessed : option str;
  s1_parsed_expression : option Expr;
  s1_validation_result : bool;
  s1_errors : list str
}.

Definition step1_parse_and_validate (user_input : str) : stage1 :=
  let input_type := detect_input_type user_input in
  match (match input_type with
         | latex_input => parse_latex_expression user_input
         | mathematical_input => parse_mathematical_expression user_input
         end) with
  | Ok expr =>
    let validation_result := validate_expression expr in
    {| s1_success := validation_result;
       s1_input_type := Some input_type;
       s1_original_input := user_input;
       s1_preprocessed := Some (str_of expr);
       s1_parsed_expression := Some expr;
       s1_validation_result := validation_result;
       s1_errors := [] |}
  | Raise error_msg =>
    {| s1_success := false;
       s1_input_type := Some input_type;
       s1_original_input := user_input;
       s1_preprocessed := None;
       s1_parsed_expression := None;
       s1_validation_result := false;
       s1_errors := [error_msg] |}
  end.

(** ** Stage 2: the candidate simplifier *)

(** A Python dict in insertion order: assigning to a key that is present
    keeps its place, a new key goes last. *)
Definition dict (V : Type) : Type := list (string * V).

Fixpoint dict_set {V : Type} (d : dict V) (k : string) (v : V) : dict V :=
  match d with
  | [] => [(k, v)]
  | (k', v') :: d' =>
    if String.eqb k' k then (k, v) :: d' else (k', v') :: dict_set d' k v
  end.

Fixpoint dict_get {V : Type} (d : dict V) (k : string) : option V :=
  match d with
  | [] => None
  | (k', v') :: d' => if String.eqb k' k then Some v' else dict_get d' k
  end.

Definition contains_any (names : list string) (s : str) : bool :=
  existsb (fun name => contains (lit name) s) names.

(** [name1\(name2\(([^)]+)\)\)] for the two logarithm identities *)
Definition identity_pattern (outer inner : string) : regex :=
  text outer ++ text "(" ++ text inner ++ text "("
  ++ [grp (Plus (Except (ch ")")))] ++ text "))".

(** The textual fast path once [re.search] has run: the argument of
    [outer(inner(...))] is cut out of the text and parsed again; a parse
    that raises stores nothing. *)
Definition identity_entry (outer inner key : string) (expr_str : str)
    (steps : dict Expr) : dict Expr :=
  match search (identity_pattern outer inner) expr_str with
  | Some m =>
    let var_content := group m 1 in
    if is_nil (strip var_content) then steps
    else match sympify var_content with
         | Ok simplified_expr => dict_set steps key simplified_expr
         | Raise _ => steps
         end
  | None => steps
  end.

(** The message of the [UnboundLocalError] for the name [re], in the
    wording of Python 3.11 and later. *)
Definition unbound_re : str :=
  lit "cannot access local variable 're' where it is not associated with a value".

(** The branch for [log(exp(]: its first statement is [import re].  The
    import statement makes [re] a local name of the whole of
    [step2_simplify], which hides the module's own [import re] and is
    bound only once this branch has run; the flag returned tells whether
    it is. *)
Definition log_exp_branch (expr_str : str) (steps : dict Expr)
    : bool * dict Expr :=
  if contains (lit "log(exp(") expr_str
  then (true, identity_entry "log" "exp" "log_exp_identity" expr_str steps)
  else (false, steps).

(** The branch for [exp(log(]: it calls [re.search] without an import of
    its own, which raises when the local name is not bound. *)
Definition exp_log_branch (re_bound : bool) (expr_str : str)
    (steps : dict Expr) : result (dict Expr) :=
  if contains (lit "exp(log(") expr_str
  then if re_bound
       then Ok (identity_entry "exp" "log" "exp_log_identity" expr_str steps)
       else Raise unbound_re
  else Ok steps.

(** [try: steps[key] = f(expr)  except: steps[key] = expr] *)
Definition guarded_step (key : string) (r : result Expr) (expr : Expr)
    (steps : dict Expr) : dict Expr :=
  match r with
  | Ok v => dict_set steps key v
  | Raise _ => dict_set steps key expr
  end.

(** The logarithm block is one [try]: the first strategy that raises ends
    it, keeping what was stored before. *)
Definition log_block (expr : Expr) (expr_str : str) (steps : dict Expr)
    : dict Expr :=
  match logcombine expr with
  | Raise _ => steps
  | Ok a =>
    let steps := dict_set steps "logsimp" a in
    match powsimp expr with
    | Raise _ => steps
    | Ok b =>
      let steps := dict_set steps "powersimp" b in
      match expand_log expr with
      | Raise _ => steps
      | Ok c =>
        let steps := dict_set steps "expand_log" c in
        if contains (lit "log(exp(") expr_str
        then match replace_log_exp expr with
             | Ok d => dict_set steps "log_exp_replace" d
             | Raise _ => steps
             end
        else steps
      end
    end
  end.

(** The strategies that call the engine, from [basic] to the logarithm
    block: each is inside a [try] of its own. *)
Definition generic_strategies (expr : Expr) (expr_str : str)
    (steps : dict Expr) : dict Expr :=
  let steps := guarded_step "basic" (simplify expr) expr steps in
  let steps := guarded_step "expanded" (expand expr) expr steps in
  let steps := guarded_step "factored" (factor expr) expr steps in
  let steps := guarded_step "cancelled" (cancel expr) expr steps in
  let steps :=
    if is_nil (free_symbols expr) then steps
    else guarded_step "collected" (collect expr (free_symbols expr)) expr steps in
  let steps :=
    if contains_any ["sin"; "cos"; "tan"; "sec"; "csc"; "cot"]%string expr_str
    then guarded_step "trigsimp" (trigsimp expr) expr steps
    else steps in
  if contains_any ["log"; "exp"; "ln"]%string expr_str
  then log_block expr expr_str steps
  else steps.

(** The dict [steps] when the strategies have run, or the exception that
    ended them: nothing between the two identity branches and the choice
    of the result is outside a [try] but the [re.search] of the second
    branch. *)
Definition run_strategies (expr : Expr) : result (dict Expr) :=
  let expr_str := str_of expr in
  let (re_bound, steps) := log_exp_branch expr_str [] in
  steps <- exp_log_branch re_bound expr_str steps ;;
  Ok (generic_strategies expr expr_str steps).

Definition candidates (steps : dict Expr) (expr : Expr) : dict Expr :=
  filter (fun c => expr_neqb (snd c) expr) steps.

Definition priority_steps : list string :=
  ["log_exp_identity"; "exp_log_identity"; "log_exp_replace"]%string.

(** The inner loop: the first candidate called [priority], if any,
    becomes the result. *)
Fixpoint pick_named (priority : string) (cands : dict Expr) (current : Expr) : Expr :=
  match cands with
  | [] => current
  | (step_name, step_result) :: cands' =>
    if String.eqb step_name priority then step_result
    else pick_named priority cands' current
  end.

(** The outer loop, left as soon as the result differs from [expr]. *)
Fixpoint pick_priority (priorities : list string) (cands : dict Expr)
    (expr current : Expr) : Expr :=
  match priorities with
  | [] => current
  | priority :: priorities' =>
    let current := pick_named priority cands current in
    if expr_neqb current expr then current
    else pick_priority priorities' cands expr current
  end.

(** [sp.count_ops], or the length of the text when it raises. *)
Definition ops_count (step_result : Expr) : nat :=
  match count_ops step_result with
  | Ok n => n
  | Raise _ => length (str_of step_result)
  end.

(** [min(valid_candidates, key=lambda x: x[0])]: the first of the
    smallest. *)
Fixpoint min_by_count (best : nat * Expr) (rest : list (nat * Expr)) : nat * Expr :=
  match rest with
  | [] => best
  | c :: rest' => min_by_count (if fst c <? fst best then c else best) rest'
  end.

Definition choose (steps : dict Expr) (expr : Expr) : Expr :=
  match candidates steps expr with
  | [] => expr
  | c :: cs =>
    let chosen := pick_priority priority_steps (c :: cs) expr expr in
    if expr_eqb chosen expr
    then
      let valid_candidates :=
        map (fun c => (ops_count (snd c), snd c)) (c :: cs) in
      match valid_candidates with
      | [] => expr
      | v :: vs => snd (min_by_count v vs)
      end
    else chosen
  end.

Record stage2 : Type := {
  s2_success : bool;
  s2_original_expression : option Expr;
  s2_simplified_expression : option Expr;
  s2_simplification_steps : dict Expr;
  s2_errors : list str
}.

Definition is_derivative_or_integral (expr : Expr) : bool :=
  match class_of expr with
  | ClsDerivative | ClsIntegral => true
  | _ => false
  end.

(** The steps kept for display. *)
Definition shown_steps (steps : dict Expr) (expr : Expr) : dict Expr :=
  filter (fun kv => expr_neqb (snd kv) expr
                    && negb (str_eqb (str_of (snd kv)) (str_of expr))) steps.

(** [AttributeError] for [None.free_symbols] *)
Definition no_free_symbols : str :=
  lit "'NoneType' object has no attribute 'free_symbols'".

(** [expr] is [None] when stage 1 produced no expression: the strategies
    before [expr.free_symbols] are each inside their own [try], the
    attribute access is not and ends the stage in the outer [except].
    That [except] also receives what [run_strategies] raises: the record
    then keeps its initial [success] and steps, holds the message as its
    only error and the input as simplified expression. *)
Definition step2_simplify (expr : option Expr) : stage2 :=
  match expr with
  | Some e =>
    if is_derivative_or_integral e
    then {| s2_success := true;
            s2_original_expression := expr;
            s2_simplified_expression := Some e;
            s2_simplification_steps := shown_steps [] e;
            s2_errors := [] |}
    else
      match run_strategies e with
      | Ok steps =>
        {| s2_success := true;
           s2_original_expression := expr;
           s2_simplified_expression := Some (choose steps e);
           s2_simplification_steps := shown_steps steps e;
           s2_errors := [] |}
      | Raise msg =>
        {| s2_success := false;
           s2_original_expression := expr;
           s2_simplified_expression := Some e;
           s2_simplification_steps := [];
           s2_errors := [msg] |}
      end
  | None =>
    {| s2_success := false;
       s2_original_expression := None;
       s2_simplified_expression := None;
       s2_simplification_steps := [];
       s2_errors := [no_free_symbols] |}
  end.

(** ** Stage 3: the problem classifier *)

Inductive problem_type : Type :=
| derivative
| integral
| equation
| inequality
| numerical_evaluation
| simplification
| equation_zero.

Record stage3 : Type := {
  s3_success : bool;
  s3_problem_type : option problem_type;
  s3_solutions : option (payload Expr);
  s3_errors : list str
}.

Definition solved (v : result Expr) : result (option (payload Expr)) :=
  e <- v ;; Ok (Some (PExpr e)).

Definition solved_list (v : result (list Expr)) : result (option (payload Expr)) :=
  l <- v ;; Ok (Some (PList l)).

(** The last branch of the classifier: an expression with free symbols
    that is no equation and shows no relational operator.  The problem
    type is assigned before the solver is called. *)
Definition classify_plain (expr : Expr)
    : option problem_type * result (option (payload Expr)) :=
  let free := free_symbols expr in
  let checks :=
    simplified <- simplify expr ;;
    simplified <-
      (if contains_any ["log"; "exp"]%string (str_of expr)
       then
         combined <- logcombine expr ;;
         log_simplified <- powsimp combined ;;
         a <- count_ops log_simplified ;;
         b <- count_ops simplified ;;
         Ok (if a <? b then log_simplified else simplified)
       else Ok simplified) ;;
    let is_simple_variable :=
      (length free =? 1)
      && (length (strip (str_of expr)) <=? 3)
      && existsb (fun sym => str_eqb (str_of expr) (str_of sym)) free
      && match class_of expr with ClsSymbol => true | _ => false end in
    expression_simplified <-
      (if expr_neqb simplified expr
       then
         a <- count_ops simplified ;;
         b <- count_ops expr ;;
         Ok ((a <? b) || negb (str_eqb (str_of simplified) (str_of expr)))
       else Ok false) ;;
    Ok (is_simple_variable, expression_simplified, simplified) in
  match checks with
  | Raise msg => (None, Raise msg)
  | Ok (is_simple_variable, expression_simplified, simplified) =>
    if is_simple_variable then (Some simplification, Ok (Some (PExpr expr)))
    else if expression_simplified
    then (Some simplification, Ok (Some (PExpr simplified)))
    else
      (Some equation_zero,
       match free with
       | [var] => solved_list (solve expr [var])
       | _ => solved_list (solve expr free)
       end)
  end.

(** The body of the [try] of [step3_solve]: the problem type assigned so
    far, and the solution or the exception. *)
Definition classify (expr : Expr)
    : option problem_type * result (option (payload Expr)) :=
  let free := free_symbols expr in
  match class_of expr with
  | ClsDerivative => (Some derivative, solved (doit expr))
  | ClsIntegral => (Some integral, solved (doit expr))
  | ClsEq => (Some equation, solved_list (solve expr free))
  | _ =>
    if contains_any [">"; "<"; ">="; "<="]%string (str_of expr)
    then
      (Some inequality,
       match free with
       | [var] =>
         match solve_univariate_inequality expr var with
         | Ok v => Ok (Some (PExpr v))
         | Raise _ => solved_list (solve expr [var])
         end
       | _ => Ok None
       end)
    else if is_nil free
    then (Some numerical_evaluation, solved (evalf expr))
    else classify_plain expr
  end.

Definition step3_solve (expr : option Expr) : stage3 :=
  let attempt :=
    match expr with
    | Some e => classify e
    | None => (None, Raise no_free_symbols)
    end in
  match attempt with
  | (pt, Ok solutions) =>
    {| s3_success := true; s3_problem_type := pt;
       s3_solutions := solutions; s3_errors := [] |}
  | (pt, Raise msg) =>
    (* the fallback: generic simplification *)
    match (match expr with
           | Some e => solved (simplify e)
           | None => v <- simplify_None ;;
                     Ok (option_map PExpr v)
           end) with
    | Ok solutions =>
      {| s3_success := true; s3_problem_type := Some simplification;
         s3_solutions := solutions; s3_errors := [msg] |}
    | Raise _ =>
      {| s3_success := false; s3_problem_type := pt;
         s3_solutions := None; s3_errors := [msg] |}
    end
  end.

(** ** Stage 4: the output formatter *)

Record stage4 : Type := {
  s4_success : bool;
  s4_numerical_output : option str;
  s4_latex_output : option str;
  s4_pretty_output : option str;
  s4_errors : list str
}.

(** [str(solutions)]; a list prints its elements between brackets. *)
Definition str_of_payload (solutions : payload Expr) : str :=
  match solutions with
  | PExpr e => str_of e
  | PList l => lit "[" ++ join (lit ", ") (map str_of l) ++ lit "]"
  end.

Definition numerical_output (solutions : payload Expr) : result str :=
  match solutions with
  | PExpr e =>
    if has_evalf e then v <- evalf e ;; Ok (str_of v) else Ok (str_of e)
  | PList _ => Ok (str_of_payload solutions)
  end.

Definition or_str (r : result str) (fallback : str) : str :=
  match r with
  | Ok s => s
  | Raise _ => fallback
  end.

Definition latex_output (solutions : payload Expr) : str :=
  match solutions with
  | PExpr e => or_str (latex e) (str_of e)
  | PList l => join (lit ", ") (map (fun sol => or_str (latex sol) (str_of sol)) l)
  end.

Definition pretty_output (solutions : payload Expr) : str :=
  or_str (pretty solutions) (str_of_payload solutions).

Definition step4_format_output (solutions : option (payload Expr))
    (problem : option problem_type) : stage4 :=
  match solutions with
  | None =>
    {| s4_success := false; s4_numerical_output := None;
       s4_latex_output := None; s4_pretty_output := None; s4_errors := [] |}
  | Some sol =>
    match numerical_output sol with
    | Ok num =>
      {| s4_success := true; s4_numerical_output := Some num;
         s4_latex_output := Some (latex_output sol);
         s4_pretty_output := Some (pretty_output sol); s4_errors := [] |}
    | Raise msg =>
      {| s4_success := false; s4_numerical_output := None;
         s4_latex_output := None; s4_pretty_output := None;
         s4_errors := [msg] |}
    end
  end.

(** ** The driver: [process_user_input] *)

Inductive stage : Type :=
| Stage1 (r : stage1)
| Stage2 (r : stage2)
| Stage3 (r : stage3)
| Stage4 (r : stage4).

Record final_result : Type := {
  success : bool;
  original_input : str;
  stages : list stage;
  final_answer : option stage4;
  final_problem_type : option problem_type
}.

(** Printing and the assistant's explanations are left out: they do not
    touch the result.  The early [return] sits inside [if show_steps:]. *)
Definition process_user_input (user_input : str) (show_steps : bool)
    : final_result :=
  let stage1 := step1_parse_and_validate user_input in
  if show_steps && negb (s1_success stage1)
  then {| success := false; original_input := user_input;
          stages := [Stage1 stage1];
          final_answer := None; final_problem_type := None |}
  else
    let expr := s1_parsed_expression stage1 in
    let stage2 := step2_simplify expr in
    let simplified_expr := s2_simplified_expression stage2 in
    let stage3 := step3_solve simplified_expr in
    let stage4 := step4_format_output (s3_solutions stage3) (s3_problem_type stage3) in
    {| success := true; original_input := user_input;
       stages := [Stage1 stage1; Stage2 stage2; Stage3 stage3; Stage4 stage4];
       final_answer := Some stage4;
       final_problem_type := s3_problem_type stage3 |}.

End Processor.

(** ** A small concrete engine

    Expressions are their own text.  It is used to run the pipeline on
    concrete inputs. *)

Module Toy.

Fixpoint balanced (s : str) (depth : nat) : bool :=
  match s with
  | [] => depth =? 0
  | c :: s' =>
    if (c =? ch "(")%N then balanced s' (S depth)
    else if (c =? ch ")")%N
         then match depth with
              | O => false
              | S d => balanced s' d
              end
         else balanced s' depth
  end.

Definition parse (s : str) : result str :=
  if is_nil s || negb (balanced s 0) then Raise (lit "invalid syntax") else Ok s.

Definition text_class (e : str) : expr_class :=
  if starts_with (lit "Derivative(") e then ClsDerivative
  else if starts_with (lit "Integral(") e then ClsIntegral
  else if starts_with (lit "Eq(") e then ClsEq
  else if existsb (str_eqb e) [lit "x"; lit "y"; lit "z"] then ClsSymbol
  else ClsOther.

Definition text_symbols (e : str) : list str :=
  filter (fun v => contains v e) [lit "x"; lit "y"; lit "z"].

Definition text_is_number (e : str) : bool :=
  negb (is_nil e) && forallb is_decimal e.

Definition function_name (f : eager_function) : string :=
  match f with
  | FLog10 => "log10" | FLog => "log" | FSqrt => "sqrt" | FSin => "sin"
  | FCos => "cos" | FTan => "tan" | FFactorial => "factorial" | FExp => "exp"
  end.

Definition call2 (name : string) (a b : str) : str :=
  lit name ++ lit "(" ++ a ++ lit ", " ++ b ++ lit ")".

#[export] Instance engine : Engine := {|
  Expr := str;
  expr_eqb := str_eqb;
  expr_eqb_eq := str_eqb_eq;
  class_of := text_class;
  str_of := fun e => e;
  free_symbols := text_symbols;
  is_number := text_is_number;
  has_zoo := contains (lit "zoo");
  has_nan := contains (lit "nan");
  has_evalf := fun _ => true;
  parse_expr := parse;
  parse_latex := fun _ => Raise (lit "no LaTeX parser");
  sympify := parse;
  apply_function := fun f a => Ok (lit (function_name f) ++ lit "(" ++ a ++ lit ")");
  mk_symbol := Ok;
  mk_eq := fun a b => Ok (call2 "Eq" a b);
  mk_integral := fun a b => Ok (call2 "Integral" a b);
  mk_derivative := fun a b => Ok (call2 "Derivative" a b);
  simplify := fun e => Ok (replace (lit "+0") [] e);
  expand := fun e => Ok (replace (lit "*1") [] e);
  factor := fun _ => Raise (lit "cannot factor");
  cancel := Ok;
  collect := fun e _ => Ok e;
  trigsimp := fun _ => Raise (lit "not trigonometric");
  logcombine := Ok;
  powsimp := Ok;
  expand_log := Ok;
  replace_log_exp := Ok;
  count_ops := fun e => Ok (length e);
  simplify_None := Raise (lit "cannot simplify None");
  doit := fun e => Ok (lit "doit(" ++ e ++ lit ")");
  evalf := Ok;
  solve := fun _ _ => Ok [];
  solve_univariate_inequality := fun _ _ => Raise (lit "not an inequality");
  latex := Ok;
  pretty := fun _ => Raise (lit "no pretty printer")
|}.

End Toy.
(** ** The steps log: [render_latex_output], [add_latex_step],
    [export_latex_steps] *)

Module Log.

Section StepsLog.

Context {E : Engine}.

(** Whether the imports inside [render_latex_output] succeed, and
    SymPy's [parse_expr] without transformations. *)
Variable imports_ok : bool.
Variable plain_parse_expr : str -> result Expr.

(** [f"{step_name}: {expression}"] when [step_name] is not empty. *)
Definition render_latex_output (expression step_name : str)
    (enable_latex : bool) : str :=
  if negb enable_latex then expression
  else
    if imports_ok
    then
      match (sympy_expr <- plain_parse_expr expression ;; latex sympy_expr) with
      | Ok latex_expr =>
        if negb (is_nil step_name)
        then step_name ++ lit ": " ++ expression
        else expression
      | Raise _ =>
        if negb (is_nil step_name)
        then step_name ++ lit ": " ++ expression
        else expression
      end
    else
      if negb (is_nil step_name)
      then step_name ++ lit ": " ++ expression
      else expression.

Definition create_latex_steps_log : list str := [].

(** [steps_log.append(formatted_step)] *)
Definition add_latex_step (steps_log : list str) (step_name expression : str)
    (enable_latex : bool) : list str :=
  let formatted_step := render_latex_output expression step_name enable_latex in
  steps_log ++ [formatted_step].

End StepsLog.

(** The heading line of the exported file, followed by an empty line. *)
Definition export_heading : str :=
  [35; 32; 1064; 1072; 1075; 1080; 32; 1086; 1073; 1088; 1072; 1073; 1086;
   1090; 1082; 1080; 10; 10]%N.

(** The lines [f"{i}. {step}\n"] of [enumerate(steps_log, i)]. *)
Fixpoint numbered_steps (i : nat) (steps_log : list str) : str :=
  match steps_log with
  | [] => []
  | step :: steps_log' =>
    str_of_nat i ++ lit ". " ++ step ++ [10%N] ++ numbered_steps (S i) steps_log'
  end.

(** What [export_latex_steps] writes to the file once it is open. *)
Definition export_latex_steps (steps_log : list str) : str :=
  export_heading ++ numbered_steps 1 steps_log.

End Log.

(** ** The assistant: [AISettings], [OllamaAI] and [setup_ai_settings] *)

Module AI.

Record AISettings : Type := {
  show_steps : bool;
  ai_error_explanations : bool;
  ai_step_explanations : bool;
  model : str;
  skip_model_check : bool
}.

(** [AISettings.__init__] *)
Definition AISettings_init : AISettings :=
  {| show_steps := true;
     ai_error_explanations := false;
     ai_step_explanations := false;
     model := lit "gemma3:4b-it-qat";
     skip_model_check := false |}.

Inductive role : Type :=
| system
| user
| assistant.

(** [{'role': ..., 'content': ...}] *)
Record message : Type := {
  msg_role : role;
  content : str
}.

(** An entry of [ollama.list()['models']], read with [.get]. *)
Record model_entry : Type := {
  entry_name : option str;
  entry_model : option str
}.

(** The object [OllamaAI]: its settings, the history of the dialog and
    the dict of system prompts. *)
Record OllamaAI : Type := {
  settings : AISettings;
  conversation_history : list message;
  system_prompts : list (str * str)
}.

Definition with_history (self : OllamaAI) (h : list message) : OllamaAI :=
  {| settings := settings self;
     conversation_history := h;
     system_prompts := system_prompts self |}.

(** [key in d] and [d[key]] for a dict with text keys. *)
Fixpoint prompt_of (d : list (str * str)) (key : str) : option str :=
  match d with
  | [] => None
  | (k, v) :: d' => if str_eqb k key then Some v else prompt_of d' key
  end.

(** [model.get('name') or model.get('model', '')] *)
Definition model_name (entry : model_entry) : str :=
  let other :=
    match entry_model entry with
    | Some m => m
    | None => []
    end in
  match entry_name entry with
  | Some n => if is_nil n then other else n
  | None => other
  end.

Definition ollama_unavailable : str :=
  [79; 108; 108; 97; 109; 97; 32; 1085; 1077; 1076; 1086; 1089; 1090; 1091;
   1087; 1085; 1072]%N.

Definition model_unavailable : str :=
  [1052; 1086; 1076; 1077; 1083; 1100; 32; 1085; 1077; 1076; 1086; 1089;
   1090; 1091; 1087; 1085; 1072]%N.

(** The prefix of [f"Ошибка ИИ: {e}"]. *)
Definition ai_error : str :=
  [1054; 1096; 1080; 1073; 1082; 1072; 32; 1048; 1048; 58; 32]%N.

(** [history[-20:]] when the history is longer than twenty entries. *)
Definition last_twenty (h : list message) : list message :=
  if 20 <? length h then skipn (length h - 20) h else h.

Section Ollama.

(** The Ollama service is outside the program: every call takes the state
    of the service and returns the next one. *)
Variable World : Type.

Record Ollama : Type := {
  OLLAMA_AVAILABLE : bool;
  (* ollama.list(): the value under 'models' when the key is there *)
  ollama_list : World -> result (option (list model_entry)) * World;
  ollama_pull : str -> World -> result unit * World;
  (* ollama.chat(model=..., messages=...)['message']['content'] *)
  ollama_chat : str -> list message -> World -> result str * World
}.

Variable O : Ollama.

Definition check_ollama_installation (w : World) : bool * World :=
  if negb (OLLAMA_AVAILABLE O) then (false, w)
  else
    match ollama_list O w with
    | (Ok _, w) => (true, w)
    | (Raise _, w) => (false, w)
    end.

Definition available_models (models_response : option (list model_entry))
    : list str :=
  match models_response with
  | Some models =>
    filter (fun model_name => negb (is_nil model_name)) (map model_name models)
  | None => []
  end.

(** Without the library the name [ollama] is unbound and the outer
    [except] answers. *)
Definition check_model_availability (self : OllamaAI) (w : World)
    : bool * World :=
  if skip_model_check (settings self) then (true, w)
  else if negb (OLLAMA_AVAILABLE O) then (false, w)
  else
    match ollama_list O w with
    | (Ok models_response, w) =>
      if negb (existsb (str_eqb (model (settings self)))
                       (available_models models_response))
      then
        match ollama_pull O (model (settings self)) w with
        | (Ok _, w) => (true, w)
        | (Raise _, w) => (false, w)
        end
      else (true, w)
    | (Raise _, w) => (false, w)
    end.

(** The list [messages] that [chat] sends. *)
Definition chat_messages (self : OllamaAI) (message prompt_type : str)
    (include_history : bool) : list AI.message :=
  (match prompt_of (system_prompts self) prompt_type with
   | Some prompt => [{| msg_role := system; content := prompt |}]
   | None => []
   end)
  ++ (if include_history && str_eqb prompt_type (lit "dialog")
      then conversation_history self
      else [])
  ++ [{| msg_role := user; content := message |}].

(** [chat]: the answer, the object after the call and the service after
    the call. *)
Definition chat (self : OllamaAI) (message prompt_type : str)
    (include_history : bool) (w : World) : str * OllamaAI * World :=
  let (installed, w) := check_ollama_installation w in
  if negb installed then (ollama_unavailable, self, w)
  else
    let (available, w) := check_model_availability self w in
    if negb available then (model_unavailable, self, w)
    else
      let messages := chat_messages self message prompt_type include_history in
      match ollama_chat O (model (settings self)) messages w with
      | (Ok ai_response, w) =>
        if include_history && str_eqb prompt_type (lit "dialog")
        then
          let h :=
            conversation_history self
            ++ [{| msg_role := user; content := message |};
                {| msg_role := assistant; content := ai_response |}] in
          (ai_response, with_history self (last_twenty h), w)
        else (ai_response, self, w)
      | (Raise e, w) => (ai_error ++ e, self, w)
      end.

(** The prompt of [explain_error]. *)
Definition error_prompt (error_msg expression : str) : str :=
  [1042; 1099; 1088; 1072; 1078; 1077; 1085; 1080; 1077; 58; 32; 39]%N
  ++ expression
  ++ [39; 10; 1054; 1096; 1080; 1073; 1082; 1072; 58; 32]%N
  ++ error_msg
  ++ [10; 1054; 1073; 1098; 1103; 1089; 1085; 1080; 32; 1086; 1096; 1080;
      1073; 1082; 1091; 32; 1080; 32; 1087; 1088; 1077; 1076; 1083; 1086;
      1078; 1080; 32; 1080; 1089; 1087; 1088; 1072; 1074; 1083; 1077; 1085;
      1080; 1077; 58]%N.

(** The prompt of [explain_step]. *)
Definition step_prompt (step_name input_expr output_expr : str) : str :=
  [1069; 1090; 1072; 1087; 58; 32]%N ++ step_name
  ++ [10; 1042; 1093; 1086; 1076; 58; 32]%N ++ input_expr
  ++ [10; 1042; 1099; 1093; 1086; 1076; 58; 32]%N ++ output_expr
  ++ [10; 1054; 1073; 1098; 1103; 1089; 1085; 1080; 32; 1101; 1090; 1086;
      1090; 32; 1101; 1090; 1072; 1087; 32; 1088; 1077; 1096; 1077; 1085;
      1080; 1103; 58]%N.

Definition explain_error (self : OllamaAI) (error_msg expression : str)
    (w : World) : option str * OllamaAI * World :=
  if negb (ai_error_explanations (settings self)) then (None, self, w)
  else
    match chat self (error_prompt error_msg expression) (lit "error") false w with
    | (answer, self, w) => (Some answer, self, w)
    end.

Definition explain_step (self : OllamaAI) (step_name input_expr output_expr : str)
    (w : World) : option str * OllamaAI * World :=
  if negb (ai_step_explanations (settings self)) then (None, self, w)
  else
    match chat self (step_prompt step_name input_expr output_expr)
               (lit "explanation") false w with
    | (answer, self, w) => (Some answer, self, w)
    end.

End Ollama.

(** *** [setup_ai_settings] *)

Definition answers_yes : list str :=
  [lit "y"; lit "yes"; [1076; 1072]%N; [1076]%N].

Definition answers_no : list str :=
  [lit "n"; lit "no"; [1085; 1077; 1090]%N; [1085]%N].

Section Setup.

(** [str.lower] *)
Variable lower : str -> str.

(** One question of [setup_ai_settings]: the lines typed are read until
    one of them, stripped and in lower case, is an answer; [None] is the
    [EOFError] of [input] when no line is left. *)
Fixpoint ask (yes no : list str) (inputs : list str)
    : option (bool * list str) :=
  match inputs with
  | [] => None
  | line :: inputs' =>
    let answer := lower (strip line) in
    if existsb (str_eqb answer) yes then Some (true, inputs')
    else if existsb (str_eqb answer) no then Some (false, inputs')
    else ask yes no inputs'
  end.

(** The settings after the four questions and the lines left unread. *)
Definition setup_ai_settings (ai_settings : AISettings) (inputs : list str)
    : option (AISettings * list str) :=
  match ask ([] :: answers_yes) answers_no inputs with
  | None => None
  | Some (show, inputs) =>
    match ask answers_yes ([] :: answers_no) inputs with
    | None => None
    | Some (ai_errors, inputs) =>
      match (if show then ask answers_yes ([] :: answers_no) inputs
             else Some (false, inputs)) with
      | None => None
      | Some (ai_steps, inputs) =>
        match ask answers_yes ([] :: answers_no) inputs with
        | None => None
        | Some (skip_check, inputs) =>
          Some ({| show_steps := show;
                   ai_error_explanations := ai_errors;
                   ai_step_explanations := ai_steps;
                   model := model ai_settings;
                   skip_model_check := skip_check |}, inputs)
        end
      end
    end
  end.

End Setup.

End AI.

(** ** Notions used in the statements *)

Section Notions.

Context {E : Engine}.

(** A strategy raises on [e]: the engine call behind the key of [steps]
    does not return.  For the two textual identities the call is the
    re-parsing of the text cut out by the pattern. *)
Inductive strategy_raises : string -> Expr -> Prop :=
| raises_basic e m : simplify e = Raise m -> strategy_raises "basic" e
| raises_expanded e m : expand e = Raise m -> strategy_raises "expanded" e
| raises_factored e m : factor e = Raise m -> strategy_raises "factored" e
| raises_cancelled e m : cancel e = Raise m -> strategy_raises "cancelled" e
| raises_collected e m :
    collect e (free_symbols e) = Raise m -> strategy_raises "collected" e
| raises_trigsimp e m : trigsimp e = Raise m -> strategy_raises "trigsimp" e
| raises_logsimp e m : logcombine e = Raise m -> strategy_raises "logsimp" e
| raises_powersimp e m : powsimp e = Raise m -> strategy_raises "powersimp" e
| raises_expand_log e m : expand_log e = Raise m -> strategy_raises "expand_log" e
| raises_log_exp_replace e m :
    replace_log_exp e = Raise m -> strategy_raises "log_exp_replace" e
| raises_log_exp_identity e :
    (forall m, search (identity_pattern "log" "exp") (str_of e) = Some m ->
               exists msg, sympify (group m 1) = Raise msg) ->
    strategy_raises "log_exp_identity" e
| raises_exp_log_identity e :
    (forall m, search (identity_pattern "exp" "log") (str_of e) = Some m ->
               exists msg, sympify (group m 1) = Raise msg) ->
    strategy_raises "exp_log_identity" e.

(** The dict that the two identity branches leave when the second finds
    [re] bound. *)
Definition identity_steps (expr_str : str) : dict Expr :=
  let steps :=
    if contains (lit "log(exp(") expr_str
    then identity_entry "log" "exp" "log_exp_identity" expr_str []
    else [] in
  if contains (lit "exp(log(") expr_str
  then identity_entry "exp" "log" "exp_log_identity" expr_str steps
  else steps.

(** No entry of the dict has key [k]. *)
Definition no_key (d : dict Expr) (k : string) : Prop := dict_get d k = None.

(** The dict starts with the entry [(k, v)]. *)
Definition headed (k : string) (v : Expr) (d : dict Expr) : Prop :=
  exists rest, d = (k, v) :: rest.

End Notions.

(** ** Notions for the lexical normalizer *)

(** The alias table behind [alias_patterns]. *)
Definition alias_table : list (string * string) :=
  [ ("lg", "log10"); ("ln", "log"); ("arctg", "atan"); ("arcsin", "asin");
    ("arccos", "acos"); ("sh", "sinh"); ("ch", "cosh"); ("th", "tanh") ]%string.

Definition all_word (w : str) : bool := forallb is_word w.

Definition no_space (w : str) : bool := forallb (fun c => negb (is_space c)) w.

(** The longest prefix of word characters, and what follows it. *)
Fixpoint word_prefix (s : str) : str :=
  match s with
  | c :: s' => if is_word c then c :: word_prefix s' else []
  | [] => []
  end.

Fixpoint after_word (s : str) : str :=
  match s with
  | c :: s' => if is_word c then after_word s' else s
  | [] => []
  end.

(** The maximal runs of word characters of [cur ++ s], where [cur] is the
    run that is open when the scan of [s] starts. *)
Fixpoint words (cur s : str) : list str :=
  match s with
  | [] => [cur]
  | c :: s' => if is_word c then words (cur ++ [c]) s' else cur :: words [] s'
  end.

(** [f] applied to each of these runs, the other characters kept. *)
Fixpoint map_words (f : str -> str) (cur s : str) : str :=
  match s with
  | [] => f cur
  | c :: s' =>
    if is_word c then map_words f (cur ++ [c]) s'
    else f cur ++ c :: map_words f [] s'
  end.

(** Replace the word [a] by [r]. *)
Definition swap (a r w : str) : str := if str_eqb w a then r else w.

Definition is_alias (w : str) : bool :=
  existsb (fun pr => str_eqb w (lit (fst pr))) alias_table.

(** A word that contains the replacement of the root sign or of the
    infinity sign. *)
Definition tainted (w : str) : bool :=
  contains (lit "sqrt") w || contains (lit "oo") w.

(** Runs of whitespace reduced to one space. *)
Fixpoint squeeze (in_space : bool) (s : str) : str :=
  match s with
  | [] => []
  | c :: s' =>
    if is_space c
    then if in_space then squeeze true s' else 32%N :: squeeze true s'
    else c :: squeeze false s'
  end.

(** Every whitespace character is a space that follows a character other
    than whitespace, and the text does not end in whitespace. *)
Fixpoint tidy_go (after_space : bool) (s : str) : bool :=
  match s with
  | [] => negb after_space
  | c :: s' =>
    if is_space c
    then (c =? 32)%N && negb after_space && tidy_go true s'
    else tidy_go false s'
  end.

Definition tidy (s : str) : bool :=
  match s with
  | [] => true
  | _ :: _ => tidy_go true s
  end.

(** The character is none of the keys of the table. *)
Definition no_key_of (table : list (char * string)) (c : char) : bool :=
  negb (existsb (N.eqb c) (map fst table)).

(** The text holds none of the Cyrillic letters of [cyrillic_replacements]. *)
Definition homoglyph_free (t : str) : bool :=
  forallb (no_key_of cyrillic_replacements) t.

(** The aliases of a table applied to one word, in the order of the
    table. *)
Definition swaps (table : list (string * string)) (w : str) : str :=
  fold_left (fun w pr => swap (lit (fst pr)) (lit (snd pr)) w) table w.

(** What the proofs need of an alias and its replacement. *)
Definition alias_ok (pr : string * string) : bool :=
  negb (is_nil (lit (fst pr))) && all_word (lit (fst pr))
  && negb (is_nil (lit (snd pr))) && all_word (lit (snd pr)).

Definition no_word (w : str) : bool := forallb (fun c => negb (is_word c)) w.

(** What the proofs need of a replaced character and its replacement:
    the character is neither a word character nor whitespace, and the
    replacement has no whitespace and is made of characters that are no
    word characters, or of word characters with [sqrt] or [oo] inside. *)
Definition symbol_ok (pr : char * string) : bool :=
  negb (is_word (fst pr)) && negb (is_space (fst pr))
  && negb (is_nil (lit (snd pr))) && no_space (lit (snd pr))
  && (no_word (lit (snd pr))
      || (all_word (lit (snd pr)) && tainted (lit (snd pr)))).

(** The fold of [replace_aliases], for any table of aliases. *)
Definition sub_aliases (table : list (string * string)) (e : str) : str :=
  fold_left (fun e pr => sub (fst pr) [T (snd pr)] e)
            (map (fun pr => (word_pattern (fst pr), snd pr)) table) e.

(** The keys of [steps] in the order in which [step2_simplify] assigns
    them. *)
Definition declared_keys : list string :=
  [ "log_exp_identity"; "exp_log_identity"; "basic"; "expanded"; "factored";
    "cancelled"; "collected"; "trigsimp"; "logsimp"; "powersimp";
    "expand_log"; "log_exp_replace" ]%string.

Fixpoint index_of (k : string) (l : list string) : nat :=
  match l with
  | [] => 0
  | x :: l' => if String.eqb x k then 0 else S (index_of k l')
  end.

(** The place of a key in that order. *)
Definition rank (k : string) : nat := index_of k declared_keys.

Section Order.

Context {E : Engine}.

(** The keys of the dict follow the order of their declaration. *)
Definition ordered (d : dict Expr) : Prop :=
  StronglySorted (fun a b => rank a < rank b) (map fst d).

(** Every key of the dict is declared before place [n]. *)
Definition keys_below (n : nat) (d : dict Expr) : Prop :=
  Forall (fun k => rank k < n) (map fst d).

End Order.

(** ** Notions for the insertion rules *)

(** No decimal digit is directly followed by a character of [[a-zA-Z_]];
    [after_digit] tells whether the character before [s] is a digit. *)
Fixpoint no_digit_letter (after_digit : bool) (s : str) : bool :=
  match s with
  | [] => true
  | c :: s' =>
    negb (after_digit && in_cls Letter_ c) && no_digit_letter (is_decimal c) s'
  end.

(** [y] is [x] with stars put in. *)
Inductive starred : str -> str -> Prop :=
| starred_nil : starred [] []
| starred_keep c x y : starred x y -> starred (c :: x) (c :: y)
| starred_star x y : starred x y -> starred x (ch "*" :: y).

(** The rules of [insert_multiplication] with their templates. *)
Definition insertion_rules : list (regex * list piece) :=
  [ ([grp (Plus Digit); grp (One Letter_)], [G 1; T "*"; G 2]);
    ([grp (One Letter_); grp (Plus Digit)], [G 1; T "*"; G 2]);
    ([grp (Plus Digit); tok (One (Chr (ch "(")))], [G 1; T "*("]);
    ([tok (One (Chr (ch ")"))); grp (One Letter_)], [T ")*"; G 1]);
    ([tok (One (Chr (ch ")"))); grp (Plus Digit)], [T ")*"; G 1]) ].

(** ** An engine whose operations can be made to raise

    The concrete engine again, with switches that make [simplify], the
    solver, [evalf] and [latex] raise.  It is used to run the error paths
    of the stages. *)

Module Faulty.

Definition failure : str := lit "failure".

Definition may_fail {A : Type} (fails : bool) (r : result A) : result A :=
  if fails then Raise failure else r.

Definition engine (fail_simplify fail_solve fail_evalf fail_latex : bool)
    : Engine := {|
  Expr := str;
  expr_eqb := str_eqb;
  expr_eqb_eq := str_eqb_eq;
  class_of := Toy.text_class;
  str_of := fun e => e;
  free_symbols := Toy.text_symbols;
  is_number := Toy.text_is_number;
  has_zoo := contains (lit "zoo");
  has_nan := contains (lit "nan");
  has_evalf := fun _ => true;
  parse_expr := Toy.parse;
  parse_latex := fun _ => Raise (lit "no LaTeX parser");
  sympify := Toy.parse;
  apply_function :=
    fun f a => Ok (lit (Toy.function_name f) ++ lit "(" ++ a ++ lit ")");
  mk_symbol := Ok;
  mk_eq := fun a b => Ok (Toy.call2 "Eq" a b);
  mk_integral := fun a b => Ok (Toy.call2 "Integral" a b);
  mk_derivative := fun a b => Ok (Toy.call2 "Derivative" a b);
  simplify := fun e => may_fail fail_simplify (Ok (replace (lit "+0") [] e));
  expand := fun e => Ok (replace (lit "*1") [] e);
  factor := fun _ => Raise (lit "cannot factor");
  cancel := Ok;
  collect := fun e _ => Ok e;
  trigsimp := fun _ => Raise (lit "not trigonometric");
  logcombine := Ok;
  powsimp := Ok;
  expand_log := Ok;
  replace_log_exp := Ok;
  count_ops := fun e => Ok (length e);
  simplify_None := Raise (lit "cannot simplify None");
  doit := fun e => Ok (lit "doit(" ++ e ++ lit ")");
  evalf := fun e => may_fail fail_evalf (Ok e);
  solve := fun _ _ => may_fail fail_solve (Ok []);
  solve_univariate_inequality := fun _ _ => Raise (lit "not an inequality");
  latex := fun e => may_fail fail_latex (Ok e);
  pretty := fun _ => Raise (lit "no pretty printer")
|}.

End Faulty.

(** ** Notions for the stages *)

Section StageNotions.

Context {E : Engine}.

(** The strategy [f] returns [e] itself, or raises. *)
Definition unchanged_by (f : Expr -> result Expr) (e : Expr) : Prop :=
  forall v, f e = Ok v -> v = e.

End StageNotions.

(** ** Notions for the insertion rules, for any two classes *)

(** No character of class [p] is directly followed by one of class [q];
    [after] tells whether the character before [s] is in [p]. *)
Fixpoint apart (p q : cls) (after : bool) (s : str) : bool :=
  match s with
  | [] => true
  | c :: s' => negb (after && in_cls q c) && apart p q (in_cls p c) s'
  end.

(** ** Notions for the matcher *)

(** The pattern has no [\b]. *)
Definition unbounded (r : regex) : bool :=
  forallb (fun a => match snd a with Bound => false | _ => true end) r.

(** ** Notions for the input type *)

(** A backslash directly followed by an ASCII letter. *)
Definition has_command (s : str) : Prop :=
  exists a c b, s = a ++ ch "\" :: c :: b /\ is_ascii_letter c = true.

(** An opening brace with a closing brace after it on the same line. *)
Definition has_braces (s : str) : Prop :=
  exists a m b, s = a ++ ch "{" :: m ++ ch "}" :: b /\ ~ In 10%N m.

(** ** Notions for the assistant *)

Definition is_user (m : AI.message) : bool :=
  match AI.msg_role m with
  | AI.user => true
  | _ => false
  end.

Definition is_assistant (m : AI.message) : bool :=
  match AI.msg_role m with
  | AI.assistant => true
  | _ => false
  end.

(** The history is a sequence of exchanges, each a message of the user
    followed by the answer of the assistant. *)
Fixpoint exchanges (h : list AI.message) : bool :=
  match h with
  | [] => true
  | u :: a :: h' => is_user u && is_assistant a && exchanges h'
  | [_] => false
  end.

(** A service that is installed, lists one model and answers every chat
    with the text of the last message; its state counts the calls. *)
Module Echo.

Definition listed : AI.model_entry :=
  {| AI.entry_name := Some (lit "gemma3:4b-it-qat"); AI.entry_model := None |}.

Definition service : AI.Ollama nat :=
  {| AI.OLLAMA_AVAILABLE := true;
     AI.ollama_list := fun w => (Ok (Some [listed]), S w);
     AI.ollama_pull := fun _ w => (Raise (lit "pull failed"), S w);
     AI.ollama_chat :=
       fun _ messages w =>
         (match rev messages with
          | m :: _ => Ok (AI.content m)
          | [] => Raise (lit "no message")
          end, S w) |}.

Definition helper : AI.OllamaAI :=
  {| AI.settings := AI.AISettings_init;
     AI.conversation_history := [];
     AI.system_prompts := [(lit "dialog", lit "Be brief.")] |}.

End Echo.

(** ** An engine that evaluates calls at zero

    The concrete engine again, whose [apply_function] knows the values
    of the eager functions at [0].  It is used to run the eager
    evaluation of [handle_mathematical_notation]. *)

Module Eager.

Definition value_at_zero (f : eager_function) : option string :=
  match f with
  | FSin | FTan | FSqrt => Some "0"%string
  | FCos | FExp | FFactorial => Some "1"%string
  | FLog10 | FLog => None
  end.

Definition evaluate_at_zero (f : eager_function) (a : str) : result str :=
  match value_at_zero f with
  | Some v =>
    if str_eqb a (lit "0") then Ok (lit v)
    else Ok (lit (Toy.function_name f) ++ lit "(" ++ a ++ lit ")")
  | None => Ok (lit (Toy.function_name f) ++ lit "(" ++ a ++ lit ")")
  end.

Definition engine : Engine := {|
  Expr := str;
  expr_eqb := str_eqb;
  expr_eqb_eq := str_eqb_eq;
  class_of := Toy.text_class;
  str_of := fun e => e;
  free_symbols := Toy.text_symbols;
  is_number := Toy.text_is_number;
  has_zoo := contains (lit "zoo");
  has_nan := contains (lit "nan");
  has_evalf := fun _ => true;
  parse_expr := Toy.parse;
  parse_latex := fun _ => Raise (lit "no LaTeX parser");
  sympify := Toy.parse;
  apply_function := evaluate_at_zero;
  mk_symbol := Ok;
  mk_eq := fun a b => Ok (Toy.call2 "Eq" a b);
  mk_integral := fun a b => Ok (Toy.call2 "Integral" a b);
  mk_derivative := fun a b => Ok (Toy.call2 "Derivative" a b);
  simplify := fun e => Ok (replace (lit "+0") [] e);
  expand := fun e => Ok (replace (lit "*1") [] e);
  factor := fun _ => Raise (lit "cannot factor");
  cancel := Ok;
  collect := fun e _ => Ok e;
  trigsimp := fun _ => Raise (lit "not trigonometric");
  logcombine := Ok;
  powsimp := Ok;
  expand_log := Ok;
  replace_log_exp := Ok;
  count_ops := fun e => Ok (length e);
  simplify_None := Raise (lit "cannot simplify None");
  doit := fun e => Ok (lit "doit(" ++ e ++ lit ")");
  evalf := Ok;
  solve := fun _ _ => Ok [];
  solve_univariate_inequality := fun _ _ => Raise (lit "not an inequality");
  latex := Ok;
  pretty := fun _ => Raise (lit "no pretty printer")
|}.

End Eager.

(** * Properties *)

(** ** Dicts and the selection loops *)

Section Selection.

Context {E : Engine}.

Lemma expr_eqb_refl (e : Expr) : expr_eqb e e = true.
Proof. apply expr_eqb_eq. reflexivity. Qed.

Lemma expr_neqb_true (a b : Expr) : expr_neqb a b = true <-> a <> b.
Proof.
  unfold expr_neqb. rewrite negb_true_iff.
  destruct (expr_eqb a b) eqn:H.
  - apply expr_eqb_eq in H. split; [discriminate | congruence].
  - split; [| reflexivity]. intros _ Hab.
    apply expr_eqb_eq in Hab. congruence.
Qed.

Lemma expr_neqb_refl (e : Expr) : expr_neqb e e = false.
Proof. unfold expr_neqb. rewrite expr_eqb_refl. reflexivity. Qed.

Lemma dict_get_set_same (d : dict Expr) k v : dict_get (dict_set d k v) k = Some v.
Proof.
  induction d as [| [k' v'] d IH]; simpl.
  - rewrite String.eqb_refl. reflexivity.
  - destruct (String.eqb k' k) eqn:Hk; simpl.
    + rewrite String.eqb_refl. reflexivity.
    + rewrite Hk. exact IH.
Qed.

Lemma dict_get_set_other (d : dict Expr) k k' v :
  String.eqb k k' = false -> dict_get (dict_set d k v) k' = dict_get d k'.
Proof.
  intros Hne. induction d as [| [k0 v0] d IH]; simpl.
  - rewrite Hne. reflexivity.
  - destruct (String.eqb k0 k) eqn:Hk; simpl.
    + apply String.eqb_eq in Hk. subst k0. rewrite Hne. reflexivity.
    + destruct (String.eqb k0 k'); [reflexivity | exact IH].
Qed.

Lemma dict_set_keys (d : dict Expr) k v k' :
  In k' (map fst (dict_set d k v)) -> k' = k \/ In k' (map fst d).
Proof.
  induction d as [| [k0 v0] d IH]; simpl.
  - intros [H | []]. left. congruence.
  - destruct (String.eqb k0 k) eqn:Hk; simpl.
    + intros [H | H]; [left; congruence | right; right; exact H].
    + intros [H | H]; [right; left; exact H |].
      destruct (IH H) as [H' | H']; [left; exact H' | right; right; exact H'].
Qed.

Lemma dict_set_nodup (d : dict Expr) k v :
  NoDup (map fst d) -> NoDup (map fst (dict_set d k v)).
Proof.
  induction d as [| [k0 v0] d IH]; simpl; intros Hd.
  - constructor; [intros [] | constructor].
  - inversion Hd as [| ? ? Hnot Hd']; subst.
    destruct (String.eqb k0 k) eqn:Hk; simpl.
    + apply String.eqb_eq in Hk. subst k0. constructor; assumption.
    + constructor; [| apply IH; exact Hd'].
      intros Hin. apply dict_set_keys in Hin. destruct Hin as [H | H].
      * subst k0. rewrite String.eqb_refl in Hk. discriminate.
      * contradiction.
Qed.

Lemma dict_get_absent (d : dict Expr) k :
  ~ In k (map fst d) -> dict_get d k = None.
Proof.
  induction d as [| [k0 v0] d IH]; simpl; intros Hnot; [reflexivity |].
  destruct (String.eqb k0 k) eqn:Hk.
  - apply String.eqb_eq in Hk. subst k0. exfalso. apply Hnot. left. reflexivity.
  - apply IH. intros H. apply Hnot. right. exact H.
Qed.

(** With distinct keys, a filtered dict is looked up by looking the key
    up in the dict and testing the entry. *)
Lemma filter_get (f : string * Expr -> bool) (d : dict Expr) k :
  NoDup (map fst d) ->
  dict_get (filter f d) k =
  match dict_get d k with
  | Some v => if f (k, v) then Some v else None
  | None => None
  end.
Proof.
  induction d as [| [k0 v0] d IH]; simpl; intros Hd; [reflexivity |].
  inversion Hd as [| ? ? Hnot Hd']; subst.
  destruct (String.eqb k0 k) eqn:Hk.
  - apply String.eqb_eq in Hk. subst k0.
    destruct (f (k, v0)) eqn:Hv; simpl.
    + rewrite String.eqb_refl. reflexivity.
    + rewrite (IH Hd'). rewrite (dict_get_absent _ _ Hnot). reflexivity.
  - destruct (f (k0, v0)) eqn:Hv; simpl.
    + rewrite Hk. apply IH. exact Hd'.
    + apply IH. exact Hd'.
Qed.

(** A key that is absent or bound to the input itself gives no candidate
    and no displayed step. *)
Lemma quiet_key (d : dict Expr) (e : Expr) k :
  NoDup (map fst d) ->
  dict_get d k = None \/ dict_get d k = Some e ->
  dict_get (candidates d e) k = None /\ dict_get (shown_steps d e) k = None.
Proof.
  intros Hd Hq. unfold candidates, shown_steps.
  rewrite !filter_get by exact Hd.
  destruct Hq as [-> | ->]; [split; reflexivity |].
  simpl. rewrite expr_neqb_refl. split; reflexivity.
Qed.

Lemma candidates_in (d : dict Expr) (e : Expr) n v :
  In (n, v) (candidates d e) <-> In (n, v) d /\ v <> e.
Proof.
  unfold candidates. rewrite filter_In. simpl.
  rewrite expr_neqb_true. reflexivity.
Qed.

Lemma pick_named_absent p (cands : dict Expr) current :
  dict_get cands p = None -> pick_named p cands current = current.
Proof.
  induction cands as [| [k v] cands IH]; simpl; [reflexivity |].
  destruct (String.eqb k p); [discriminate | exact IH].
Qed.

Lemma pick_named_first p (pre post : dict Expr) v current :
  dict_get pre p = None ->
  pick_named p (pre ++ (p, v) :: post) current = v.
Proof.
  induction pre as [| [k0 v0] pre IH]; simpl.
  - rewrite String.eqb_refl. reflexivity.
  - destruct (String.eqb k0 p); [discriminate | exact IH].
Qed.

Lemma pick_priority_absent priorities (cands : dict Expr) e :
  (forall q, In q priorities -> dict_get cands q = None) ->
  pick_priority priorities cands e e = e.
Proof.
  induction priorities as [| q qs IH]; simpl; intros Habs; [reflexivity |].
  rewrite pick_named_absent by (apply Habs; left; reflexivity).
  rewrite expr_neqb_refl. apply IH. intros q' Hq'. apply Habs. right. exact Hq'.
Qed.

Lemma pick_priority_first before p after (pre post : dict Expr) v e :
  (forall q, In q before -> dict_get (pre ++ (p, v) :: post) q = None) ->
  dict_get pre p = None ->
  v <> e ->
  pick_priority (before ++ p :: after) (pre ++ (p, v) :: post) e e = v.
Proof.
  intros Habs Hpre Hne.
  induction before as [| q qs IH]; simpl.
  - rewrite pick_named_first by exact Hpre.
    apply expr_neqb_true in Hne. rewrite Hne. reflexivity.
  - rewrite pick_named_absent by (apply Habs; left; reflexivity).
    rewrite expr_neqb_refl. apply IH.
    intros q' Hq'. apply Habs. right. exact Hq'.
Qed.

Lemma min_by_count_keep (best : nat * Expr) rest :
  (forall c, In c rest -> fst best <= fst c) -> min_by_count best rest = best.
Proof.
  revert best. induction rest as [| c rest IH]; simpl; intros best Hle; [reflexivity |].
  assert (Hc : fst best <= fst c) by (apply Hle; left; reflexivity).
  apply Nat.ltb_ge in Hc. rewrite Hc.
  apply IH. intros c' Hc'. apply Hle. right. exact Hc'.
Qed.

Lemma min_by_count_first (best x : nat * Expr) pre post :
  fst x < fst best ->
  (forall c, In c pre -> fst x < fst c) ->
  (forall c, In c post -> fst x <= fst c) ->
  min_by_count best (pre ++ x :: post) = x.
Proof.
  revert best. induction pre as [| c pre IH]; simpl; intros best Hb Hpre Hpost.
  - apply Nat.ltb_lt in Hb. rewrite Hb. apply min_by_count_keep. exact Hpost.
  - apply IH.
    + destruct (fst c <? fst best); [apply Hpre; left; reflexivity | exact Hb].
    + intros c' Hc'. apply Hpre. right. exact Hc'.
    + exact Hpost.
Qed.

(** The value of the first of the least candidates. *)
Lemma min_candidate (pre post : dict Expr) n v dflt :
  (forall c, In c pre -> ops_count v < ops_count (snd c)) ->
  (forall c, In c post -> ops_count v <= ops_count (snd c)) ->
  match map (fun c => (ops_count (snd c), snd c)) (pre ++ (n, v) :: post) with
  | [] => dflt
  | b :: bs => snd (min_by_count b bs)
  end = v.
Proof.
  intros Hpre Hpost.
  destruct pre as [| c0 pre]; simpl.
  - rewrite min_by_count_keep; [reflexivity |].
    intros c Hc. apply in_map_iff in Hc. destruct Hc as (c' & <- & Hc').
    simpl. apply Hpost. exact Hc'.
  - rewrite map_app. simpl.
    rewrite (min_by_count_first (ops_count (snd c0), snd c0) (ops_count v, v)).
    + reflexivity.
    + simpl. apply Hpre. left. reflexivity.
    + intros c Hc. apply in_map_iff in Hc. destruct Hc as (c' & <- & Hc').
      simpl. apply Hpre. right. exact Hc'.
    + intros c Hc. apply in_map_iff in Hc. destruct Hc as (c' & <- & Hc').
      simpl. apply Hpost. exact Hc'.
Qed.

Lemma choose_priority (steps : dict Expr) e before p after pre v post :
  priority_steps = before ++ p :: after ->
  candidates steps e = pre ++ (p, v) :: post ->
  (forall q, In q before -> dict_get (candidates steps e) q = None) ->
  dict_get pre p = None ->
  choose steps e = v.
Proof.
  intros Hprio Hc Habs Hpre.
  assert (Hne : v <> e).
  { assert (Hin : In (p, v) (candidates steps e))
      by (rewrite Hc; apply in_or_app; right; left; reflexivity).
    apply candidates_in in Hin. apply Hin. }
  unfold choose. rewrite Hprio.
  destruct (candidates steps e) as [| c cs] eqn:Hcs.
  - destruct pre; discriminate.
  - rewrite Hc in *.
    rewrite pick_priority_first by assumption.
    destruct (expr_eqb v e) eqn:Hv; [| reflexivity].
    apply expr_eqb_eq in Hv. contradiction.
Qed.

Lemma choose_fewest (steps : dict Expr) e pre n v post :
  (forall q, In q priority_steps -> dict_get (candidates steps e) q = None) ->
  candidates steps e = pre ++ (n, v) :: post ->
  (forall c, In c pre -> ops_count v < ops_count (snd c)) ->
  (forall c, In c post -> ops_count v <= ops_count (snd c)) ->
  choose steps e = v.
Proof.
  intros Habs Hc Hpre Hpost.
  unfold choose.
  destruct (candidates steps e) as [| c cs] eqn:Hcs.
  - destruct pre; discriminate.
  - rewrite pick_priority_absent by exact Habs.
    rewrite expr_eqb_refl. rewrite Hc.
    apply min_candidate; assumption.
Qed.

Lemma choose_none (steps : dict Expr) e :
  candidates steps e = [] -> choose steps e = e.
Proof. intros Hc. unfold choose. rewrite Hc. reflexivity. Qed.

End Selection.

(** ** The strategies of stage 2 *)

Section Strategies.

Context {E : Engine}.

Lemma guarded_get_other key r (e : Expr) d k :
  String.eqb key k = false ->
  dict_get (guarded_step key r e d) k = dict_get d k.
Proof.
  intros Hk. unfold guarded_step.
  destruct r; apply dict_get_set_other; exact Hk.
Qed.

Lemma guarded_get_raise key m (e : Expr) d :
  dict_get (guarded_step key (Raise m) e d) key = Some e.
Proof. apply dict_get_set_same. Qed.

Lemma guarded_nodup key r (e : Expr) d :
  NoDup (map fst d) -> NoDup (map fst (guarded_step key r e d)).
Proof. intros Hd. unfold guarded_step. destruct r; apply dict_set_nodup; exact Hd. Qed.

Lemma identity_get_other outer inner key s (d : dict Expr) k :
  String.eqb key k = false ->
  dict_get (identity_entry outer inner key s d) k = dict_get d k.
Proof.
  intros Hk. unfold identity_entry.
  destruct (search _ s); [| reflexivity].
  destruct (is_nil _); [reflexivity |].
  destruct (sympify _); [apply dict_get_set_other; exact Hk | reflexivity].
Qed.

Lemma identity_nodup outer inner key s (d : dict Expr) :
  NoDup (map fst d) -> NoDup (map fst (identity_entry outer inner key s d)).
Proof.
  intros Hd. unfold identity_entry.
  destruct (search _ s); [| exact Hd].
  destruct (is_nil _); [exact Hd |].
  destruct (sympify _); [apply dict_set_nodup; exact Hd | exact Hd].
Qed.

Lemma identity_raises outer inner key s (d : dict Expr) :
  (forall m, search (identity_pattern outer inner) s = Some m ->
             exists msg, sympify (group m 1) = Raise msg) ->
  identity_entry outer inner key s d = d.
Proof.
  intros Hr. unfold identity_entry.
  destruct (search _ s) as [m |] eqn:Hs; [| reflexivity].
  destruct (is_nil _); [reflexivity |].
  destruct (Hr m eq_refl) as [msg ->]. reflexivity.
Qed.

Lemma log_block_get_other (e : Expr) s d k :
  String.eqb "logsimp" k = false ->
  String.eqb "powersimp" k = false ->
  String.eqb "expand_log" k = false ->
  String.eqb "log_exp_replace" k = false ->
  dict_get (log_block e s d) k = dict_get d k.
Proof.
  intros H1 H2 H3 H4. unfold log_block.
  destruct (logcombine e); [| reflexivity].
  destruct (powsimp e); [| rewrite dict_get_set_other by exact H1; reflexivity].
  destruct (expand_log e);
    [| rewrite !dict_get_set_other by assumption; reflexivity].
  destruct (contains _ s);
    [| rewrite !dict_get_set_other by assumption; reflexivity].
  destruct (replace_log_exp e);
    rewrite !dict_get_set_other by assumption; reflexivity.
Qed.

Lemma log_block_nodup (e : Expr) s d :
  NoDup (map fst d) -> NoDup (map fst (log_block e s d)).
Proof.
  intros Hd. unfold log_block.
  destruct (logcombine e); [| exact Hd].
  destruct (powsimp e); [| apply dict_set_nodup; exact Hd].
  destruct (expand_log e); [| repeat apply dict_set_nodup; exact Hd].
  destruct (contains _ s); [| repeat apply dict_set_nodup; exact Hd].
  destruct (replace_log_exp e); repeat apply dict_set_nodup; exact Hd.
Qed.

(** A strategy of the logarithm block that raises stores nothing under
    its own key. *)
Lemma log_block_raises (e : Expr) s d k :
  strategy_raises k e ->
  In k ["logsimp"; "powersimp"; "expand_log"; "log_exp_replace"]%string ->
  dict_get (log_block e s d) k = dict_get d k.
Proof.
  intros Hr Hk. unfold log_block.
  simpl in Hk.
  destruct Hk as [<- | [<- | [<- | [<- | []]]]]; inversion Hr; subst;
    repeat match goal with
           | H : ?f e = Raise _ |- context [?f e] => rewrite H
           | |- context [match ?r with Ok _ => _ | Raise _ => _ end] =>
             destruct r
           | |- context [if ?c then _ else _] => destruct c
           | |- _ => rewrite dict_get_set_other by reflexivity
           end; reflexivity.
Qed.

(** What [run_strategies] returns: the engine strategies run on the dict
    of the identity branches, unless the second branch finds [re]
    unbound. *)
Lemma run_strategies_cases (e : Expr) :
  run_strategies e =
  if contains (lit "exp(log(") (str_of e)
     && negb (contains (lit "log(exp(") (str_of e))
  then Raise unbound_re
  else Ok (generic_strategies e (str_of e) (identity_steps (str_of e))).
Proof.
  unfold run_strategies, log_exp_branch, exp_log_branch, identity_steps.
  destruct (contains (lit "log(exp(") (str_of e));
    destruct (contains (lit "exp(log(") (str_of e)); reflexivity.
Qed.

Lemma run_strategies_ok (e : Expr) steps :
  run_strategies e = Ok steps ->
  steps = generic_strategies e (str_of e) (identity_steps (str_of e)).
Proof.
  rewrite run_strategies_cases.
  destruct (_ && _); [discriminate |].
  intros H. injection H as <-. reflexivity.
Qed.

Lemma run_strategies_raise (e : Expr) msg :
  run_strategies e = Raise msg ->
  msg = unbound_re
  /\ contains (lit "exp(log(") (str_of e) = true
  /\ contains (lit "log(exp(") (str_of e) = false.
Proof.
  rewrite run_strategies_cases.
  destruct (contains (lit "exp(log(") (str_of e));
    destruct (contains (lit "log(exp(") (str_of e)); cbn [andb negb];
    try discriminate.
  intros H. injection H as <-. repeat split.
Qed.

Lemma run_strategies_nodup (e : Expr) steps :
  run_strategies e = Ok steps -> NoDup (map fst steps).
Proof.
  intros Hok. rewrite (run_strategies_ok e Hok).
  unfold generic_strategies, identity_steps.
  repeat match goal with
         | |- NoDup (map fst (if ?c then _ else _)) => destruct c
         | |- NoDup (map fst (log_block _ _ _)) => apply log_block_nodup
         | |- NoDup (map fst (guarded_step _ _ _ _)) => apply guarded_nodup
         | |- NoDup (map fst (identity_entry _ _ _ _ _)) => apply identity_nodup
         end; constructor.
Qed.

Ltac through_steps :=
  repeat first
    [ rewrite guarded_get_other by reflexivity
    | rewrite identity_get_other by reflexivity
    | rewrite log_block_get_other by reflexivity
    | match goal with
      | |- context [dict_get (if ?c then _ else _) _] => destruct c
      end ].

(** The key of a strategy that raises is absent from [steps] or bound to
    the input. *)
Lemma raising_key_quiet (e : Expr) steps k :
  run_strategies e = Ok steps ->
  strategy_raises k e ->
  dict_get steps k = None \/ dict_get steps k = Some e.
Proof.
  intros Hok Hr. rewrite (run_strategies_ok e Hok).
  unfold generic_strategies, identity_steps.
  inversion Hr; subst; through_steps;
    try (rewrite log_block_raises by (first [exact Hr | simpl; tauto]);
         through_steps);
    try (rewrite identity_raises by assumption; through_steps);
    try (left; reflexivity);
    right;
    match goal with
    | H : _ = Raise _ |- _ => rewrite H
    end; apply guarded_get_raise.
Qed.

(** What [choose] returns is the input or the value of a candidate. *)
Lemma pick_named_in p (cands : dict Expr) current :
  pick_named p cands current = current
  \/ exists k, In (k, pick_named p cands current) cands.
Proof.
  induction cands as [| [k v] cands IH]; simpl; [left; reflexivity |].
  destruct (String.eqb k p).
  - right. exists k. left. reflexivity.
  - destruct IH as [IH | [k' IH]]; [left; exact IH |].
    right. exists k'. right. exact IH.
Qed.

Lemma pick_priority_in priorities (cands : dict Expr) e current :
  pick_priority priorities cands e current = current
  \/ exists k, In (k, pick_priority priorities cands e current) cands.
Proof.
  revert current. induction priorities as [| p ps IH]; simpl; intros current.
  - left. reflexivity.
  - destruct (expr_neqb (pick_named p cands current) e).
    + apply pick_named_in.
    + destruct (IH (pick_named p cands current)) as [H | H].
      * rewrite H. apply pick_named_in.
      * right. exact H.
Qed.

Lemma min_by_count_in (best : nat * Expr) rest :
  In (min_by_count best rest) (best :: rest).
Proof.
  revert best. induction rest as [| c rest IH]; simpl; intros best.
  - left. reflexivity.
  - destruct (IH (if fst c <? fst best then c else best)) as [H | H].
    + destruct (fst c <? fst best); [right; left | left]; exact H.
    + right. right. exact H.
Qed.

Lemma choose_in (steps : dict Expr) e :
  choose steps e = e \/ exists k, In (k, choose steps e) (candidates steps e).
Proof.
  unfold choose.
  destruct (candidates steps e) as [| c cs]; [left; reflexivity |].
  destruct (expr_eqb _ e) eqn:Hp.
  - right.
    pose proof (min_by_count_in (ops_count (snd c), snd c)
                  (map (fun c => (ops_count (snd c), snd c)) cs)) as Hin.
    change ((ops_count (snd c), snd c)
            :: map (fun c => (ops_count (snd c), snd c)) cs)
      with (map (fun c => (ops_count (snd c), snd c)) (c :: cs)) in Hin.
    apply in_map_iff in Hin. destruct Hin as ([k v] & Heq & Hin).
    exists k. simpl. rewrite <- Heq. exact Hin.
  - destruct (pick_priority_in priority_steps (c :: cs) e e) as [H | H].
    + rewrite H in Hp. rewrite expr_eqb_refl in Hp. discriminate.
    + right. exact H.
Qed.

(** Later steps keep the first entry of the dict. *)
Lemma headed_set k (v : Expr) d k' v' :
  String.eqb k k' = false -> headed k v d -> headed k v (dict_set d k' v').
Proof.
  intros Hk [rest ->]. simpl. rewrite Hk. eexists. reflexivity.
Qed.

Lemma headed_guarded k (v : Expr) key r e d :
  String.eqb k key = false -> headed k v d -> headed k v (guarded_step key r e d).
Proof.
  intros Hk Hd. unfold guarded_step. destruct r; apply headed_set; assumption.
Qed.

Lemma headed_identity k (v : Expr) outer inner key s d :
  String.eqb k key = false -> headed k v d ->
  headed k v (identity_entry outer inner key s d).
Proof.
  intros Hk Hd. unfold identity_entry.
  destruct (search _ s); [| exact Hd].
  destruct (is_nil _); [exact Hd |].
  destruct (sympify _); [apply headed_set; assumption | exact Hd].
Qed.

Lemma headed_log_block k (v : Expr) e s d :
  String.eqb k "logsimp" = false ->
  String.eqb k "powersimp" = false ->
  String.eqb k "expand_log" = false ->
  String.eqb k "log_exp_replace" = false ->
  headed k v d -> headed k v (log_block e s d).
Proof.
  intros H1 H2 H3 H4 Hd. unfold log_block.
  destruct (logcombine e); [| exact Hd].
  destruct (powsimp e); [| apply headed_set; assumption].
  destruct (expand_log e); [| repeat apply headed_set; assumption].
  destruct (contains _ s); [| repeat apply headed_set; assumption].
  destruct (replace_log_exp e); repeat apply headed_set; assumption.
Qed.

(** A first entry under a priority key, different from the input, is
    what [choose] returns. *)
Lemma choose_headed (steps : dict Expr) e v :
  headed "log_exp_identity" v steps -> v <> e -> choose steps e = v.
Proof.
  intros [rest ->] Hne.
  apply expr_neqb_true in Hne.
  unfold choose, candidates. simpl. rewrite Hne. simpl. rewrite Hne.
  unfold expr_neqb in Hne. apply negb_true_iff in Hne. rewrite Hne.
  reflexivity.
Qed.

End Strategies.

(** ** The order of the dict [steps] *)

Unset Implicit Arguments.

Section DeclarationOrder.

Context {E : Engine}.

Lemma keys_below_mono n m (d : dict Expr) :
  n <= m -> keys_below n d -> keys_below m d.
Proof.
  intros Hnm H. unfold keys_below in *.
  eapply Forall_impl; [| exact H]. intros k Hk. cbv beta in Hk. lia.
Qed.

(** A key that ranks after every key of the dict goes last. *)
Lemma dict_set_append (d : dict Expr) key v n :
  keys_below n d -> n <= rank key -> dict_set d key v = d ++ [(key, v)].
Proof.
  intros Hd Hn. induction d as [| [k0 v0] d IH]; [reflexivity |].
  inversion Hd as [| ? ? Hk Hd']; subst. simpl in Hk. cbn [dict_set app].
  destruct (String.eqb k0 key) eqn:Heq.
  - apply String.eqb_eq in Heq. subst k0. lia.
  - f_equal. apply IH. exact Hd'.
Qed.

Lemma ordered_set (d : dict Expr) key v n :
  ordered d -> keys_below n d -> n <= rank key ->
  ordered (dict_set d key v) /\ keys_below (S (rank key)) (dict_set d key v).
Proof.
  intros Ho Hb Hn. rewrite (dict_set_append d key v n Hb Hn).
  unfold ordered, keys_below in *. rewrite map_app. cbn [map fst]. split.
  - induction Ho as [| k l Hl IH Hk]; cbn [app].
    + constructor; constructor.
    + inversion Hb; subst. constructor; [apply IH; assumption |].
      apply Forall_app. split; [exact Hk |]. constructor; [lia | constructor].
  - apply Forall_app. split.
    + eapply Forall_impl; [| exact Hb]. intros k Hk. cbv beta in Hk. lia.
    + constructor; [lia | constructor].
Qed.

Lemma ordered_guarded (d : dict Expr) key r e n :
  ordered d -> keys_below n d -> n <= rank key ->
  ordered (guarded_step key r e d)
  /\ keys_below (S (rank key)) (guarded_step key r e d).
Proof.
  intros Ho Hb Hn. unfold guarded_step.
  destruct r; apply (ordered_set d key _ n); assumption.
Qed.

Lemma ordered_identity (d : dict Expr) outer inner key s n :
  ordered d -> keys_below n d -> n <= rank key ->
  ordered (identity_entry outer inner key s d)
  /\ keys_below (S (rank key)) (identity_entry outer inner key s d).
Proof.
  intros Ho Hb Hn.
  assert (Hsame : ordered d /\ keys_below (S (rank key)) d)
    by (split; [exact Ho | apply (keys_below_mono n); [lia | exact Hb]]).
  unfold identity_entry.
  destruct (search _ s); [| exact Hsame].
  destruct (is_nil _); [exact Hsame |].
  destruct (sympify _); [| exact Hsame].
  apply (ordered_set d key _ n); assumption.
Qed.

Lemma ordered_log_block (d : dict Expr) e s :
  ordered d -> keys_below 8 d -> ordered (log_block e s d).
Proof.
  intros Ho Hb. unfold log_block.
  destruct (logcombine e) as [a |]; [| exact Ho].
  destruct (ordered_set d "logsimp" a 8 Ho Hb (le_n 8)) as [Ho1 Hb1].
  destruct (powsimp e) as [b |]; [| exact Ho1].
  destruct (ordered_set _ "powersimp" b 9 Ho1 Hb1 (le_n 9)) as [Ho2 Hb2].
  destruct (expand_log e) as [c |]; [| exact Ho2].
  destruct (ordered_set _ "expand_log" c 10 Ho2 Hb2 (le_n 10)) as [Ho3 Hb3].
  destruct (contains _ s); [| exact Ho3].
  destruct (replace_log_exp e) as [r |]; [| exact Ho3].
  apply (ordered_set _ "log_exp_replace" r 11 Ho3 Hb3 (le_n 11)).
Qed.

Lemma identity_steps_ordered (s : str) :
  ordered (identity_steps s) /\ keys_below 2 (identity_steps s).
Proof.
  unfold identity_steps.
  assert (H0 : ordered (E:=E) [] /\ keys_below (E:=E) 0 [])
    by (split; constructor).
  destruct H0 as [Ho0 Hb0].
  assert (H1 : ordered (if contains (lit "log(exp(") s
                        then identity_entry "log" "exp" "log_exp_identity" s []
                        else [])
               /\ keys_below 1 (if contains (lit "log(exp(") s
                                then identity_entry "log" "exp" "log_exp_identity" s []
                                else [])).
  { destruct (contains (lit "log(exp(") s).
    - apply (ordered_identity [] "log" "exp" "log_exp_identity" s 0 Ho0 Hb0 (le_n 0)).
    - split; constructor. }
  destruct H1 as [Ho1 Hb1]. cbv zeta.
  destruct (contains (lit "exp(log(") s).
  - apply (ordered_identity _ "exp" "log" "exp_log_identity" s 1 Ho1 Hb1 (le_n 1)).
  - split; [exact Ho1 | apply (keys_below_mono 1); [lia | exact Hb1]].
Qed.

(** The keys of [steps] stand in the order of their declaration. *)
Lemma run_strategies_ordered (e : Expr) steps :
  run_strategies e = Ok steps -> ordered steps.
Proof.
  intros Hok. rewrite (run_strategies_ok e Hok).
  destruct (identity_steps_ordered (str_of e)) as [Ho2 Hb2].
  unfold generic_strategies.
  destruct (ordered_guarded _ "basic" (simplify e) e 2 Ho2 Hb2 (le_n 2))
    as [Ho3 Hb3].
  destruct (ordered_guarded _ "expanded" (expand e) e 3 Ho3 Hb3 (le_n 3))
    as [Ho4 Hb4].
  destruct (ordered_guarded _ "factored" (factor e) e 4 Ho4 Hb4 (le_n 4))
    as [Ho5 Hb5].
  destruct (ordered_guarded _ "cancelled" (cancel e) e 5 Ho5 Hb5 (le_n 5))
    as [Ho6 Hb6].
  cbv zeta.
  match goal with
  | |- ordered (if _ then log_block _ _ ?d else ?d) =>
    assert (H : ordered d /\ keys_below 8 d)
  end.
  { match goal with
    | |- ordered (if ?t then guarded_step ?k ?r ?x ?d else ?d) /\ _ =>
      assert (H7 : ordered d /\ keys_below 7 d)
    end.
    { destruct (is_nil (free_symbols e)).
      - split; [exact Ho6 | apply (keys_below_mono 6); [lia | exact Hb6]].
      - apply (ordered_guarded _ "collected" _ e 6 Ho6 Hb6 (le_n 6)). }
    destruct H7 as [Ho7 Hb7].
    destruct (contains_any _ (str_of e)).
    - apply (ordered_guarded _ "trigsimp" _ e 7 Ho7 Hb7 (le_n 7)).
    - split; [exact Ho7 | apply (keys_below_mono 7); [lia | exact Hb7]]. }
  destruct H as [Ho8 Hb8].
  destruct (contains_any ["log"; "exp"; "ln"]%string (str_of e)); [| exact Ho8].
  apply ordered_log_block; assumption.
Qed.

End DeclarationOrder.

Section CandidateOrder.

Context {E : Engine}.

(** Dropping entries keeps the order: the candidates stand in the order
    of declaration of their strategies. *)
Lemma candidates_ordered (e : Expr) steps :
  run_strategies e = Ok steps -> ordered (candidates steps e).
Proof.
  intros Hok. pose proof (run_strategies_ordered e steps Hok) as H.
  clear Hok. unfold ordered, candidates in *.
  induction steps as [| [k v] d IH]; [constructor |].
  cbn [map fst] in H. inversion H as [| ? ? Hd Hk]; subst.
  cbn [filter snd]. destruct (expr_neqb v e); [| exact (IH Hd)].
  cbn [map fst]. constructor; [exact (IH Hd) |].
  apply Forall_forall. intros k' Hk'. rewrite Forall_forall in Hk.
  apply Hk. apply in_map_iff in Hk'. destruct Hk' as ([k0 v0] & <- & Hin).
  apply filter_In in Hin. apply in_map_iff. exists (k0, v0).
  split; [reflexivity | apply Hin].
Qed.

End CandidateOrder.

(** ** Matching and substitution *)

Section Matching.

Lemma with_cap_false g r : with_cap false g r = r.
Proof. destruct r as [[gs rest] |]; reflexivity. Qed.

Lemma last_of_cons prev c x : last_of prev (c :: x) = last_of (Some c) x.
Proof.
  unfold last_of. simpl. destruct (rev x) as [| d l]; reflexivity.
Qed.

Lemma last_of_app prev x c : last_of prev (x ++ [c]) = Some c.
Proof. unfold last_of. rewrite rev_app_distr. reflexivity. Qed.

(** Where the pattern matches nowhere, [re.sub] returns its input. *)
Lemma sub_go_no_match r repl s :
  forall prev, search_go r prev s = None -> sub_go r repl prev s 0 = s.
Proof.
  induction s as [| c s IH]; intros prev H; cbn [sub_go search_go] in *.
  - destruct (match_here r prev []) as [[gs rest] |]; [discriminate | reflexivity].
  - destruct (match_here r prev (c :: s)) as [[gs rest] |]; [discriminate |].
    f_equal. apply IH. exact H.
Qed.

(** Passing over the rest of a match. *)
Lemma sub_go_skip r repl x :
  forall prev rest,
    sub_go r repl prev (x ++ rest) (length x) = sub_go r repl (last_of prev x) rest 0.
Proof.
  induction x as [| c x IH]; intros prev rest.
  - reflexivity.
  - cbn [app length sub_go]. rewrite IH, last_of_cons. reflexivity.
Qed.

(** The output of [re.sub] is made of input characters and replacement
    texts. *)
Lemma sub_go_forall (P : char -> Prop) r repl :
  (forall m, Forall P (repl m)) ->
  forall s prev k, Forall P s -> Forall P (sub_go r repl prev s k).
Proof.
  intros Hrepl. induction s as [| c s IH]; intros prev k Hs.
  - destruct k; cbn [sub_go]; [| constructor].
    destruct (match_here r prev []) as [[gs rest] |]; [apply Hrepl | constructor].
  - inversion Hs as [| ? ? Hc Hs']; subst.
    destruct k; cbn [sub_go]; [| apply IH; exact Hs'].
    destruct (match_here r prev (c :: s)) as [[gs rest] |].
    + destruct (length (c :: s) - length rest);
        apply Forall_app; split; try apply Hrepl;
        try constructor; try assumption; apply IH; exact Hs'.
    + constructor; [exact Hc | apply IH; exact Hs'].
Qed.

Lemma starts_with_app a s :
  starts_with a s = true -> s = a ++ skipn (length a) s.
Proof.
  revert s. induction a as [| x a IH]; intros s H; [reflexivity |].
  destruct s as [| c s]; [discriminate |]. simpl in H.
  apply andb_true_iff in H. destruct H as [Hx Ha].
  apply N.eqb_eq in Hx. subst c. simpl. f_equal. apply IH. exact Ha.
Qed.

(** A run of literal characters at the head of a pattern. *)
Lemma match_text (w : str) r' :
  forall prev s,
    match_here (map (fun c => tok (One (Chr c))) w ++ r') prev s =
    if starts_with w s
    then match_here r' (last_of prev w) (skipn (length w) s)
    else None.
Proof.
  induction w as [| c w IH]; intros prev s.
  - reflexivity.
  - cbn [map app match_here tok]. destruct s as [| x s]; [reflexivity |].
    cbn [in_cls starts_with]. rewrite (N.eqb_sym c x).
    destruct (x =? c)%N eqn:Hx; [| reflexivity].
    apply N.eqb_eq in Hx. subst x.
    rewrite with_cap_false, IH, last_of_cons. reflexivity.
Qed.

Lemma all_word_head a s :
  a <> [] -> all_word a = true -> starts_with a s = true -> word_after s = true.
Proof.
  destruct a as [| x a]; [congruence |]. intros _ Ha Hs.
  destruct s as [| c s]; [discriminate |]. simpl in *.
  apply andb_true_iff in Ha, Hs. destruct Ha as [Hx _], Hs as [Hc _].
  apply N.eqb_eq in Hc. subst c. exact Hx.
Qed.

Lemma all_word_last prev a :
  a <> [] -> all_word a = true -> word_before (last_of prev a) = true.
Proof.
  intros Hne Ha. destruct (exists_last Hne) as (a' & c & ->).
  rewrite last_of_app. unfold all_word in Ha. rewrite forallb_app in Ha.
  apply andb_true_iff in Ha. destruct Ha as [_ Hc]. simpl in *.
  rewrite andb_true_r in Hc. exact Hc.
Qed.

(** [\ba\b] for a word [a]: the match starts after a character that is
    no word character, reads [a], and stops before one. *)
Lemma match_word_pattern (a : string) prev s :
  lit a <> [] -> all_word (lit a) = true ->
  match_here (word_pattern a) prev s =
  if negb (word_before prev) && starts_with (lit a) s
     && negb (word_after (skipn (length (lit a)) s))
  then Some ([], skipn (length (lit a)) s)
  else None.
Proof.
  intros Hne Ha. unfold word_pattern, text.
  cbn [match_here tok]. rewrite with_cap_false, match_text.
  destruct (starts_with (lit a) s) eqn:Hs.
  - unfold is_boundary at 1.
    rewrite (all_word_head _ _ Hne Ha Hs), xorb_true_r.
    destruct (word_before prev); [reflexivity |].
    cbn [match_here negb andb]. unfold is_boundary.
    rewrite (all_word_last prev _ Hne Ha), xorb_true_l.
    destruct (word_after _); reflexivity.
  - rewrite andb_false_r. destruct (is_boundary prev s); reflexivity.
Qed.

End Matching.

(** ** Words *)

Section Words.

Lemma word_split s : s = word_prefix s ++ after_word s.
Proof.
  induction s as [| c s IH]; [reflexivity |]. simpl.
  destruct (is_word c); [simpl; f_equal; exact IH | reflexivity].
Qed.

Lemma after_word_head s : word_after (after_word s) = false.
Proof.
  induction s as [| c s IH]; [reflexivity |]. simpl.
  destruct (is_word c) eqn:Hc; [exact IH | simpl; exact Hc].
Qed.

Lemma after_word_length s : length (after_word s) <= length s.
Proof.
  induction s as [| c s IH]; [apply le_n |]. simpl.
  destruct (is_word c); simpl; [apply le_S; exact IH | apply le_n].
Qed.

Lemma word_prefix_all_word s : all_word (word_prefix s) = true.
Proof.
  induction s as [| c s IH]; [reflexivity |]. simpl.
  destruct (is_word c) eqn:Hc; [simpl; rewrite Hc; exact IH | reflexivity].
Qed.

Lemma word_prefix_none s : word_after s = false -> word_prefix s = [] /\ after_word s = s.
Proof.
  destruct s as [| c s]; [split; reflexivity |]. simpl.
  intros ->. split; reflexivity.
Qed.

Lemma word_prefix_app a s :
  all_word a = true -> word_after s = false ->
  word_prefix (a ++ s) = a /\ after_word (a ++ s) = s.
Proof.
  intros Ha Hs. induction a as [| x a IH]; simpl.
  - apply word_prefix_none. exact Hs.
  - simpl in Ha. apply andb_true_iff in Ha. destruct Ha as [Hx Ha].
    rewrite Hx. destruct (IH Ha) as [-> ->]. split; reflexivity.
Qed.

Lemma starts_with_self a s : starts_with a (a ++ s) = true.
Proof.
  induction a as [| x a IH]; [reflexivity |]. simpl.
  rewrite N.eqb_refl. exact IH.
Qed.

Lemma skipn_self (a s : str) : skipn (length a) (a ++ s) = s.
Proof. induction a as [| x a IH]; [reflexivity | exact IH]. Qed.

(** The word at the head of [s] is [a]. *)
Lemma word_prefix_is a s :
  all_word a = true ->
  starts_with a s && negb (word_after (skipn (length a) s))
  = str_eqb (word_prefix s) a.
Proof.
  intros Ha.
  destruct (str_eqb (word_prefix s) a) eqn:Heq.
  - apply str_eqb_eq in Heq.
    rewrite (word_split s), Heq, starts_with_self, skipn_self, after_word_head.
    reflexivity.
  - destruct (starts_with a s) eqn:Hs; [| reflexivity].
    destruct (word_after (skipn (length a) s)) eqn:Hw; [reflexivity |].
    exfalso. apply starts_with_app in Hs.
    destruct (word_prefix_app a _ Ha Hw) as [Hp _].
    rewrite <- Hs in Hp.
    assert (Ht : str_eqb (word_prefix s) a = true) by (apply str_eqb_eq; exact Hp).
    congruence.
Qed.

End Words.

(** ** [re.sub] with the pattern of one alias *)

Section AliasSubstitution.

Variables a r : string.
Hypothesis a_nonempty : lit a <> [].
Hypothesis a_word : all_word (lit a) = true.

Lemma alias_template m : expand_template [T r] m = lit r.
Proof. unfold expand_template. simpl. apply app_nil_r. Qed.

Lemma sub_inside_word s :
  forall prev,
    word_before prev = true ->
    sub_go (word_pattern a) (expand_template [T r]) prev s 0 =
    word_prefix s
    ++ match after_word s with
       | [] => []
       | c :: s' => c :: sub_go (word_pattern a) (expand_template [T r]) (Some c) s' 0
       end.
Proof.
  induction s as [| c s IH]; intros prev Hp; cbn [sub_go];
    rewrite (match_word_pattern a prev _ a_nonempty a_word), Hp; cbn [negb andb].
  - reflexivity.
  - cbn [word_prefix after_word]. destruct (is_word c) eqn:Hc.
    + rewrite (IH (Some c) Hc). reflexivity.
    + reflexivity.
Qed.

Lemma sub_at_alias prev s2 :
  word_before prev = false -> word_after s2 = false ->
  sub_go (word_pattern a) (expand_template [T r]) prev (lit a ++ s2) 0 =
  lit r
  ++ match s2 with
     | [] => []
     | c :: s' => c :: sub_go (word_pattern a) (expand_template [T r]) (Some c) s' 0
     end.
Proof.
  intros Hp Hs2.
  assert (Hm : match_here (word_pattern a) prev (lit a ++ s2) = Some ([], s2)).
  { rewrite (match_word_pattern a prev _ a_nonempty a_word).
    rewrite Hp, starts_with_self, skipn_self, Hs2. reflexivity. }
  assert (Hlast : forall p, word_before (last_of p (lit a)) = true)
    by (intros p; apply all_word_last; assumption).
  pose proof sub_inside_word as Hin.
  pose proof a_nonempty as Hne.
  revert Hm Hlast Hne.
  destruct (lit a) as [| x a']; intros Hm Hlast Hne; [congruence |].
  cbn [app] in Hm |- *. cbn [sub_go]. rewrite Hm.
  replace (length (x :: a' ++ s2) - length s2) with (S (length a'))
    by (cbn [length]; rewrite length_app; lia).
  rewrite alias_template, sub_go_skip.
  rewrite Hin
    by (rewrite <- last_of_cons with (prev := prev); apply Hlast).
  destruct (word_prefix_none s2 Hs2) as [-> ->]. reflexivity.
Qed.

Lemma sub_at_other prev s :
  word_before prev = false ->
  str_eqb (word_prefix s) (lit a) = false ->
  sub_go (word_pattern a) (expand_template [T r]) prev s 0 =
  word_prefix s
  ++ match after_word s with
     | [] => []
     | c :: s' => c :: sub_go (word_pattern a) (expand_template [T r]) (Some c) s' 0
     end.
Proof.
  intros Hp Hne.
  destruct s as [| c s]; cbn [sub_go];
    rewrite (match_word_pattern a prev _ a_nonempty a_word), Hp;
    cbn [negb andb]; rewrite (word_prefix_is _ _ a_word), Hne.
  - reflexivity.
  - cbn [word_prefix after_word]. destruct (is_word c) eqn:Hc.
    + rewrite (sub_inside_word s (Some c) Hc). reflexivity.
    + reflexivity.
Qed.

Lemma sub_at_word_start prev s :
  word_before prev = false ->
  sub_go (word_pattern a) (expand_template [T r]) prev s 0 =
  swap (lit a) (lit r) (word_prefix s)
  ++ match after_word s with
     | [] => []
     | c :: s' => c :: sub_go (word_pattern a) (expand_template [T r]) (Some c) s' 0
     end.
Proof.
  intros Hp. unfold swap.
  destruct (str_eqb (word_prefix s) (lit a)) eqn:Heq.
  - apply str_eqb_eq in Heq.
    rewrite (word_split s) at 1. rewrite Heq.
    apply sub_at_alias; [exact Hp | apply after_word_head].
  - apply sub_at_other; assumption.
Qed.

Lemma map_words_split f s :
  forall cur,
    map_words f cur s =
    f (cur ++ word_prefix s)
    ++ match after_word s with
       | [] => []
       | c :: s' => c :: map_words f [] s'
       end.
Proof.
  induction s as [| c s IH]; intros cur; cbn [map_words word_prefix after_word].
  - rewrite !app_nil_r. reflexivity.
  - destruct (is_word c).
    + rewrite IH, <- app_assoc. reflexivity.
    + rewrite app_nil_r. reflexivity.
Qed.

Lemma after_word_tail s c s' : after_word s = c :: s' -> is_word c = false.
Proof.
  intros H. pose proof (after_word_head s) as Hh. rewrite H in Hh. exact Hh.
Qed.

(** The substitution of one alias, word by word. *)
Lemma sub_alias_words s :
  sub (word_pattern a) [T r] s = map_words (swap (lit a) (lit r)) [] s.
Proof.
  unfold sub, sub_fn.
  assert (H : forall n s prev,
             length s <= n -> word_before prev = false ->
             sub_go (word_pattern a) (expand_template [T r]) prev s 0
             = map_words (swap (lit a) (lit r)) [] s).
  { clear s. induction n as [| n IH]; intros s prev Hn Hp;
      rewrite (sub_at_word_start prev s Hp), map_words_split; cbn [app];
      f_equal; destruct (after_word s) as [| c s'] eqn:Hs; try reflexivity.
    - pose proof (after_word_length s) as Hl. rewrite Hs in Hl.
      cbn [length] in Hl. lia.
    - f_equal. apply IH.
      + pose proof (after_word_length s) as Hl. rewrite Hs in Hl.
        cbn [length] in Hl. lia.
      + apply (after_word_tail s c s' Hs). }
  apply (H (length s)); [apply le_n | reflexivity].
Qed.

End AliasSubstitution.

(** ** The words of a rewritten text *)

Section WordsOfResult.

Lemma all_word_app x y : all_word (x ++ y) = all_word x && all_word y.
Proof. apply forallb_app. Qed.

Lemma words_block w :
  all_word w = true ->
  forall acc rest, words acc (w ++ rest) = words (acc ++ w) rest.
Proof.
  induction w as [| c w IH]; intros Hw acc rest.
  - rewrite app_nil_r. reflexivity.
  - simpl in Hw. apply andb_true_iff in Hw. destruct Hw as [Hc Hw].
    cbn [app words]. rewrite Hc, (IH Hw), <- app_assoc. reflexivity.
Qed.

(** A function that fixes every word of the text fixes the text. *)
Lemma map_words_fixed f s :
  forall cur,
    Forall (fun w => f w = w) (words cur s) -> map_words f cur s = cur ++ s.
Proof.
  induction s as [| c s IH]; intros cur H; cbn [map_words words] in *.
  - inversion H; subst. rewrite app_nil_r. assumption.
  - destruct (is_word c).
    + rewrite (IH _ H), <- app_assoc. reflexivity.
    + inversion H as [| ? ? Hcur Hrest]; subst.
      rewrite Hcur, (IH _ Hrest). reflexivity.
Qed.

(** The words of the result are the images of the words. *)
Lemma words_map_words f s :
  (forall w, all_word w = true -> all_word (f w) = true) ->
  forall cur,
    all_word cur = true ->
    words [] (map_words f cur s) = map f (words cur s).
Proof.
  intros Hf. induction s as [| c s IH]; intros cur Hcur; cbn [map_words words].
  - rewrite <- (app_nil_r (f cur)), (words_block _ (Hf _ Hcur)). reflexivity.
  - destruct (is_word c) eqn:Hc.
    + apply IH. rewrite all_word_app, Hcur. simpl. rewrite Hc. reflexivity.
    + rewrite (words_block _ (Hf _ Hcur)). cbn [app words map].
      rewrite Hc. f_equal. apply IH. reflexivity.
Qed.

Lemma alias_ok_parts pr :
  alias_ok pr = true ->
  lit (fst pr) <> [] /\ all_word (lit (fst pr)) = true
  /\ lit (snd pr) <> [] /\ all_word (lit (snd pr)) = true.
Proof.
  unfold alias_ok. intros H.
  repeat (apply andb_true_iff in H; destruct H as [H ?]).
  repeat split; try assumption.
  - destruct (lit (fst pr)); [discriminate | discriminate].
  - destruct (lit (snd pr)); [discriminate | discriminate].
Qed.

Lemma swap_all_word a r w :
  all_word r = true -> all_word w = true -> all_word (swap a r w) = true.
Proof. intros Hr Hw. unfold swap. destruct (str_eqb w a); assumption. Qed.

Lemma replace_aliases_table e : replace_aliases e = sub_aliases alias_table e.
Proof. reflexivity. Qed.

Lemma sub_aliases_words table :
  forallb alias_ok table = true ->
  forall v, words [] (sub_aliases table v) = map (swaps table) (words [] v).
Proof.
  unfold sub_aliases, swaps.
  induction table as [| pr table IH]; intros Hok v; cbn [map fold_left fst snd].
  - rewrite map_id. reflexivity.
  - simpl in Hok. apply andb_true_iff in Hok. destruct Hok as [Hpr Hok].
    destruct (alias_ok_parts pr Hpr) as (Hne & Ha & _ & Hr).
    rewrite (IH Hok), (sub_alias_words _ _ Hne Ha).
    rewrite words_map_words;
      [| intros w Hw; apply swap_all_word; assumption | reflexivity].
    rewrite map_map. reflexivity.
Qed.

(** A text none of whose words is an alias is left alone. *)
Lemma sub_aliases_fixed table u :
  forallb alias_ok table = true ->
  (forall pr, In pr table -> In pr alias_table) ->
  Forall (fun w => is_alias w = false) (words [] u) ->
  sub_aliases table u = u.
Proof.
  unfold sub_aliases.
  induction table as [| pr table IH]; intros Hok Hin Hu; cbn [map fold_left fst snd].
  - reflexivity.
  - simpl in Hok. apply andb_true_iff in Hok. destruct Hok as [Hpr Hok].
    destruct (alias_ok_parts pr Hpr) as (Hne & Ha & _ & _).
    rewrite (sub_alias_words _ _ Hne Ha), map_words_fixed.
    + apply IH; [exact Hok | intros p Hp; apply Hin; right; exact Hp | exact Hu].
    + eapply Forall_impl; [| exact Hu]. intros w Hw. cbv beta in Hw.
      unfold swap. destruct (str_eqb w (lit (fst pr))) eqn:Heq; [| reflexivity].
      exfalso. unfold is_alias in Hw.
      assert (Ht : existsb (fun p => str_eqb w (lit (fst p))) alias_table = true).
      { apply existsb_exists. exists pr. split; [apply Hin; left; reflexivity | exact Heq]. }
      congruence.
Qed.

Lemma str_eqb_refl w : str_eqb w w = true.
Proof. apply str_eqb_eq. reflexivity. Qed.

(** After the aliases have been replaced, no word is an alias. *)
Lemma swaps_not_alias w : is_alias (swaps alias_table w) = false.
Proof.
  unfold swaps, alias_table. cbn [fold_left fst snd]. unfold swap.
  repeat match goal with
         | |- context [str_eqb w ?a] =>
           let H := fresh "H" in
           destruct (str_eqb w a) eqn:H;
           [apply str_eqb_eq in H; subst w; vm_compute; reflexivity |]
         end.
  unfold is_alias, alias_table. cbn [existsb fst].
  repeat match goal with
         | H : str_eqb w _ = false |- _ => rewrite H; clear H
         end.
  reflexivity.
Qed.

Lemma replace_aliases_no_alias v :
  Forall (fun w => is_alias w = false) (words [] (replace_aliases v)).
Proof.
  rewrite replace_aliases_table, sub_aliases_words by reflexivity.
  apply Forall_forall. intros w Hw. apply in_map_iff in Hw.
  destruct Hw as (w0 & <- & _). apply swaps_not_alias.
Qed.

End WordsOfResult.

(** ** Replacing single characters *)

Section Characters.

Lemma replace_single c r s :
  replace [c] r s = flat_map (fun x => if (x =? c)%N then r else [x]) s.
Proof.
  unfold replace.
  induction s as [| x s IH]; [reflexivity |].
  cbn [replace_go starts_with flat_map length Nat.sub].
  rewrite andb_true_r, (N.eqb_sym c x).
  destruct (x =? c)%N; rewrite IH; reflexivity.
Qed.

Lemma replace_absent c r s : ~ In c s -> replace [c] r s = s.
Proof.
  rewrite replace_single.
  induction s as [| x s IH]; intros Hc; [reflexivity |].
  cbn [flat_map].
  destruct (x =? c)%N eqn:Hx.
  - apply N.eqb_eq in Hx. subst x. exfalso. apply Hc. left. reflexivity.
  - cbn [app]. f_equal. apply IH. intros H. apply Hc. right. exact H.
Qed.

Lemma replace_forall (P : char -> Prop) c r s :
  Forall P r -> Forall P s -> Forall P (replace [c] r s).
Proof.
  intros Hr Hs. rewrite replace_single.
  induction Hs as [| x s Hx Hs IH]; [constructor |].
  cbn [flat_map]. apply Forall_app. split; [| exact IH].
  destruct (x =? c)%N; [exact Hr | constructor; [exact Hx | constructor]].
Qed.

Lemma replace_removes c r s : ~ In c r -> ~ In c (replace [c] r s).
Proof.
  intros Hr. rewrite replace_single.
  induction s as [| x s IH]; [intros [] |].
  cbn [flat_map]. intros H. apply in_app_or in H. destruct H as [H | H].
  - destruct (x =? c)%N eqn:Hx; [contradiction |].
    destruct H as [H | []]. subst x. rewrite N.eqb_refl in Hx. discriminate.
  - contradiction.
Qed.

Lemma replace_chars_forall (P : char -> Prop) table :
  (forall pr, In pr table -> Forall P (lit (snd pr))) ->
  forall s, Forall P s -> Forall P (replace_chars table s).
Proof.
  unfold replace_chars.
  induction table as [| pr table IH]; intros Hr s Hs; cbn [fold_left].
  - exact Hs.
  - apply IH; [intros p Hp; apply Hr; right; exact Hp |].
    apply replace_forall; [apply Hr; left; reflexivity | exact Hs].
Qed.

(** A table applied to a text that holds none of its keys. *)
Lemma replace_chars_absent table :
  forall s, (forall c, In c (map fst table) -> ~ In c s) -> replace_chars table s = s.
Proof.
  unfold replace_chars.
  induction table as [| pr table IH]; intros s Hs; cbn [fold_left]; [reflexivity |].
  rewrite replace_absent by (apply Hs; left; reflexivity).
  apply IH. intros c Hc. apply Hs. right. exact Hc.
Qed.

(** When no replacement holds a key, no key is left in the result. *)
Lemma replace_chars_removes table :
  (forall c pr, In c (map fst table) -> In pr table -> ~ In c (lit (snd pr))) ->
  forall s c, In c (map fst table) -> ~ In c (replace_chars table s).
Proof.
  induction table as [| pr table IH]; intros Hr s c Hc; [destruct Hc |].
  change (replace_chars (pr :: table) s)
    with (replace_chars table (replace [fst pr] (lit (snd pr)) s)).
  destruct Hc as [Hc | Hc].
  - subst c.
    assert (H : Forall (fun x => x <> fst pr)
                  (replace_chars table (replace [fst pr] (lit (snd pr)) s))).
    { apply replace_chars_forall.
      - intros p Hp. apply Forall_forall. intros x Hx ->.
        apply (Hr (fst pr) p); [left; reflexivity | right; exact Hp | exact Hx].
      - apply Forall_forall. intros x Hx ->.
        apply (replace_removes (fst pr) (lit (snd pr)) s); [| exact Hx].
        apply (Hr (fst pr) pr); left; reflexivity. }
    intros Hin. rewrite Forall_forall in H. apply (H _ Hin). reflexivity.
  - apply IH; [| exact Hc].
    intros c' p Hc' Hp. apply Hr; right; assumption.
Qed.

Lemma lstrip_forall (P : char -> Prop) s : Forall P s -> Forall P (lstrip s).
Proof.
  induction 1 as [| c s Hc Hs IH]; [constructor |]. simpl.
  destruct (is_space c); [exact IH | constructor; assumption].
Qed.

Lemma strip_forall (P : char -> Prop) s : Forall P s -> Forall P (strip s).
Proof.
  intros Hs. unfold strip, rstrip.
  apply Forall_rev, lstrip_forall, Forall_rev, lstrip_forall. exact Hs.
Qed.

End Characters.

(** ** Words after a character has been replaced *)

Section WordsAfterReplace.

Lemma starts_with_app_l p x y :
  starts_with p x = true -> starts_with p (x ++ y) = true.
Proof.
  revert x. induction p as [| a p IH]; intros x H; [reflexivity |].
  destruct x as [| b x]; [discriminate |]. simpl in *.
  apply andb_true_iff in H. destruct H as [Hab Hp].
  rewrite Hab. apply IH. exact Hp.
Qed.

Lemma contains_app_l p x y : contains p x = true -> contains p (x ++ y) = true.
Proof.
  induction x as [| b x IH]; intros H.
  - simpl in H. rewrite orb_false_r in H.
    destruct p; [destruct y; reflexivity | discriminate].
  - cbn [contains app] in *. apply orb_true_iff in H. destruct H as [H | H].
    + pose proof (starts_with_app_l p (b :: x) y H) as H'.
      cbn [app] in H'. rewrite H'. reflexivity.
    + rewrite (IH H). apply orb_true_r.
Qed.

Lemma contains_app_r p x y : contains p y = true -> contains p (x ++ y) = true.
Proof.
  intros H. induction x as [| b x IH]; [exact H |].
  cbn [app contains]. rewrite IH. apply orb_true_r.
Qed.

Lemma tainted_app_l x y : tainted x = true -> tainted (x ++ y) = true.
Proof.
  unfold tainted. intros H. apply orb_true_iff in H. apply orb_true_iff.
  destruct H as [H | H]; [left | right]; apply contains_app_l; exact H.
Qed.

Lemma tainted_app_r x y : tainted y = true -> tainted (x ++ y) = true.
Proof.
  unfold tainted. intros H. apply orb_true_iff in H. apply orb_true_iff.
  destruct H as [H | H]; [left | right]; apply contains_app_r; exact H.
Qed.

Lemma tainted_not_alias w : tainted w = true -> is_alias w = false.
Proof.
  intros Ht. destruct (is_alias w) eqn:Ha; [| reflexivity].
  unfold is_alias in Ha. apply existsb_exists in Ha.
  destruct Ha as (pr & Hin & Heq). apply str_eqb_eq in Heq. subst w.
  simpl in Hin.
  repeat (destruct Hin as [<- | Hin]; [vm_compute in Ht; discriminate |]).
  contradiction.
Qed.

Lemma words_no_word_block r0 :
  r0 <> [] -> no_word r0 = true ->
  forall cur rest,
    is_alias cur = false ->
    Forall (fun w => is_alias w = false) (words [] rest) ->
    Forall (fun w => is_alias w = false) (words cur (r0 ++ rest)).
Proof.
  induction r0 as [| x r0 IH]; intros Hne Hr cur rest Hcur Hrest; [congruence |].
  simpl in Hr. apply andb_true_iff in Hr. destruct Hr as [Hx Hr].
  apply negb_true_iff in Hx.
  cbn [app words]. rewrite Hx. constructor; [exact Hcur |].
  destruct r0 as [| y r0]; [exact Hrest |].
  apply IH; [discriminate | exact Hr | reflexivity | exact Hrest].
Qed.

(** Replacing a character that [symbol_ok] accepts forms no alias: a
    word of the result is a word of the text, or it has the replacement
    inside. *)
Lemma replace_keeps_no_alias pr :
  symbol_ok pr = true ->
  forall s cur cur',
    cur' = cur \/ tainted cur' = true ->
    Forall (fun w => is_alias w = false) (words cur s) ->
    Forall (fun w => is_alias w = false)
           (words cur' (replace [fst pr] (lit (snd pr)) s)).
Proof.
  intros Hok.
  unfold symbol_ok in Hok.
  apply andb_true_iff in Hok. destruct Hok as [Hok Hkind].
  repeat (apply andb_true_iff in Hok; destruct Hok as [Hok ?]).
  apply negb_true_iff in Hok.
  assert (Hne : lit (snd pr) <> [])
    by (destruct (lit (snd pr)); [discriminate | discriminate]).
  assert (Hcur' : forall cur cur',
             cur' = cur \/ tainted cur' = true ->
             is_alias cur = false -> is_alias cur' = false).
  { intros cur cur' [-> | Ht] Hc; [exact Hc | apply tainted_not_alias; exact Ht]. }
  intros s. rewrite replace_single.
  induction s as [| x s IH]; intros cur cur' Hrel Hs; cbn [flat_map words] in *.
  - inversion Hs; subst. constructor; [| constructor].
    eapply Hcur'; eassumption.
  - destruct (x =? fst pr)%N eqn:Hx.
    + apply N.eqb_eq in Hx. subst x. rewrite Hok in Hs.
      inversion Hs as [| ? ? Hc Hrest]; subst.
      apply orb_true_iff in Hkind. destruct Hkind as [Hnw | Hw].
      * apply words_no_word_block; [exact Hne | exact Hnw | |].
        -- eapply Hcur'; eassumption.
        -- apply (IH [] []); [left; reflexivity | exact Hrest].
      * apply andb_true_iff in Hw. destruct Hw as [Hw Ht].
        rewrite (words_block _ Hw).
        apply (IH [] (cur' ++ lit (snd pr)));
          [right; apply tainted_app_r; exact Ht | exact Hrest].
    + cbn [app words]. destruct (is_word x) eqn:Hwx.
      * apply (IH (cur ++ [x]) (cur' ++ [x])); [| exact Hs].
        destruct Hrel as [-> | Ht];
          [left; reflexivity | right; apply tainted_app_l; exact Ht].
      * inversion Hs as [| ? ? Hc Hrest]; subst.
        constructor; [eapply Hcur'; eassumption |].
        apply (IH [] []); [left; reflexivity | exact Hrest].
Qed.

Lemma replace_chars_keeps_no_alias table :
  forallb symbol_ok table = true ->
  forall s,
    Forall (fun w => is_alias w = false) (words [] s) ->
    Forall (fun w => is_alias w = false) (words [] (replace_chars table s)).
Proof.
  unfold replace_chars.
  induction table as [| pr table IH]; intros Hok s Hs; cbn [fold_left].
  - exact Hs.
  - simpl in Hok. apply andb_true_iff in Hok. destruct Hok as [Hpr Hok].
    apply (IH Hok).
    apply (replace_keeps_no_alias pr Hpr s [] []); [left; reflexivity | exact Hs].
Qed.

End WordsAfterReplace.

(** ** Whitespace *)

Section Whitespace.

Ltac to_props :=
  repeat match goal with
         | H : _ || _ = true |- _ =>
           apply orb_true_iff in H; destruct H as [H | H]
         | H : _ && _ = true |- _ =>
           let H' := fresh H in
           apply andb_true_iff in H; destruct H as [H H']
         | H : (_ <=? _)%N = true |- _ => apply N.leb_le in H
         | H : (_ =? _)%N = true |- _ => apply N.eqb_eq in H
         end.

(** No whitespace character is a word character. *)
Lemma is_space_not_word c : is_space c = true -> is_word c = false.
Proof.
  intros Hs. destruct (is_word c) eqn:Hw; [exfalso | reflexivity].
  unfold is_space, is_word, is_alpha, is_numeric, is_decimal,
    is_ascii_letter, between in *.
  to_props; lia.
Qed.

Lemma is_word_not_space c : is_word c = true -> is_space c = false.
Proof.
  intros Hw. destruct (is_space c) eqn:Hs; [| reflexivity].
  rewrite (is_space_not_word c Hs) in Hw. discriminate.
Qed.

Lemma all_word_no_space w : all_word w = true -> no_space w = true.
Proof.
  unfold all_word, no_space. rewrite !forallb_forall.
  intros H c Hc. rewrite (is_word_not_space c (H c Hc)). reflexivity.
Qed.

Lemma tidy_go_block x :
  x <> [] -> no_space x = true ->
  forall b rest, tidy_go b (x ++ rest) = tidy_go false rest.
Proof.
  induction x as [| c x IH]; intros Hne Hx b rest; [congruence |].
  simpl in Hx. apply andb_true_iff in Hx. destruct Hx as [Hc Hx].
  apply negb_true_iff in Hc. cbn [app tidy_go]. rewrite Hc.
  destruct x as [| d x]; [reflexivity |].
  apply IH; [discriminate | exact Hx].
Qed.

Lemma tidy_of_go s : tidy_go true s = true -> tidy s = true.
Proof. destruct s; [reflexivity | intros H; exact H]. Qed.

Lemma tidy_cases s : tidy s = true -> s = [] \/ tidy_go true s = true.
Proof. destruct s; [left; reflexivity | right; assumption]. Qed.

Lemma tidy_go_replace c r :
  is_space c = false -> r <> [] -> no_space r = true ->
  forall s b, tidy_go b (replace [c] r s) = tidy_go b s.
Proof.
  intros Hc Hne Hr s. rewrite replace_single.
  induction s as [| x s IH]; intros b; [reflexivity |].
  cbn [flat_map]. destruct (x =? c)%N eqn:Hx.
  - apply N.eqb_eq in Hx. subst x.
    rewrite (tidy_go_block r Hne Hr). cbn [tidy_go]. rewrite Hc. apply IH.
  - cbn [app tidy_go]. rewrite !IH. reflexivity.
Qed.

Lemma tidy_replace_chars table :
  forallb symbol_ok table = true ->
  forall s, tidy s = true -> tidy (replace_chars table s) = true.
Proof.
  unfold replace_chars.
  induction table as [| pr table IH]; intros Hok s Hs; cbn [fold_left].
  - exact Hs.
  - simpl in Hok. apply andb_true_iff in Hok. destruct Hok as [Hpr Hok].
    apply (IH Hok).
    unfold symbol_ok in Hpr.
    apply andb_true_iff in Hpr. destruct Hpr as [Hpr _].
    repeat (apply andb_true_iff in Hpr; destruct Hpr as [Hpr ?]).
    destruct (tidy_cases s Hs) as [-> | Hgo]; [reflexivity |].
    apply tidy_of_go. rewrite tidy_go_replace; try assumption.
    + apply negb_true_iff. assumption.
    + destruct (lit (snd pr)); [discriminate | discriminate].
Qed.

Lemma swap_shape a r cur :
  a <> [] -> r <> [] -> all_word r = true ->
  swap a r [] = []
  /\ (cur <> [] -> all_word cur = true ->
      swap a r cur <> [] /\ no_space (swap a r cur) = true).
Proof.
  intros Ha Hr Hw. unfold swap. split.
  - destruct (str_eqb [] a) eqn:H; [| reflexivity].
    apply str_eqb_eq in H. congruence.
  - intros Hcur Hcw. destruct (str_eqb cur a).
    + split; [exact Hr | apply all_word_no_space; exact Hw].
    + split; [exact Hcur | apply all_word_no_space; exact Hcw].
Qed.

Lemma tidy_go_map_words a r :
  a <> [] -> r <> [] -> all_word r = true ->
  forall s cur b,
    all_word cur = true ->
    tidy_go b (map_words (swap a r) cur s) = tidy_go b (cur ++ s).
Proof.
  intros Ha Hr Hw.
  induction s as [| c s IH]; intros cur b Hcur; cbn [map_words].
  - rewrite app_nil_r.
    destruct (swap_shape a r cur Ha Hr Hw) as [H0 H1].
    destruct cur as [| x cur]; [rewrite H0; reflexivity |].
    assert (Hxc : x :: cur <> []) by discriminate.
    destruct (H1 Hxc Hcur) as [Hne Hns].
    transitivity (tidy_go false []).
    + rewrite <- (app_nil_r (swap a r (x :: cur))).
      apply (tidy_go_block _ Hne Hns).
    + rewrite <- (app_nil_r (x :: cur)). symmetry.
      apply (tidy_go_block _ Hxc (all_word_no_space _ Hcur)).
  - destruct (is_word c) eqn:Hc.
    + rewrite IH, <- app_assoc; [reflexivity |].
      rewrite all_word_app, Hcur. simpl. rewrite Hc. reflexivity.
    + assert (Htail : forall b',
                 tidy_go b' (c :: map_words (swap a r) [] s) = tidy_go b' (c :: s)).
      { intros b'. cbn [tidy_go]. rewrite !(IH [] _ eq_refl). reflexivity. }
      destruct (swap_shape a r cur Ha Hr Hw) as [H0 H1].
      destruct cur as [| x cur]; [rewrite H0; apply Htail |].
      assert (Hxc : x :: cur <> []) by discriminate.
      destruct (H1 Hxc Hcur) as [Hne Hns].
      rewrite (tidy_go_block _ Hne Hns),
        (tidy_go_block _ Hxc (all_word_no_space _ Hcur)).
      apply Htail.
Qed.

Lemma tidy_sub_aliases table :
  forallb alias_ok table = true ->
  forall s, tidy s = true -> tidy (sub_aliases table s) = true.
Proof.
  unfold sub_aliases.
  induction table as [| pr table IH]; intros Hok s Hs; cbn [map fold_left fst snd].
  - exact Hs.
  - simpl in Hok. apply andb_true_iff in Hok. destruct Hok as [Hpr Hok].
    destruct (alias_ok_parts pr Hpr) as (Hne & Ha & Hrne & Hr).
    apply (IH Hok). rewrite (sub_alias_words _ _ Hne Ha).
    destruct (tidy_cases s Hs) as [-> | Hgo].
    + cbn [map_words].
      destruct (swap_shape (lit (fst pr)) (lit (snd pr)) [] Hne Hrne Hr) as [-> _].
      reflexivity.
    + apply tidy_of_go.
      rewrite (tidy_go_map_words _ _ Hne Hrne Hr s [] true eq_refl). exact Hgo.
Qed.

(** [\s+] matches the whole run of whitespace at the head. *)
Lemma match_spaces prev s :
  match_here [tok (Plus Space)] prev s =
  if span Space s <? 1 then None else Some ([], skipn (span Space s) s).
Proof.
  cbn [match_here tok].
  destruct (span Space s) as [| k]; [reflexivity |].
  cbn [Nat.ltb Nat.leb backtrack match_here with_cap]. reflexivity.
Qed.

Lemma span_le k s : span k s <= length s.
Proof.
  induction s as [| c s IH]; [apply le_n |]. simpl.
  destruct (in_cls k c); simpl; lia.
Qed.

Lemma squeeze_true s :
  squeeze true s = squeeze false (skipn (span Space s) s).
Proof.
  induction s as [| c s IH]; [reflexivity |].
  cbn [squeeze span in_cls]. destruct (is_space c) eqn:Hc.
  - exact IH.
  - cbn [skipn squeeze]. rewrite Hc. reflexivity.
Qed.

Lemma sub_spaces s : sub [tok (Plus Space)] [T " "] s = squeeze false s.
Proof.
  unfold sub, sub_fn.
  assert (H : forall n s prev,
             length s <= n ->
             sub_go [tok (Plus Space)] (expand_template [T " "]) prev s 0
             = squeeze false s).
  { clear s. induction n as [| n IH]; intros s prev Hn.
    - destruct s; [| simpl in Hn; lia].
      cbn [sub_go]. rewrite match_spaces. reflexivity.
    - destruct s as [| c s]; [cbn [sub_go]; rewrite match_spaces; reflexivity |].
      cbn [sub_go]. rewrite match_spaces. cbn [span in_cls squeeze].
      destruct (is_space c) eqn:Hc.
      + cbn [Nat.ltb Nat.leb skipn].
        pose proof (span_le Space s) as Hle.
        replace (length (c :: s) - length (skipn (span Space s) s))
          with (S (span Space s))
          by (cbn [length]; rewrite length_skipn; lia).
        rewrite alias_template.
        pose proof (sub_go_skip [tok (Plus Space)] (expand_template [T " "])
                      (firstn (span Space s) s) (Some c)
                      (skipn (span Space s) s)) as Hskip.
        rewrite firstn_skipn, (firstn_length_le s Hle) in Hskip.
        rewrite Hskip, squeeze_true, IH; [reflexivity |].
        rewrite length_skipn. simpl in Hn. lia.
      + cbn [Nat.ltb Nat.leb]. f_equal. apply IH. simpl in Hn. lia. }
  apply (H (length s)). apply le_n.
Qed.

Lemma lstrip_head s :
  match lstrip s with
  | c :: _ => is_space c = false
  | [] => True
  end.
Proof.
  induction s as [| c s IH]; [exact I |]. simpl.
  destruct (is_space c) eqn:Hc; [exact IH | exact Hc].
Qed.

Lemma lstrip_last l c :
  is_space c = false -> exists y, lstrip (l ++ [c]) = y ++ [c].
Proof.
  intros Hc. induction l as [| d l IH]; simpl.
  - rewrite Hc. exists []. reflexivity.
  - destruct (is_space d); [exact IH |]. exists (d :: l). reflexivity.
Qed.

(** A stripped text neither starts nor ends with whitespace. *)
Lemma strip_ends t :
  (forall c x, strip t = c :: x -> is_space c = false)
  /\ (forall y c, strip t = y ++ [c] -> is_space c = false).
Proof.
  unfold strip, rstrip. split.
  - intros c x H.
    pose proof (lstrip_head t) as Hh.
    destruct (lstrip t) as [| d l] eqn:Hl.
    + simpl in H. discriminate.
    + cbn [rev] in H.
      destruct (lstrip_last (rev l) d Hh) as [y Hy].
      rewrite Hy, rev_app_distr in H. simpl in H. congruence.
  - intros y c H.
    pose proof (lstrip_head (rev (lstrip t))) as Hh.
    apply (f_equal (@rev char)) in H.
    rewrite rev_involutive, rev_app_distr in H. simpl in H.
    rewrite H in Hh. exact Hh.
Qed.

Lemma tidy_go_squeeze x :
  (forall y c, x = y ++ [c] -> is_space c = false) ->
  forall b, (x = [] -> b = false) -> tidy_go b (squeeze b x) = true.
Proof.
  induction x as [| c x IH]; intros Hlast b Hb.
  - rewrite (Hb eq_refl). reflexivity.
  - assert (Hlast' : forall y d, x = y ++ [d] -> is_space d = false)
      by (intros y d ->; apply (Hlast (c :: y) d); reflexivity).
    cbn [squeeze]. destruct (is_space c) eqn:Hc.
    + assert (Hx : x <> []).
      { intros ->. rewrite (Hlast [] c eq_refl) in Hc. discriminate. }
      destruct b.
      * apply IH; [exact Hlast' | intros; contradiction].
      * cbn [tidy_go]. change (is_space 32%N) with true. cbn [N.eqb Pos.eqb negb andb].
        apply IH; [exact Hlast' | intros; contradiction].
    + cbn [tidy_go]. rewrite Hc. apply IH; [exact Hlast' | reflexivity].
Qed.

Lemma tidy_collapse_spaces t : tidy (collapse_spaces t) = true.
Proof.
  unfold collapse_spaces. rewrite sub_spaces.
  destruct (strip_ends t) as [Hhead Hlast].
  destruct (strip t) as [| c x]; [reflexivity |].
  cbn [squeeze]. rewrite (Hhead c x eq_refl).
  cbn [tidy tidy_go]. rewrite (Hhead c x eq_refl).
  apply tidy_go_squeeze; [| reflexivity].
  intros y d ->. apply (Hlast (c :: y) d). reflexivity.
Qed.

Lemma tidy_go_last y c : forall b, tidy_go b (y ++ [c]) = true -> is_space c = false.
Proof.
  induction y as [| d y IH]; intros b H; cbn [app tidy_go] in H.
  - destruct (is_space c); [| reflexivity].
    rewrite andb_false_r in H. discriminate.
  - destruct (is_space d); [| exact (IH _ H)].
    apply andb_true_iff in H. destruct H as [_ H]. exact (IH _ H).
Qed.

Lemma tidy_go_squeeze_fixed x : forall b, tidy_go b x = true -> squeeze b x = x.
Proof.
  induction x as [| c x IH]; intros b H; [reflexivity |].
  cbn [tidy_go squeeze] in *. destruct (is_space c).
  - apply andb_true_iff in H. destruct H as [H Hx].
    apply andb_true_iff in H. destruct H as [Hc Hb].
    apply negb_true_iff in Hb. apply N.eqb_eq in Hc. subst b c.
    f_equal. apply IH. exact Hx.
  - f_equal. apply IH. exact H.
Qed.

(** A tidy text is not changed by the whitespace pass. *)
Lemma collapse_spaces_fixed x : tidy x = true -> collapse_spaces x = x.
Proof.
  intros Hx. unfold collapse_spaces. rewrite sub_spaces.
  destruct x as [| c x]; [reflexivity |].
  cbn [tidy] in Hx.
  assert (Hc : is_space c = false).
  { cbn [tidy_go] in Hx. destruct (is_space c); [| reflexivity].
    rewrite andb_false_r in Hx. discriminate. }
  assert (Hstrip : strip (c :: x) = c :: x).
  { unfold strip. cbn [lstrip]. rewrite Hc. unfold rstrip.
    assert (Hcx : c :: x <> []) by discriminate.
    destruct (exists_last Hcx) as (y & d & Hy).
    rewrite Hy, rev_app_distr. cbn [rev app lstrip].
    rewrite Hy in Hx. rewrite (tidy_go_last y d true Hx).
    cbn [rev]. rewrite rev_involutive. reflexivity. }
  rewrite Hstrip. cbn [squeeze]. rewrite Hc. f_equal.
  cbn [tidy_go] in Hx. rewrite Hc in Hx.
  apply tidy_go_squeeze_fixed. exact Hx.
Qed.

End Whitespace.

(** ** Texts that the normalizer leaves alone *)

Section FixedPoints.

Lemma no_key_of_spec table c :
  no_key_of table c = true <-> ~ In c (map fst table).
Proof.
  unfold no_key_of. rewrite negb_true_iff. split.
  - intros H Hin.
    assert (Ht : existsb (N.eqb c) (map fst table) = true).
    { apply existsb_exists. exists c. split; [exact Hin | apply N.eqb_refl]. }
    congruence.
  - intros H. destruct (existsb (N.eqb c) (map fst table)) eqn:He; [| reflexivity].
    apply existsb_exists in He. destruct He as (k & Hk & Hck).
    apply N.eqb_eq in Hck. subst k. contradiction.
Qed.

Lemma keys_absent table s :
  forallb (no_key_of table) s = true ->
  forall c, In c (map fst table) -> ~ In c s.
Proof.
  intros H c Hc Hin. rewrite forallb_forall in H.
  apply (no_key_of_spec table c); [apply H; exact Hin | exact Hc].
Qed.

Lemma forallb_literal (p : char -> bool) s :
  forallb p s = true -> Forall (fun c => p c = true) s.
Proof. intros H. apply Forall_forall. apply forallb_forall. exact H. Qed.

Lemma sub_aliases_forall (P : char -> Prop) table :
  (forall pr, In pr table -> Forall P (lit (snd pr))) ->
  forall s, Forall P s -> Forall P (sub_aliases table s).
Proof.
  unfold sub_aliases.
  induction table as [| pr table IH]; intros Hr s Hs; cbn [map fold_left fst snd].
  - exact Hs.
  - apply IH; [intros p Hp; apply Hr; right; exact Hp |].
    unfold sub, sub_fn. apply sub_go_forall; [| exact Hs].
    intros m. rewrite alias_template. apply Hr. left. reflexivity.
Qed.

(** The passes before the Cyrillic replacement bring in none of its
    letters, so on a text without them that replacement does nothing. *)
Lemma preprocess_without_homoglyphs t :
  homoglyph_free t = true ->
  preprocess_text t
  = replace_chars symbol_replacements (replace_aliases (collapse_spaces t))
  /\ homoglyph_free (preprocess_text t) = true.
Proof.
  intros Ht.
  pose (P := fun c => no_key_of cyrillic_replacements c = true).
  assert (Hv : Forall P (collapse_spaces t)).
  { unfold collapse_spaces, sub, sub_fn. apply sub_go_forall.
    - intros m. rewrite alias_template. apply forallb_literal. reflexivity.
    - apply strip_forall. apply forallb_literal. exact Ht. }
  assert (Hy : Forall P (replace_aliases (collapse_spaces t))).
  { rewrite replace_aliases_table. apply sub_aliases_forall; [| exact Hv].
    intros pr Hpr. apply forallb_literal. revert pr Hpr.
    apply forallb_forall. reflexivity. }
  assert (Hc : replace_chars cyrillic_replacements
                 (replace_aliases (collapse_spaces t))
               = replace_aliases (collapse_spaces t)).
  { apply replace_chars_absent. apply keys_absent.
    apply forallb_forall. apply Forall_forall. exact Hy. }
  unfold preprocess_text. rewrite Hc. split; [reflexivity |].
  apply forallb_forall. apply Forall_forall.
  apply replace_chars_forall; [| exact Hy].
  intros pr Hpr. apply forallb_literal. revert pr Hpr.
  apply forallb_forall. reflexivity.
Qed.

Lemma symbols_removed s c :
  In c (map fst symbol_replacements) ->
  ~ In c (replace_chars symbol_replacements s).
Proof.
  apply replace_chars_removes.
  intros k pr Hk Hpr.
  assert (H : forallb (fun pr => forallb (no_key_of symbol_replacements) (lit (snd pr)))
                symbol_replacements = true) by reflexivity.
  rewrite forallb_forall in H.
  apply (keys_absent symbol_replacements _ (H pr Hpr)). exact Hk.
Qed.

(** A tidy text with no alias word, none of the Cyrillic letters and
    none of the symbols is a fixed point of the normalizer. *)
Lemma preprocess_fixed u :
  tidy u = true ->
  Forall (fun w => is_alias w = false) (words [] u) ->
  (forall c, In c (map fst cyrillic_replacements) -> ~ In c u) ->
  (forall c, In c (map fst symbol_replacements) -> ~ In c u) ->
  preprocess_text u = u.
Proof.
  intros Htidy Hwords Hcyr Hsym. unfold preprocess_text.
  rewrite (collapse_spaces_fixed u Htidy), replace_aliases_table.
  rewrite (sub_aliases_fixed alias_table u eq_refl (fun pr H => H) Hwords).
  rewrite (replace_chars_absent cyrillic_replacements u Hcyr).
  apply replace_chars_absent. exact Hsym.
Qed.

(** Replacing a character that is no whitespace by a text without
    whitespace keeps a text tidy. *)
Lemma tidy_replace_table table :
  (forall pr, In pr table ->
     is_space (fst pr) = false /\ lit (snd pr) <> []
     /\ no_space (lit (snd pr)) = true) ->
  forall s, tidy s = true -> tidy (replace_chars table s) = true.
Proof.
  unfold replace_chars.
  induction table as [| pr table IH]; intros Hok s Hs; cbn [fold_left].
  - exact Hs.
  - apply IH; [intros pr' Hpr'; apply Hok; right; exact Hpr' |].
    destruct (Hok pr (or_introl eq_refl)) as (Hc & Hne & Hns).
    destruct (tidy_cases s Hs) as [-> | Hgo]; [reflexivity |].
    apply tidy_of_go. rewrite tidy_go_replace; assumption.
Qed.

Lemma preprocess_tidy t : tidy (preprocess_text t) = true.
Proof.
  unfold preprocess_text.
  apply tidy_replace_table;
    [intros pr Hpr; revert pr Hpr; apply Forall_forall;
     repeat constructor; discriminate |].
  apply tidy_replace_table;
    [intros pr Hpr; revert pr Hpr; apply Forall_forall;
     repeat constructor; discriminate |].
  rewrite replace_aliases_table.
  apply tidy_sub_aliases; [reflexivity |].
  apply tidy_collapse_spaces.
Qed.

(** The normalized text holds none of the Cyrillic letters of the table:
    no pass after their replacement brings one in. *)
Lemma cyrillic_removed t c :
  In c (map fst cyrillic_replacements) -> ~ In c (preprocess_text t).
Proof.
  intros Hc. unfold preprocess_text.
  pose (P := fun x : char => x <> c).
  assert (H : Forall P (replace_chars symbol_replacements
               (replace_chars cyrillic_replacements
                  (replace_aliases (collapse_spaces t))))).
  { apply replace_chars_forall.
    - intros pr Hpr. revert pr Hpr. apply Forall_forall.
      simpl in Hc. unfold P.
      repeat match goal with
             | H : _ \/ _ |- _ => destruct H as [H | H]
             end; try contradiction; subst c;
        repeat constructor; discriminate.
    - apply Forall_forall. intros x Hx Hxc. unfold P in *. subst x.
      revert Hx. apply replace_chars_removes; [| exact Hc].
      intros k pr Hk Hpr. revert pr Hpr. apply Forall_forall.
      simpl in Hk.
      repeat match goal with
             | H : _ \/ _ |- _ => destruct H as [H | H]
             end; try contradiction; subst k;
        repeat constructor; simpl; intuition discriminate. }
  rewrite Forall_forall in H. intros Hin. exact (H c Hin eq_refl).
Qed.

Lemma preprocess_homoglyph_free t : homoglyph_free (preprocess_text t) = true.
Proof.
  unfold homoglyph_free. apply forallb_forall. intros c Hc.
  apply no_key_of_spec. intros Hk. exact (cyrillic_removed t c Hk Hc).
Qed.

(** Normalizing a text without the Cyrillic letters leaves no alias
    word: the alias pass removes them all and the symbol pass completes
    none. *)
Lemma preprocess_no_alias u :
  homoglyph_free u = true ->
  Forall (fun w => is_alias w = false) (words [] (preprocess_text u)).
Proof.
  intros Hu. destruct (preprocess_without_homoglyphs u Hu) as [Hpre _].
  rewrite Hpre. apply replace_chars_keeps_no_alias; [reflexivity |].
  apply replace_aliases_no_alias.
Qed.

End FixedPoints.

(** ** The whole alias pass, word by word *)

Section AliasPass.

Lemma map_words_block f w :
  all_word w = true ->
  forall acc rest, map_words f acc (w ++ rest) = map_words f (acc ++ w) rest.
Proof.
  induction w as [| c w IH]; intros Hw acc rest.
  - rewrite app_nil_r. reflexivity.
  - simpl in Hw. apply andb_true_iff in Hw. destruct Hw as [Hc Hw].
    cbn [app map_words]. rewrite Hc, (IH Hw), <- app_assoc. reflexivity.
Qed.

(** Two word-by-word rewritings in a row are one. *)
Lemma map_words_compose f g s :
  (forall w, all_word w = true -> all_word (g w) = true) ->
  forall cur,
    all_word cur = true ->
    map_words f [] (map_words g cur s) = map_words (fun w => f (g w)) cur s.
Proof.
  intros Hg. induction s as [| c s IH]; intros cur Hcur; cbn [map_words].
  - pose proof (map_words_block f _ (Hg _ Hcur) [] []) as H.
    rewrite app_nil_r in H. exact H.
  - destruct (is_word c) eqn:Hc.
    + apply IH. rewrite all_word_app, Hcur. simpl. rewrite Hc. reflexivity.
    + rewrite (map_words_block f _ (Hg _ Hcur)). cbn [app map_words].
      rewrite Hc. f_equal. f_equal. apply IH. reflexivity.
Qed.

Lemma map_words_id s : forall cur, map_words (fun w => w) cur s = cur ++ s.
Proof.
  intros cur. apply map_words_fixed. apply Forall_forall. reflexivity.
Qed.

Lemma swaps_all_word table :
  forallb alias_ok table = true ->
  forall w, all_word w = true -> all_word (swaps table w) = true.
Proof.
  unfold swaps.
  induction table as [| pr table IH]; intros Hok w Hw; cbn [fold_left]; [exact Hw |].
  simpl in Hok. apply andb_true_iff in Hok. destruct Hok as [Hpr Hok].
  destruct (alias_ok_parts pr Hpr) as (_ & _ & _ & Hr).
  apply (IH Hok). apply swap_all_word; assumption.
Qed.

(** The alias pass replaces each maximal run of word characters by its
    image under the table and keeps every other character. *)
Lemma sub_aliases_map_words table :
  forallb alias_ok table = true ->
  forall s, sub_aliases table s = map_words (swaps table) [] s.
Proof.
  induction table as [| pr table IH]; intros Hok s.
  - unfold sub_aliases, swaps. cbn [map fold_left].
    symmetry. apply (map_words_id s []).
  - simpl in Hok. apply andb_true_iff in Hok. destruct Hok as [Hpr Hok].
    destruct (alias_ok_parts pr Hpr) as (Hne & Ha & _ & Hr).
    change (sub_aliases (pr :: table) s)
      with (sub_aliases table (sub (word_pattern (fst pr)) [T (snd pr)] s)).
    rewrite (IH Hok), (sub_alias_words _ _ Hne Ha).
    rewrite map_words_compose;
      [reflexivity | intros w Hw; apply swap_all_word; assumption | reflexivity].
Qed.

End AliasPass.

(** ** The power-call rule needs a caret *)

Section PowerCall.

Lemma in_skipn (x : char) j s : In x (skipn j s) -> In x s.
Proof.
  revert s. induction j as [| j IH]; intros s H; [exact H |].
  destruct s as [| c s]; [exact H |]. right. apply IH. exact H.
Qed.

Lemma backtrack_none cont cap prev s lo :
  (forall j p, cont p (skipn j s) = None) ->
  forall n, backtrack cont cap prev s lo n = None.
Proof.
  intros Hc. induction n as [| n IH]; cbn [backtrack]; rewrite Hc; cbn [with_cap].
  - reflexivity.
  - destruct (n <? lo); [reflexivity | exact IH].
Qed.

Lemma power_call_needs_caret prev s :
  ~ In (ch "^") s -> match_here power_call prev s = None.
Proof.
  intros Hs. unfold power_call. cbn [match_here grp tok].
  destruct (span Word s <? 1); [reflexivity |].
  apply backtrack_none. intros j p. cbn [match_here].
  destruct (skipn j s) as [| c x] eqn:Hx; [reflexivity |].
  cbn [in_cls]. destruct (c =? ch "^")%N eqn:Hc; [| reflexivity].
  exfalso. apply N.eqb_eq in Hc. subst c. apply Hs.
  apply (in_skipn _ j). rewrite Hx. left. reflexivity.
Qed.

Lemma rewrite_power_calls_without_caret s :
  ~ In (ch "^") s -> rewrite_power_calls s = s.
Proof.
  intros Hs. unfold rewrite_power_calls, sub, sub_fn.
  apply sub_go_no_match.
  generalize (@None char).
  induction s as [| c s IH]; intros prev; cbn [search_go];
    rewrite (power_call_needs_caret prev _ Hs); [reflexivity |].
  apply IH. intros H. apply Hs. right. exact H.
Qed.

(** [preprocess_text] leaves no caret behind. *)
Lemma preprocess_has_no_caret t : ~ In (ch "^") (preprocess_text t).
Proof.
  unfold preprocess_text. apply symbols_removed. left. reflexivity.
Qed.

End PowerCall.

(** ** The insertion rules and the markers *)

Section Insertion.

Lemma backtrack_some cont cap prev s lo :
  forall n gs rest,
    backtrack cont cap prev s lo n = Some (gs, rest) ->
    exists j gs',
      j <= n /\ (lo <= j \/ j = n)
      /\ cont (last_of prev (firstn j s)) (skipn j s) = Some (gs', rest)
      /\ gs = if cap then firstn j s :: gs' else gs'.
Proof.
  induction n as [| n IH]; intros gs rest H; cbn [backtrack] in H.
  - destruct (cont (last_of prev (firstn 0 s)) (skipn 0 s))
      as [[gs' rest'] |] eqn:Hc; cbn [with_cap] in H; [| discriminate].
    inversion H; subst. exists 0, gs'. repeat split; auto.
  - destruct (cont (last_of prev (firstn (S n) s)) (skipn (S n) s))
      as [[gs' rest'] |] eqn:Hc; cbn [with_cap] in H.
    + inversion H; subst. exists (S n), gs'. repeat split; auto.
    + destruct (n <? lo) eqn:Hlo; [discriminate |].
      apply Nat.ltb_ge in Hlo.
      destruct (IH _ _ H) as (j & gs' & Hj & Hlj & Hcj & Hgs).
      exists j, gs'. repeat split; try assumption; [lia |].
      left. destruct Hlj as [Hlj | ->]; assumption.
Qed.

Lemma span_firstn k s j :
  j <= span k s -> forallb (in_cls k) (firstn j s) = true.
Proof.
  revert j. induction s as [| c s IH]; intros j Hj.
  - destruct j; reflexivity.
  - destruct j as [| j]; [reflexivity |]. cbn [span] in Hj. cbn [firstn forallb].
    destruct (in_cls k c); [| lia]. apply IH. lia.
Qed.

(** A greedy repetition at the head of a pattern takes between one
    character and the whole run. *)
Lemma match_plus cap k r' prev s gs rest :
  match_here ((cap, Plus k) :: r') prev s = Some (gs, rest) ->
  exists j gs',
    1 <= j /\ j <= span k s
    /\ match_here r' (last_of prev (firstn j s)) (skipn j s) = Some (gs', rest)
    /\ gs = if cap then firstn j s :: gs' else gs'.
Proof.
  cbn [match_here]. destruct (span k s <? 1) eqn:Hn; [discriminate |].
  apply Nat.ltb_ge in Hn. intros H.
  destruct (backtrack_some _ _ _ _ _ _ _ _ H) as (j & gs' & Hj & Hlj & Hc & Hgs).
  exists j, gs'. repeat split; try assumption. destruct Hlj; lia.
Qed.

Lemma match_one cap k r' prev s gs rest :
  match_here ((cap, One k) :: r') prev s = Some (gs, rest) ->
  exists c s' gs',
    s = c :: s' /\ in_cls k c = true
    /\ match_here r' (Some c) s' = Some (gs', rest)
    /\ gs = if cap then [c] :: gs' else gs'.
Proof.
  cbn [match_here]. destruct s as [| c s']; [discriminate |].
  destruct (in_cls k c) eqn:Hk; [| discriminate].
  destruct (match_here r' (Some c) s') as [[gs' rest'] |] eqn:Hm;
    cbn [with_cap]; [| discriminate].
  intros H. inversion H; subst. exists c, s', gs'.
  split; [reflexivity |]. split; [exact Hk |]. split; [exact Hm | reflexivity].
Qed.

Lemma match_end prev s gs rest :
  match_here [] prev s = Some (gs, rest) -> gs = [] /\ rest = s.
Proof. cbn [match_here]. intros H. inversion H. split; reflexivity. Qed.

Lemma firstn_nonempty (s : str) j : 1 <= j -> j <= length s -> firstn j s <> [].
Proof.
  intros H1 H2 H. apply (f_equal (@length char)) in H.
  rewrite firstn_length_le in H by exact H2. simpl in H. lia.
Qed.

(** What each insertion rule matches, and what its template returns:
    the matched text with one star inside. *)
Lemma match_digits_letter prev s gs rest :
  match_here [grp (Plus Digit); grp (One Letter_)] prev s = Some (gs, rest) ->
  exists ds l,
    ds <> [] /\ forallb is_decimal ds = true /\ in_cls Letter_ l = true
    /\ s = ds ++ l :: rest /\ gs = [ds; [l]].
Proof.
  intros H. unfold grp in H.
  destruct (match_plus _ _ _ _ _ _ _ H) as (j & gs' & H1 & Hj & Hc & ->).
  destruct (match_one _ _ _ _ _ _ _ Hc) as (l & x & gs'' & Hs & Hl & He & ->).
  destruct (match_end _ _ _ _ He) as [-> ->].
  exists (firstn j s), l. repeat split.
  - apply firstn_nonempty; [exact H1 |].
    pose proof (span_le Digit s). lia.
  - apply (span_firstn Digit). exact Hj.
  - exact Hl.
  - rewrite <- Hs. symmetry. apply firstn_skipn.
Qed.

Lemma rule_inserts_star r tpl :
  In (r, tpl) insertion_rules ->
  forall prev s gs rest,
    match_here r prev s = Some (gs, rest) ->
    exists m1 m2,
      s = m1 ++ m2 ++ rest
      /\ expand_template tpl (groups_of s gs rest) = m1 ++ ch "*" :: m2.
Proof.
  intros Hin prev s gs rest H. simpl in Hin.
  destruct Hin as [Hr | [Hr | [Hr | [Hr | [Hr | []]]]]];
    inversion Hr; subst; clear Hr; unfold grp, tok in H.
  - destruct (match_digits_letter _ _ _ _ H) as (ds & l & _ & _ & _ & -> & ->).
    exists ds, [l]. split; [reflexivity |].
    unfold expand_template, groups_of, group. simpl.
    rewrite ?app_nil_r. reflexivity.
  - destruct (match_one _ _ _ _ _ _ _ H) as (l & s' & gs' & -> & _ & Hm & ->).
    destruct (match_plus _ _ _ _ _ _ _ Hm) as (j & gs'' & _ & _ & He & ->).
    destruct (match_end _ _ _ _ He) as [-> ->].
    exists [l], (firstn j s'). split.
    + cbn [app]. rewrite firstn_skipn. reflexivity.
    + unfold expand_template, groups_of, group. simpl.
      rewrite ?app_nil_r. reflexivity.
  - destruct (match_plus _ _ _ _ _ _ _ H) as (j & gs' & _ & _ & Hc & ->).
    destruct (match_one _ _ _ _ _ _ _ Hc) as (p & x & gs'' & Hs & Hp & He & ->).
    destruct (match_end _ _ _ _ He) as [-> ->].
    cbn [in_cls] in Hp. apply N.eqb_eq in Hp. subst p.
    exists (firstn j s), [ch "("]. split.
    + rewrite <- (firstn_skipn j s) at 1. rewrite Hs. reflexivity.
    + unfold expand_template, groups_of, group. simpl.
      rewrite ?app_nil_r. reflexivity.
  - destruct (match_one _ _ _ _ _ _ _ H) as (p & s' & gs' & -> & Hp & Hm & ->).
    destruct (match_one _ _ _ _ _ _ _ Hm) as (l & x & gs'' & -> & _ & He & ->).
    destruct (match_end _ _ _ _ He) as [-> ->].
    cbn [in_cls] in Hp. apply N.eqb_eq in Hp. subst p.
    exists [ch ")"], [l]. split; reflexivity.
  - destruct (match_one _ _ _ _ _ _ _ H) as (p & s' & gs' & -> & Hp & Hm & ->).
    destruct (match_plus _ _ _ _ _ _ _ Hm) as (j & gs'' & _ & _ & He & ->).
    destruct (match_end _ _ _ _ He) as [-> ->].
    cbn [in_cls] in Hp. apply N.eqb_eq in Hp. subst p.
    exists [ch ")"], (firstn j s'). split.
    + cbn [app]. rewrite firstn_skipn. reflexivity.
    + unfold expand_template, groups_of, group. simpl.
      rewrite ?app_nil_r. reflexivity.
Qed.

Lemma starred_refl x : starred x x.
Proof. induction x; constructor; assumption. Qed.

Lemma starred_insert m1 m2 rest out :
  starred rest out -> starred (m1 ++ m2 ++ rest) ((m1 ++ ch "*" :: m2) ++ out).
Proof.
  intros H. induction m1 as [| c m1 IH]; cbn [app].
  - apply starred_star. induction m2 as [| d m2 IH2]; cbn [app];
      [exact H | apply starred_keep; exact IH2].
  - apply starred_keep. exact IH.
Qed.

(** A substitution whose replacement is the matched text with a star
    inside returns its input with stars put in. *)
Lemma sub_go_starred r repl :
  (forall prev s gs rest,
      match_here r prev s = Some (gs, rest) ->
      exists m1 m2,
        s = m1 ++ m2 ++ rest
        /\ repl (groups_of s gs rest) = m1 ++ ch "*" :: m2) ->
  forall n s prev, length s <= n -> starred s (sub_go r repl prev s 0).
Proof.
  intros Hm. induction n as [| n IH]; intros s prev Hn.
  - destruct s; [| simpl in Hn; lia]. cbn [sub_go].
    destruct (match_here r prev []) as [[gs rest] |] eqn:H; [| constructor].
    destruct (Hm _ _ _ _ H) as (m1 & m2 & Hs & ->).
    destruct m1; [| discriminate]. destruct m2; [| discriminate].
    repeat constructor.
  - destruct s as [| c s'].
    + cbn [sub_go].
      destruct (match_here r prev []) as [[gs rest] |] eqn:H; [| constructor].
      destruct (Hm _ _ _ _ H) as (m1 & m2 & Hs & ->).
      destruct m1; [| discriminate]. destruct m2; [| discriminate].
      repeat constructor.
    + cbn [sub_go].
      destruct (match_here r prev (c :: s')) as [[gs rest] |] eqn:H.
      * destruct (Hm _ _ _ _ H) as (m1 & m2 & Hs & ->).
        rewrite app_assoc in Hs.
        destruct (m1 ++ m2) as [| c' t] eqn:Hmm.
        -- cbn [app] in Hs. subst rest. rewrite Nat.sub_diag.
           apply app_eq_nil in Hmm. destruct Hmm as [-> ->].
           cbn [app]. apply starred_star, starred_keep, IH.
           simpl in Hn. lia.
        -- cbn [app] in Hs. inversion Hs; subst c' s'.
           replace (length (c :: t ++ rest) - length rest) with (S (length t))
             by (cbn [length]; rewrite length_app; lia).
           rewrite sub_go_skip.
           replace (c :: t ++ rest) with (m1 ++ m2 ++ rest)
             by (rewrite app_assoc, Hmm; reflexivity).
           apply starred_insert, IH.
           simpl in Hn. rewrite length_app in Hn. lia.
      * apply starred_keep, IH. simpl in Hn. lia.
Qed.

Lemma rule_starred r tpl s :
  In (r, tpl) insertion_rules -> starred s (sub r tpl s).
Proof.
  intros Hin. unfold sub, sub_fn.
  apply (sub_go_starred r (expand_template tpl) (rule_inserts_star r tpl Hin)
           (length s)).
  apply le_n.
Qed.

Lemma ndl_weaken b s :
  no_digit_letter b s = true -> no_digit_letter false s = true.
Proof.
  destruct s as [| c s]; [reflexivity |]. cbn [no_digit_letter].
  intros H. apply andb_true_iff in H. destruct H as [_ H]. exact H.
Qed.

Lemma ndl_starred x y :
  starred x y ->
  forall b, no_digit_letter b x = true -> no_digit_letter b y = true.
Proof.
  induction 1 as [| c x y _ IH | x y _ IH]; intros b H.
  - reflexivity.
  - cbn [no_digit_letter] in *. apply andb_true_iff in H.
    destruct H as [Hc Hx]. rewrite Hc. apply IH. exact Hx.
  - cbn [no_digit_letter].
    change (in_cls Letter_ (ch "*")) with false.
    change (is_decimal (ch "*")) with false.
    rewrite andb_false_r. apply (ndl_weaken b). apply IH. exact H.
Qed.

Ltac ranges :=
  unfold in_cls, is_decimal, is_ascii_letter, between in *;
  repeat match goal with
         | H : _ || _ = true |- _ =>
           apply orb_true_iff in H; destruct H as [H | H]
         | H : _ && _ = true |- _ =>
           let H' := fresh H in
           apply andb_true_iff in H; destruct H as [H H']
         | H : (_ <=? _)%N = true |- _ => apply N.leb_le in H
         | H : (_ =? _)%N = true |- _ => apply N.eqb_eq in H
         end.

Lemma digit_not_letter c : is_decimal c = true -> in_cls Letter_ c = false.
Proof.
  intros Hd. destruct (in_cls Letter_ c) eqn:Hl; [exfalso | reflexivity].
  ranges; lia.
Qed.

Lemma letter_not_digit c : in_cls Letter_ c = true -> is_decimal c = false.
Proof.
  intros Hl. destruct (is_decimal c) eqn:Hd; [| reflexivity].
  rewrite (digit_not_letter c Hd) in Hl. discriminate.
Qed.

Lemma ndl_digits ds :
  ds <> [] -> forallb is_decimal ds = true ->
  forall b x, no_digit_letter b (ds ++ x) = no_digit_letter true x.
Proof.
  induction ds as [| d ds IH]; intros Hne Hds b x; [congruence |].
  simpl in Hds. apply andb_true_iff in Hds. destruct Hds as [Hd Hds].
  cbn [app no_digit_letter].
  rewrite (digit_not_letter d Hd), andb_false_r, Hd. cbn [negb andb].
  destruct ds as [| d' ds]; [reflexivity |].
  apply IH; [discriminate | exact Hds].
Qed.

(** A digit at which the first rule does not match is not followed by a
    character of [[a-zA-Z_]]. *)
Lemma digit_without_match prev c s' :
  is_decimal c = true ->
  match_here [grp (Plus Digit); grp (One Letter_)] prev (c :: s') = None ->
  match s' with
  | l :: _ => in_cls Letter_ l = false
  | [] => True
  end.
Proof.
  intros Hc H. destruct s' as [| l s'']; [exact I |].
  destruct (in_cls Letter_ l) eqn:Hl; [exfalso | reflexivity].
  unfold grp in H. cbn [match_here span] in H.
  change (in_cls Digit c) with (is_decimal c) in H.
  change (in_cls Digit l) with (is_decimal l) in H.
  rewrite Hc, (letter_not_digit l Hl) in H.
  cbn [Nat.ltb Nat.leb backtrack firstn skipn match_here] in H.
  rewrite Hl in H. cbn [with_cap] in H. discriminate.
Qed.

(** After the first rule no digit is directly followed by a character
    of [[a-zA-Z_]]. *)
Lemma first_rule_separates s :
  no_digit_letter false (sub [grp (Plus Digit); grp (One Letter_)]
                             [G 1; T "*"; G 2] s) = true.
Proof.
  unfold sub, sub_fn.
  assert (H : forall n s prev b,
             length s <= n ->
             (b = true -> match s with
                          | l :: _ => in_cls Letter_ l = false
                          | [] => True
                          end) ->
             no_digit_letter b
               (sub_go [grp (Plus Digit); grp (One Letter_)]
                       (expand_template [G 1; T "*"; G 2]) prev s 0) = true).
  { clear s. induction n as [| n IH]; intros s prev b Hn Hb.
    - destruct s; [| simpl in Hn; lia]. reflexivity.
    - destruct s as [| c s']; [reflexivity |]. cbn [sub_go].
      destruct (match_here [grp (Plus Digit); grp (One Letter_)] prev (c :: s'))
        as [[gs rest] |] eqn:Hm.
      + destruct (match_digits_letter _ _ _ _ Hm)
          as (ds & l & Hne & Hds & Hl & Hs & ->).
        assert (Hlen : length (c :: s') - length rest = S (length ds))
          by (rewrite Hs, length_app; cbn [length]; lia).
        rewrite Hlen.
        assert (Hs' : s' = tl (ds ++ [l]) ++ rest).
        { destruct ds as [| d ds]; [congruence |].
          cbn [app] in Hs. inversion Hs. cbn [app tl].
          rewrite <- app_assoc. reflexivity. }
        assert (Htl : length (tl (ds ++ [l])) = length ds).
        { destruct ds as [| d ds]; [congruence |].
          cbn [app tl]. rewrite length_app. cbn [length]. lia. }
        rewrite Hs', <- Htl, sub_go_skip.
        unfold expand_template, groups_of, group.
        cbn [flat_map nth]. change (lit "*") with [ch "*"].
        rewrite app_nil_r, <- !app_assoc.
        rewrite (ndl_digits ds Hne Hds). cbn [app no_digit_letter].
        change (in_cls Letter_ (ch "*")) with false.
        change (is_decimal (ch "*")) with false.
        rewrite (letter_not_digit l Hl). cbn [negb andb].
        apply IH; [| discriminate].
        assert (Hl2 : length (c :: s') = length (ds ++ l :: rest))
          by (rewrite Hs; reflexivity).
        rewrite length_app in Hl2. cbn [length] in Hl2, Hn. lia.
      + cbn [no_digit_letter]. apply andb_true_iff. split.
        * destruct b; [| reflexivity]. rewrite (Hb eq_refl). reflexivity.
        * apply IH; [simpl in Hn; lia |].
          intros Hd. apply (digit_without_match prev c s' Hd Hm). }
  apply (H (length s) s None false (le_n _)). discriminate.
Qed.

Lemma insert_multiplication_separates s :
  no_digit_letter false (insert_multiplication s) = true.
Proof.
  unfold insert_multiplication.
  repeat match goal with
         | |- no_digit_letter false (sub ?r ?tpl ?x) = true =>
           first [ apply first_rule_separates
                 | apply (ndl_starred x (sub r tpl x));
                   [apply rule_starred; simpl; auto 10 |] ]
         end.
Qed.

End Insertion.

Section Markers.

Lemma contains_split m s :
  contains m s = true -> exists pre post, s = pre ++ m ++ post.
Proof.
  induction s as [| c s IH]; cbn [contains]; intros H;
    apply orb_true_iff in H; destruct H as [H | H]; try discriminate.
  - exists [], (skipn (length m) []). apply starts_with_app. exact H.
  - exists [], (skipn (length m) (c :: s)). apply starts_with_app. exact H.
  - destruct (IH H) as (pre & post & ->). exists (c :: pre), post. reflexivity.
Qed.

Lemma ndl_app x :
  forall b y,
    no_digit_letter b (x ++ y) = true ->
    no_digit_letter b x = true /\ no_digit_letter false y = true.
Proof.
  induction x as [| c x IH]; intros b y H; cbn [app no_digit_letter] in *.
  - split; [reflexivity | apply (ndl_weaken b); exact H].
  - apply andb_true_iff in H. destruct H as [Hc Hx].
    destruct (IH _ _ Hx) as [H1 H2]. rewrite Hc, H1. split; [reflexivity | exact H2].
Qed.

(** A text in which no digit is directly followed by a letter or an
    underscore has no part in which one is. *)
Lemma ndl_substring m s :
  contains m s = true ->
  no_digit_letter false s = true -> no_digit_letter false m = true.
Proof.
  intros Hc Hs. destruct (contains_split m s Hc) as (pre & post & ->).
  destruct (ndl_app pre _ _ Hs) as [_ H]. destruct (ndl_app m _ _ H) as [H' _].
  exact H'.
Qed.

(** In each marker the counter is directly followed by an underscore. *)
Lemma marker_joined n :
  n < length protected_words -> no_digit_letter false (temp_marker n) = false.
Proof.
  intros Hn.
  assert (H : forallb (fun n => negb (no_digit_letter false (temp_marker n)))
                (seq 0 (length protected_words)) = true)
    by (vm_compute; reflexivity).
  rewrite forallb_forall in H. apply negb_true_iff, H, in_seq. lia.
Qed.

Lemma marker_nonempty n : temp_marker n <> [].
Proof. unfold temp_marker. discriminate. Qed.

Lemma replace_absent_text old new s :
  old <> [] -> contains old s = false -> replace old new s = s.
Proof.
  intros Hne. unfold replace. destruct old as [| o old]; [congruence |].
  induction s as [| c s IH]; intros H; [reflexivity |].
  cbn [contains] in H. apply orb_false_iff in H. destruct H as [H1 H2].
  cbn [replace_go]. rewrite H1. f_equal. apply IH. exact H2.
Qed.

Lemma restore_absent reps s :
  (forall pr, In pr reps -> fst pr <> [] /\ contains (fst pr) s = false) ->
  restore reps s = s.
Proof.
  unfold restore.
  induction reps as [| pr reps IH]; intros H; cbn [fold_left]; [reflexivity |].
  destruct (H pr (or_introl eq_refl)) as [Hne Hc].
  rewrite (replace_absent_text _ _ _ Hne Hc).
  apply IH. intros p Hp. apply H. right. exact Hp.
Qed.

(** The keys of [temp_replacements] are markers, numbered below the
    count of protected words. *)
Lemma protect_markers words :
  forall e reps k,
    (forall pr, In pr reps -> exists n, n < k /\ fst pr = temp_marker n) ->
    forall pr,
      In pr (snd (protect words e reps k)) ->
      exists n, n < k + length words /\ fst pr = temp_marker n.
Proof.
  induction words as [| w words IH]; intros e reps k Hreps pr Hpr; cbn [protect] in Hpr.
  - destruct (Hreps pr Hpr) as (n & Hn & Hf). exists n. split; [simpl; lia | exact Hf].
  - destruct (contains (lit w) e).
    + assert (Hreps' : forall p,
                 In p (reps ++ [(temp_marker k, lit w)]) ->
                 exists n, n < S k /\ fst p = temp_marker n).
      { intros p Hp. apply in_app_or in Hp. destruct Hp as [Hp | [<- | []]].
        - destruct (Hreps p Hp) as (n & Hn & Hf). exists n. split; [lia | exact Hf].
        - exists k. split; [lia | reflexivity]. }
      destruct (IH _ _ _ Hreps' pr Hpr) as (n & Hn & Hf).
      exists n. split; [simpl; lia | exact Hf].
    + destruct (IH _ _ _ Hreps pr Hpr) as (n & Hn & Hf).
      exists n. split; [simpl; lia | exact Hf].
Qed.

(** Whatever the text, the restoring pass finds no marker in the output
    of the insertion rules and changes nothing. *)
Lemma restore_finds_nothing e :
  restore (snd (protect protected_words e [] 0))
          (insert_multiplication (fst (protect protected_words e [] 0)))
  = insert_multiplication (fst (protect protected_words e [] 0)).
Proof.
  apply restore_absent. intros pr Hpr.
  assert (H0 : forall p : str * str,
             In p [] -> exists n, n < 0 /\ fst p = temp_marker n)
    by (intros p []).
  destruct (protect_markers protected_words e [] 0 H0 pr Hpr) as (n & Hn & Hf).
  destruct pr as [m w]. cbn [fst] in *. subst m.
  split; [apply marker_nonempty |].
  destruct (contains (temp_marker n) _) eqn:Hc; [| reflexivity].
  pose proof (ndl_substring _ _ Hc (insert_multiplication_separates _)) as H.
  rewrite (marker_joined n Hn) in H. discriminate.
Qed.

End Markers.

(** ** The stages and the driver *)

Section Pipeline.

Context {E : Engine}.

Lemma not_bypassed (e : Expr) :
  class_of e = ClsOther -> is_derivative_or_integral e = false.
Proof. intros H. unfold is_derivative_or_integral. rewrite H. reflexivity. Qed.

Lemma step2_chooses (e : Expr) (steps : dict Expr) :
  is_derivative_or_integral e = false ->
  run_strategies e = Ok steps ->
  step2_simplify (Some e) =
  {| s2_success := true;
     s2_original_expression := Some e;
     s2_simplified_expression := Some (choose steps e);
     s2_simplification_steps := shown_steps steps e;
     s2_errors := [] |}.
Proof. intros H Hok. unfold step2_simplify. rewrite H, Hok. reflexivity. Qed.

(** Stage 2 succeeds exactly when the strategies return their dict. *)
Lemma step2_succeeds (e : Expr) :
  is_derivative_or_integral e = false ->
  s2_success (step2_simplify (Some e)) = true ->
  exists steps, run_strategies e = Ok steps.
Proof.
  intros H. unfold step2_simplify. rewrite H.
  destruct (run_strategies e) as [steps | msg]; [eauto | discriminate].
Qed.

(** A priority key that is present among the candidates stands after a
    part of them that lacks it. *)
Lemma dict_get_split (d : dict Expr) (k : string) (v : Expr) :
  dict_get d k = Some v ->
  exists pre post, d = pre ++ (k, v) :: post /\ dict_get pre k = None.
Proof.
  induction d as [| [k0 v0] d IH]; cbn [dict_get]; [discriminate |].
  destruct (String.eqb k0 k) eqn:Hk.
  - intros Hv. injection Hv as ->. apply String.eqb_eq in Hk. subst k0.
    exists [], d. split; reflexivity.
  - intros Hv. destruct (IH Hv) as (pre & post & -> & Hpre).
    exists ((k0, v0) :: pre), post. split; [reflexivity |].
    cbn [dict_get]. rewrite Hk. exact Hpre.
Qed.

(** The failure of a strategy that calls the engine, or of the parse
    inside an identity branch, stays inside its [try]: when the dict is
    returned the stage succeeds with no error, and the key of a strategy
    that raised is no candidate and no displayed step. *)
Lemma engine_failures_are_contained (e : Expr) (steps : dict Expr) :
  is_derivative_or_integral e = false ->
  run_strategies e = Ok steps ->
  s2_success (step2_simplify (Some e)) = true
  /\ s2_errors (step2_simplify (Some e)) = []
  /\ (forall key,
        strategy_raises key e ->
        dict_get (candidates steps e) key = None
        /\ dict_get (s2_simplification_steps (step2_simplify (Some e))) key
           = None).
Proof.
  intros Hb Hok. rewrite (step2_chooses e steps Hb Hok). cbn.
  split; [reflexivity |]. split; [reflexivity |].
  intros key Hr. apply quiet_key.
  - eapply run_strategies_nodup. exact Hok.
  - eapply raising_key_quiet; eassumption.
Qed.

(** With the steps shown, a failed stage 1 ends the request: the result
    is marked failed and carries the record of stage 1 with its errors. *)
Lemma shown_failure_aborts (user_input : str) :
  s1_success (step1_parse_and_validate user_input) = false ->
  process_user_input user_input true =
  {| success := false; original_input := user_input;
     stages := [Stage1 (step1_parse_and_validate user_input)];
     final_answer := None; final_problem_type := None |}.
Proof. intros H. unfold process_user_input. rewrite H. reflexivity. Qed.

(** Once stage 1 has passed, nothing that happens in the later stages
    ends the request: all four records are produced and the result is
    marked successful. *)
Lemma later_stages_never_abort (user_input : str) (show_steps : bool) :
  s1_success (step1_parse_and_validate user_input) = true ->
  success (process_user_input user_input show_steps) = true
  /\ length (stages (process_user_input user_input show_steps)) = 4
  /\ final_answer (process_user_input user_input show_steps) <> None.
Proof.
  intros H. unfold process_user_input. rewrite H.
  rewrite andb_false_r. simpl. repeat split. discriminate.
Qed.

End Pipeline.

(** * The properties of the specification *)

(** C4. An expression whose text is [log(exp(x))], with [x] a symbol: the
    textual identity stores [x] under [log_exp_identity], and stage 2
    returns exactly [x], whatever the other strategies of the engine
    return. *)
Theorem log_exp_identity_takes_priority (E : Engine) (e x : Expr) :
  class_of e = ClsOther ->
  str_of e = lit "log(exp(x))" ->
  sympify (lit "x") = Ok x ->
  class_of x = ClsSymbol ->
  (exists steps,
     run_strategies e = Ok steps
     /\ dict_get steps "log_exp_identity" = Some x)
  /\ s2_success (step2_simplify (Some e)) = true
  /\ s2_simplified_expression (step2_simplify (Some e)) = Some x.
Proof.
  intros Hcls Hstr Hsym Hx.
  assert (Hne : x <> e) by (intros ->; congruence).
  assert (Hrun : run_strategies e
                 = Ok (generic_strategies e (str_of e)
                         [("log_exp_identity"%string, x)])).
  { unfold run_strategies, log_exp_branch, exp_log_branch. rewrite Hstr.
    assert (Hc : contains (lit "log(exp(") (lit "log(exp(x))") = true)
      by (vm_compute; reflexivity).
    assert (Hc' : contains (lit "exp(log(") (lit "log(exp(x))") = false)
      by (vm_compute; reflexivity).
    assert (Hs : search (identity_pattern "log" "exp") (lit "log(exp(x))")
                 = Some [lit "log(exp(x))"; lit "x"])
      by (vm_compute; reflexivity).
    assert (Hn : is_nil (strip (lit "x")) = false) by (vm_compute; reflexivity).
    rewrite Hc, Hc'. unfold identity_entry. rewrite Hs.
    cbv beta iota zeta delta [group nth bind].
    rewrite Hn, Hsym. reflexivity. }
  assert (Hhead : headed "log_exp_identity" x
                    (generic_strategies e (str_of e)
                       [("log_exp_identity"%string, x)])).
  { unfold generic_strategies.
    repeat match goal with
           | |- headed _ _ (if ?c then _ else _) => destruct c
           | |- headed _ _ (log_block _ _ _) =>
             apply headed_log_block; try reflexivity
           | |- headed _ _ (guarded_step _ _ _ _) =>
             apply headed_guarded; try reflexivity
           end; eexists; reflexivity. }
  split.
  - eexists. split; [exact Hrun |].
    destruct Hhead as [rest ->]. reflexivity.
  - rewrite (step2_chooses e _ (not_bypassed e Hcls) Hrun). simpl.
    split; [reflexivity |]. f_equal. apply choose_headed; assumption.
Qed.

Lemma log_exp_identity_takes_priority_witness :
  s2_simplified_expression
    (step2_simplify (E:=Toy.engine) (Some (lit "log(exp(x))")))
  = Some (lit "x").
Proof.
  apply (log_exp_identity_takes_priority Toy.engine (lit "log(exp(x))") (lit "x"));
    reflexivity.
Defined.

(** C5. The selection of stage 2, for any dict of strategy results: the
    candidates are the entries that differ from the input; a candidate
    under [log_exp_identity] wins; without one, a candidate under
    [exp_log_identity] wins; without either, a candidate under
    [log_exp_replace] wins; with none of the three keys among the
    candidates the candidate with the least operation count wins, the
    earliest of them in the order of the dict; with no candidate the
    input is returned.  The count is [count_ops] wherever that returns.
    When the dict is the one that the strategies of stage 2 return, the
    stage returns the chosen expression, and the candidates stand in the
    order in which their strategies are declared. *)
Theorem selection_policy (E : Engine) (steps : dict Expr) (e : Expr) :
  (forall n v, In (n, v) (candidates steps e) <-> In (n, v) steps /\ v <> e)
  /\ (forall v,
        dict_get (candidates steps e) "log_exp_identity" = Some v ->
        choose steps e = v)
  /\ (forall v,
        no_key (candidates steps e) "log_exp_identity" ->
        dict_get (candidates steps e) "exp_log_identity" = Some v ->
        choose steps e = v)
  /\ (forall v,
        no_key (candidates steps e) "log_exp_identity" ->
        no_key (candidates steps e) "exp_log_identity" ->
        dict_get (candidates steps e) "log_exp_replace" = Some v ->
        choose steps e = v)
  /\ (forall pre n v post,
        no_key (candidates steps e) "log_exp_identity" ->
        no_key (candidates steps e) "exp_log_identity" ->
        no_key (candidates steps e) "log_exp_replace" ->
        candidates steps e = pre ++ (n, v) :: post ->
        (forall c, In c pre -> ops_count v < ops_count (snd c)) ->
        (forall c, In c post -> ops_count v <= ops_count (snd c)) ->
        choose steps e = v)
  /\ (candidates steps e = [] -> choose steps e = e)
  /\ (forall c n, count_ops c = Ok n -> ops_count c = n)
  /\ (is_derivative_or_integral e = false ->
      run_strategies e = Ok steps ->
      s2_simplified_expression (step2_simplify (Some e))
      = Some (choose steps e)
      /\ StronglySorted (fun a b => rank a < rank b)
                        (map fst (candidates steps e))).
Proof.
  assert (Hprio : forall before p after v,
            priority_steps = before ++ p :: after ->
            (forall q, In q before -> no_key (candidates steps e) q) ->
            dict_get (candidates steps e) p = Some v ->
            choose steps e = v).
  { intros before p after v Hp Habs Hv.
    destruct (dict_get_split _ _ _ Hv) as (pre & post & Hc & Hpre).
    eapply choose_priority; eassumption. }
  split; [intros n v; apply candidates_in |].
  split; [intros v Hv;
          apply (Hprio [] "log_exp_identity"%string
                       ["exp_log_identity"; "log_exp_replace"]%string v);
          [reflexivity | intros q [] | exact Hv] |].
  split; [intros v H1 Hv;
          apply (Hprio ["log_exp_identity"]%string "exp_log_identity"%string
                       ["log_exp_replace"]%string v);
          [reflexivity | intros q [<- | []]; exact H1 | exact Hv] |].
  split; [intros v H1 H2 Hv;
          apply (Hprio ["log_exp_identity"; "exp_log_identity"]%string
                       "log_exp_replace"%string [] v);
          [reflexivity
          | intros q [<- | [<- | []]]; [exact H1 | exact H2]
          | exact Hv] |].
  split; [intros pre n v post H1 H2 H3 Hc Hpre Hpost;
          eapply choose_fewest; [| eassumption | eassumption | eassumption];
          intros q [<- | [<- | [<- | []]]]; assumption |].
  split; [apply choose_none |].
  split; [intros c n Hc; unfold ops_count; rewrite Hc; reflexivity |].
  intros Hb Hok. split.
  - rewrite (step2_chooses e steps Hb Hok). reflexivity.
  - apply (candidates_ordered e steps Hok).
Qed.

(** On [x+0*1] the concrete engine yields two candidates of equal count,
    [basic] and [expanded]; the first is returned. *)
Lemma selection_policy_witness :
  s2_simplified_expression
    (step2_simplify (E:=Toy.engine) (Some (lit "x+0*1")))
  = Some (lit "x*1").
Proof.
  destruct (selection_policy Toy.engine
              (generic_strategies (E:=Toy.engine) (lit "x+0*1") (lit "x+0*1") [])
              (lit "x+0*1"))
    as (_ & _ & _ & _ & Hmin & _ & _ & Hrun).
  destruct (Hrun eq_refl eq_refl) as [Hchosen _].
  eapply eq_trans; [exact Hchosen |]. apply (f_equal Some).
  apply (Hmin [] "basic"%string (lit "x*1")
              [("expanded"%string, lit "x+0")]).
  - reflexivity.
  - reflexivity.
  - reflexivity.
  - reflexivity.
  - intros c [].
  - intros c [<- | []]. vm_compute. apply le_n.
Defined.

(** C6. An expression of class Derivative or Integral leaves stage 2 as it
    came, with no step recorded and no strategy result involved; the
    driver hands that same expression to stage 3, which evaluates it
    with [doit]. *)
Theorem derivative_integral_bypass (E : Engine) (e : Expr) :
  is_derivative_or_integral e = true ->
  step2_simplify (Some e) =
    {| s2_success := true;
       s2_original_expression := Some e;
       s2_simplified_expression := Some e;
       s2_simplification_steps := [];
       s2_errors := [] |}
  /\ (forall user_input show_steps,
        s1_success (step1_parse_and_validate user_input) = true ->
        s1_parsed_expression (step1_parse_and_validate user_input) = Some e ->
        stages (process_user_input user_input show_steps) =
          [ Stage1 (step1_parse_and_validate user_input);
            Stage2 (step2_simplify (Some e));
            Stage3 (step3_solve (Some e));
            Stage4 (step4_format_output
                      (s3_solutions (step3_solve (Some e)))
                      (s3_problem_type (step3_solve (Some e)))) ])
  /\ (forall v, doit e = Ok v ->
        step3_solve (Some e) =
          {| s3_success := true;
             s3_problem_type :=
               Some (match class_of e with
                     | ClsDerivative => derivative
                     | _ => integral
                     end);
             s3_solutions := Some (PExpr v);
             s3_errors := [] |}).
Proof.
  intros Hb.
  assert (H2 : step2_simplify (Some e) =
    {| s2_success := true;
       s2_original_expression := Some e;
       s2_simplified_expression := Some e;
       s2_simplification_steps := [];
       s2_errors := [] |}).
  { unfold step2_simplify. rewrite Hb. reflexivity. }
  split; [exact H2 |]. split.
  - intros user_input show_steps Hs Hp.
    assert (H2s : s2_simplified_expression (step2_simplify (Some e)) = Some e)
      by (rewrite H2; reflexivity).
    unfold process_user_input. rewrite Hs, Hp, andb_false_r.
    cbn [stages]. rewrite H2s. reflexivity.
  - intros v Hv. unfold step3_solve, classify, is_derivative_or_integral in *.
    destruct (class_of e); try discriminate; rewrite Hv; reflexivity.
Qed.

Lemma derivative_integral_bypass_witness :
  stages (process_user_input (E:=Toy.engine) (lit "diff(x^3 + 2*x, x)") true) =
    [ Stage1 (step1_parse_and_validate (lit "diff(x^3 + 2*x, x)"));
      Stage2 (Build_stage2 (E:=Toy.engine) true
                (Some (lit "Derivative(x**3 + 2*x, x)"))
                (Some (lit "Derivative(x**3 + 2*x, x)")) [] []);
      Stage3 (Build_stage3 (E:=Toy.engine) true (Some derivative)
                (Some (PExpr (lit "doit(Derivative(x**3 + 2*x, x))"))) []);
      Stage4 (step4_format_output (E:=Toy.engine)
                (Some (PExpr (lit "doit(Derivative(x**3 + 2*x, x))")))
                (Some derivative)) ].
Proof.
  destruct (derivative_integral_bypass Toy.engine
              (lit "Derivative(x**3 + 2*x, x)") eq_refl) as (H2 & Hrun & H3).
  eapply eq_trans;
    [exact (Hrun (lit "diff(x^3 + 2*x, x)") true eq_refl eq_refl) |].
  apply (f_equal2 (fun a b => [Stage1 _; Stage2 a; Stage3 b; Stage4 _])).
  - exact H2.
  - exact (H3 (lit "doit(Derivative(x**3 + 2*x, x))") eq_refl).
Defined.

(** C7. The input [(] is rejected by the parser.  With [show_steps] false
    the driver does not stop at the failed stage 1: it runs stages 2 to 4
    on no expression and marks the result successful.  With [show_steps]
    true it stops, marked failed, with the error of stage 1.  The same
    holds for every input that fails stage 1: without the steps shown
    the result is marked successful and carries four stage records. *)
Theorem rejected_input_not_aborted (E : Engine) (msg : str) :
  parse_expr (lit "(") = Raise msg ->
  s1_success (step1_parse_and_validate (lit "(")) = false
  /\ s1_errors (step1_parse_and_validate (lit "(")) = [parse_error (lit "(") msg]
  /\ success (process_user_input (lit "(") true) = false
  /\ stages (process_user_input (lit "(") true)
     = [Stage1 (step1_parse_and_validate (lit "("))]
  /\ success (process_user_input (lit "(") false) = true
  /\ (exists s3 s4,
        stages (process_user_input (lit "(") false)
        = [ Stage1 (step1_parse_and_validate (lit "("));
            Stage2 {| s2_success := false;
                      s2_original_expression := None;
                      s2_simplified_expression := None;
                      s2_simplification_steps := [];
                      s2_errors := [no_free_symbols] |};
            Stage3 s3; Stage4 s4 ])
  /\ (forall user_input,
        s1_success (step1_parse_and_validate user_input) = false ->
        success (process_user_input user_input false) = true
        /\ length (stages (process_user_input user_input false)) = 4).
Proof.
  intros Hp.
  assert (Hd : detect_input_type (lit "(") = mathematical_input)
    by (vm_compute; reflexivity).
  assert (Hb : parse_mathematical_body (lit "(") = parse_expr (lit "("))
    by (vm_compute; reflexivity).
  assert (H1 : step1_parse_and_validate (lit "(") =
    {| s1_success := false;
       s1_input_type := Some mathematical_input;
       s1_original_input := lit "(";
       s1_preprocessed := None;
       s1_parsed_expression := None;
       s1_validation_result := false;
       s1_errors := [parse_error (lit "(") msg] |}).
  { unfold step1_parse_and_validate, parse_mathematical_expression.
    rewrite Hd, Hb, Hp. reflexivity. }
  assert (Hgen : forall user_input,
             s1_success (step1_parse_and_validate user_input) = false ->
             success (process_user_input user_input false) = true
             /\ length (stages (process_user_input user_input false)) = 4)
    by (intros user_input _; split; reflexivity).
  unfold process_user_input. rewrite H1. simpl.
  repeat (split; [reflexivity |]).
  split; [eexists; eexists; reflexivity | exact Hgen].
Qed.

Lemma rejected_input_not_aborted_witness :
  success (process_user_input (E:=Toy.engine) (lit "(") false) = true.
Proof.
  destruct (rejected_input_not_aborted Toy.engine (lit "invalid syntax")
              eq_refl) as (_ & _ & _ & _ & H & _).
  exact H.
Defined.

(** C8. A strategy failure that is not contained.  The branch for
    [exp(log(] calls [re.search], and [re] is bound only by the import
    inside the branch for [log(exp(]: on an expression whose text shows
    [exp(log(] and not [log(exp(] the call raises, no later strategy
    runs, and stage 2 returns without success, with that error as its
    only message and the input as simplified expression, whatever the
    engine would have returned. *)
Theorem unbound_re_aborts_simplifier (E : Engine) (e : Expr) :
  is_derivative_or_integral e = false ->
  contains (lit "exp(log(") (str_of e) = true ->
  contains (lit "log(exp(") (str_of e) = false ->
  run_strategies e = Raise unbound_re
  /\ step2_simplify (Some e) =
     {| s2_success := false;
        s2_original_expression := Some e;
        s2_simplified_expression := Some e;
        s2_simplification_steps := [];
        s2_errors := [unbound_re] |}.
Proof.
  intros Hb Hel Hle.
  assert (Hrun : run_strategies e = Raise unbound_re).
  { rewrite run_strategies_cases, Hel, Hle. reflexivity. }
  split; [exact Hrun |].
  unfold step2_simplify. rewrite Hb, Hrun. reflexivity.
Qed.

(** The text [exp(log(x)**2)]: the concrete engine simplifies nothing
    here, and no strategy of it is reached. *)
Lemma unbound_re_aborts_simplifier_witness :
  s2_success (step2_simplify (E:=Toy.engine) (Some (lit "exp(log(x)**2)")))
  = false
  /\ s2_errors (step2_simplify (E:=Toy.engine) (Some (lit "exp(log(x)**2)")))
     = [unbound_re].
Proof.
  destruct (unbound_re_aborts_simplifier Toy.engine (lit "exp(log(x)**2)")
              eq_refl eq_refl eq_refl) as [_ H2].
  split; [exact (f_equal s2_success H2) | exact (f_equal s2_errors H2)].
Defined.

(** C10. The formatter called with no solution returns failure, the three
    outputs absent and no error recorded. *)
Theorem format_of_no_solution (E : Engine) (problem : option problem_type) :
  step4_format_output None problem =
  {| s4_success := false;
     s4_numerical_output := None;
     s4_latex_output := None;
     s4_pretty_output := None;
     s4_errors := [] |}.
Proof. reflexivity. Qed.

(** C1. On [2sin(x)] the call [sin(x)] is kept (its argument has a free
    symbol), [sin] is replaced by the marker [__TEMP_0__], and the
    insertion rules then rewrite the marker itself, at [0_] and at [_0];
    the restoring replacement finds no marker, and the text handed to the
    parser contains no [sin].  For every input the restoring pass finds
    no marker: the text handed to the parser is the output of the
    insertion rules, with the bars of absolute values rewritten. *)
Theorem marker_is_rewritten_not_restored (E : Engine) (x : Expr) :
  sympify (lit "x") = Ok x ->
  is_number x = false ->
  free_symbols x <> [] ->
  evaluate_calls (lit "2sin(x)") = lit "2sin(x)"
  /\ protect protected_words (lit "2sin(x)") [] 0
     = (lit "2__TEMP_0__(x)", [(lit "__TEMP_0__", lit "sin")])
  /\ insert_multiplication (lit "2__TEMP_0__(x)") = lit "2*__TEMP_*0*__(x)"
  /\ restore [(lit "__TEMP_0__", lit "sin")] (lit "2*__TEMP_*0*__(x)")
     = lit "2*__TEMP_*0*__(x)"
  /\ notation_text (lit "2sin(x)") = lit "2*__TEMP_*0*__(x)"
  /\ contains (lit "sin") (notation_text (lit "2sin(x)")) = false
  /\ parse_mathematical_body (lit "2sin(x)")
     = parse_expr (lit "2*__TEMP_*0*__(x)")
  /\ (forall expression,
        notation_text expression
        = rewrite_abs
            (insert_multiplication
               (fst (protect protected_words
                       (rewrite_power_calls (evaluate_calls expression)) [] 0)))).
Proof.
  intros Hsym Hnum Hfree.
  assert (Hrf : replace_func FSin [lit "sin(x)"; lit "x"] = lit "sin(x)").
  { unfold replace_func. cbv beta iota zeta delta [group nth].
    rewrite Hsym, Hnum. destruct (free_symbols x); [contradiction | reflexivity]. }
  assert (Hev : evaluate_calls (lit "2sin(x)") = lit "2sin(x)").
  { assert (Hno : forall name f,
              In name ["log10"; "log"; "sqrt"; "cos"; "tan"; "factorial"; "exp"]%string ->
              sub_fn (call_pattern name) f (lit "2sin(x)") = lit "2sin(x)").
    { intros name f Hin. simpl in Hin.
      repeat (destruct Hin as [<- | Hin]; [vm_compute; reflexivity |]).
      contradiction. }
    assert (Hsin : forall f,
              sub_fn (call_pattern "sin") f (lit "2sin(x)")
              = lit "2" ++ f [lit "sin(x)"; lit "x"] ++ [])
      by (intros f; vm_compute; reflexivity).
    unfold evaluate_calls, function_patterns. cbn [fold_left fst snd].
    rewrite (Hno "log10"%string), (Hno "log"%string), (Hno "sqrt"%string)
      by (simpl; auto 10).
    rewrite Hsin, Hrf.
    change (lit "2" ++ lit "sin(x)" ++ []) with (lit "2sin(x)").
    rewrite (Hno "cos"%string), (Hno "tan"%string), (Hno "factorial"%string),
      (Hno "exp"%string) by (simpl; auto 10).
    reflexivity. }
  assert (Hnt : notation_text (lit "2sin(x)") = lit "2*__TEMP_*0*__(x)").
  { unfold notation_text. rewrite Hev. vm_compute. reflexivity. }
  split; [exact Hev |].
  split; [vm_compute; reflexivity |].
  split; [vm_compute; reflexivity |].
  split; [vm_compute; reflexivity |].
  split; [exact Hnt |].
  split; [rewrite Hnt; vm_compute; reflexivity |].
  split.
  2: { intros expression. unfold notation_text.
       pose proof (restore_finds_nothing
                     (rewrite_power_calls (evaluate_calls expression))) as Hr.
       destruct (protect protected_words
                   (rewrite_power_calls (evaluate_calls expression)) [] 0)
         as [protected temp_replacements].
       cbn [fst snd] in Hr |- *. rewrite Hr. reflexivity. }
  unfold parse_mathematical_body, handle_mathematical_notation.
  assert (Hpre : preprocess_text (lit "2sin(x)") = lit "2sin(x)")
    by (vm_compute; reflexivity).
  rewrite Hpre.
  assert (Heq : contains (lit "=") (lit "2sin(x)") = false)
    by (vm_compute; reflexivity).
  assert (Hint : contains (lit "integrate(") (lit "2sin(x)") = false)
    by (vm_compute; reflexivity).
  assert (Hdiff : contains (lit "diff(") (lit "2sin(x)") = false)
    by (vm_compute; reflexivity).
  rewrite Heq, Hint, Hdiff. cbn [andb]. rewrite Hnt. reflexivity.
Qed.

Lemma marker_is_rewritten_not_restored_witness :
  notation_text (E:=Toy.engine) (lit "2sin(x)") = lit "2*__TEMP_*0*__(x)".
Proof.
  apply (marker_is_rewritten_not_restored Toy.engine (lit "x")).
  - reflexivity.
  - reflexivity.
  - discriminate.
Defined.

(** C2. The rule for [name^digits(args)] does rewrite [sin^2(x) + cos^2(x)]
    when it is given that text; in the pipeline [preprocess_text] has
    already turned every [^] into [**], the rule finds nothing, and the
    text handed to the parser holds two rewritten markers and neither
    [sin] nor [cos].  The same holds for every input: the rule leaves
    the output of [preprocess_text] as it is. *)
Theorem power_call_rule_never_sees_caret (E : Engine) :
  rewrite_power_calls (lit "sin^2(x) + cos^2(x)") = lit "sin(x)**2 + cos(x)**2"
  /\ preprocess_text (lit "sin^2(x) + cos^2(x)") = lit "sin**2(x) + cos**2(x)"
  /\ rewrite_power_calls (lit "sin**2(x) + cos**2(x)")
     = lit "sin**2(x) + cos**2(x)"
  /\ notation_text (lit "sin**2(x) + cos**2(x)")
     = lit "__TEMP_*0*__**2*(x) + __TEMP_*1*__**2*(x)"
  /\ parse_mathematical_body (lit "sin^2(x) + cos^2(x)")
     = parse_expr (lit "__TEMP_*0*__**2*(x) + __TEMP_*1*__**2*(x)")
  /\ (forall t, rewrite_power_calls (preprocess_text t) = preprocess_text t).
Proof.
  repeat split; try (vm_compute; reflexivity).
  intros t. apply rewrite_power_calls_without_caret, preprocess_has_no_caret.
Qed.

(** C3, as the claim states it: [lnx] does not become [log(x)]. *)
Lemma lnx_is_not_log_x : preprocess_text (lit "lnx") <> lit "log(x)".
Proof. vm_compute. discriminate. Qed.

(** C3, amended.  Aliases are rewritten by [preprocess_text], which runs
    before the notation resolver inserts any multiplication; the alias
    pass rewrites the maximal runs of word characters that are aliases
    and nothing else; [lg(100)] becomes [log10(100)]; [ln] becomes [log]
    where it stands as a whole word, as in [ln(x)] and [ln x]; in [lnx]
    there is no word boundary after [ln] and the text is left as it
    is. *)
Theorem aliases_rewritten_at_word_boundaries (E : Engine) (expression : str) :
  contains (lit "=") expression = false ->
  contains (lit "integrate(") (preprocess_text expression) = false ->
  contains (lit "diff(") (preprocess_text expression) = false ->
  parse_mathematical_body expression
  = parse_expr (notation_text (preprocess_text expression))
  /\ (forall s, replace_aliases s = map_words (swaps alias_table) [] s)
  /\ preprocess_text (lit "lg(100)") = lit "log10(100)"
  /\ preprocess_text (lit "ln(x)") = lit "log(x)"
  /\ preprocess_text (lit "ln x") = lit "log x"
  /\ preprocess_text (lit "lnx") = lit "lnx".
Proof.
  intros Heq Hint Hdiff.
  split; [| split; [| repeat split; vm_compute; reflexivity]].
  2: { intros s. rewrite replace_aliases_table.
       apply sub_aliases_map_words. reflexivity. }
  unfold parse_mathematical_body, handle_mathematical_notation.
  rewrite Heq, Hint, Hdiff. reflexivity.
Qed.

Lemma aliases_rewritten_at_word_boundaries_witness :
  parse_mathematical_body (E:=Toy.engine) (lit "lg(100)")
  = @parse_expr Toy.engine
      (notation_text (E:=Toy.engine) (preprocess_text (lit "lg(100)"))).
Proof.
  apply (aliases_rewritten_at_word_boundaries Toy.engine (lit "lg(100)"));
    reflexivity.
Defined.

(** C9, as the claim states it: the Cyrillic letter U+0432 followed by [h]
    normalizes to [ch], and [ch] normalizes to [cosh]. *)
Lemma normalization_not_idempotent :
  preprocess_text (preprocess_text [0x432%N; ch "h"])
  <> preprocess_text [0x432%N; ch "h"].
Proof. vm_compute. discriminate. Qed.

(** C9, amended.  Normalizing the normalized text changes nothing
    exactly when no word of the normalized text is one of the aliases
    [lg], [ln], [arctg], [arcsin], [arccos], [sh], [ch], [th]. *)
Theorem normalization_idempotent_iff_no_alias (t : str) :
  preprocess_text (preprocess_text t) = preprocess_text t
  <-> Forall (fun w => is_alias w = false) (words [] (preprocess_text t)).
Proof.
  split.
  - intros Hfix. rewrite <- Hfix.
    apply preprocess_no_alias. apply preprocess_homoglyph_free.
  - intros Hwords. apply preprocess_fixed.
    + apply preprocess_tidy.
    + exact Hwords.
    + intros c Hc. apply cyrillic_removed. exact Hc.
    + intros c Hc. apply symbols_removed. exact Hc.
Qed.

(** The Cyrillic letters U+0445 and U+0443 complete no alias: the text
    U+0445 [^2 +] U+0443 normalizes to the fixed point [x**2 + y]. *)
Lemma normalization_idempotent_iff_no_alias_witness :
  preprocess_text
    (preprocess_text ([0x445%N] ++ lit "^2 + " ++ [0x443%N]))
  = preprocess_text ([0x445%N] ++ lit "^2 + " ++ [0x443%N]).
Proof.
  apply (proj2 (normalization_idempotent_iff_no_alias
                  ([0x445%N] ++ lit "^2 + " ++ [0x443%N]))).
  vm_compute. repeat constructor.
Defined.

(** * Further properties of the stages *)

Section StageLemmas.

Context {E : Engine}.

Lemma contains_any_relational (s : str) :
  contains_any [">"; "<"; ">="; "<="]%string s
  = contains (lit "<") s || contains (lit ">") s.
Proof.
  unfold contains_any. cbn [existsb].
  destruct (contains (lit ">") s) eqn:Hgt, (contains (lit "<") s) eqn:Hlt;
    cbn [orb]; try reflexivity.
  rewrite orb_false_r.
  assert (H : forall a b x, contains (a :: b) x = true -> contains [a] x = true).
  { intros a b x. induction x as [| c x IH]; cbn [contains starts_with].
    - rewrite orb_false_r. discriminate.
    - intros H. apply orb_true_iff in H. destruct H as [H | H].
      + apply andb_true_iff in H. destruct H as [H _]. rewrite H. reflexivity.
      + rewrite (IH H). apply orb_true_r. }
  destruct (contains (lit ">=") s) eqn:H1.
  - apply (H 62%N [61%N]) in H1. change [62%N] with (lit ">") in H1. congruence.
  - destruct (contains (lit "<=") s) eqn:H2; [| reflexivity].
    apply (H 60%N [61%N]) in H2. change [60%N] with (lit "<") in H2. congruence.
Qed.

Lemma dict_set_values (P : Expr -> Prop) (d : dict Expr) k v :
  Forall (fun kv => P (snd kv)) d -> P v ->
  Forall (fun kv => P (snd kv)) (dict_set d k v).
Proof.
  intros Hd Hv. induction Hd as [| [k' v'] d Hk' Hd IH]; cbn [dict_set].
  - constructor; [exact Hv | constructor].
  - destruct (String.eqb k' k); constructor; try assumption.
Qed.

Lemma guarded_values (P : Expr -> Prop) key (f : Expr -> result Expr) e d :
  Forall (fun kv => P (snd kv)) d -> P e -> (forall v, f e = Ok v -> P v) ->
  Forall (fun kv => P (snd kv)) (guarded_step key (f e) e d).
Proof.
  intros Hd He Hf. unfold guarded_step.
  destruct (f e) as [v | m] eqn:Hfe; apply dict_set_values; auto.
Qed.

(** On a text that shows neither identity the two branches are skipped
    and the strategies of the engine start from the empty dict. *)
Lemma identity_absent (e : Expr) :
  contains (lit "log(exp(") (str_of e) = false ->
  contains (lit "exp(log(") (str_of e) = false ->
  run_strategies e = Ok (generic_strategies e (str_of e) []).
Proof.
  intros Hle Hel. unfold run_strategies, log_exp_branch, exp_log_branch.
  rewrite Hle, Hel. reflexivity.
Qed.

End StageLemmas.

(** X1. Stage 1 keeps its record consistent: the input and the detected
    input type are always recorded; the stage succeeds exactly when an
    expression was parsed and validated; an error message is recorded
    exactly when parsing raised, so an expression that parses but is
    rejected by the validator fails with an empty list of errors. *)
Theorem stage1_record_is_consistent (E : Engine) (user_input : str) :
  let r := step1_parse_and_validate user_input in
  s1_original_input r = user_input
  /\ s1_input_type r = Some (detect_input_type user_input)
  /\ s1_success r = s1_validation_result r
  /\ (s1_success r = true <->
      exists e, s1_parsed_expression r = Some e /\ validate_expression e = true)
  /\ (forall e, s1_parsed_expression r = Some e ->
        s1_preprocessed r = Some (str_of e)
        /\ s1_errors r = []
        /\ s1_success r = validate_expression e)
  /\ (s1_parsed_expression r = None <-> exists msg, s1_errors r = [msg]).
Proof.
  unfold step1_parse_and_validate.
  destruct (match detect_input_type user_input with
            | latex_input => parse_latex_expression user_input
            | mathematical_input => parse_mathematical_expression user_input
            end) as [e | msg]; cbn.
  - repeat split; try reflexivity.
    + intros H. exists e. split; [reflexivity | exact H].
    + intros (e' & He' & Hv). inversion He'; subst. exact Hv.
    + inversion H; subst. reflexivity.
    + inversion H; subst. reflexivity.
    + discriminate.
    + intros (m & Hm). discriminate.
  - repeat split; try reflexivity; try discriminate.
    + intros (e' & He' & _). discriminate.
    + intros _. exists msg. reflexivity.
Qed.

(** X2. Stage 3 fails only when the classifier's own path raises and the
    fallback [simplify] raises as well.  An expression that the validator
    of stage 1 accepts therefore never fails stage 3; when the fallback
    answers, the stage is reported successful with problem type
    [simplification], the simplified expression as solution and the
    message of the first failure as its only error. *)
Theorem stage3_fails_only_with_simplify (E : Engine) (e : Expr) :
  (s3_success (step3_solve (Some e)) = false <->
     (exists msg, snd (classify e) = Raise msg)
     /\ (exists msg, simplify e = Raise msg))
  /\ (validate_expression e = true -> s3_success (step3_solve (Some e)) = true)
  /\ length (s3_errors (step3_solve (Some e))) <= 1
  /\ (forall msg v,
        snd (classify e) = Raise msg -> simplify e = Ok v ->
        step3_solve (Some e) =
        {| s3_success := true;
           s3_problem_type := Some simplification;
           s3_solutions := Some (PExpr v);
           s3_errors := [msg] |}).
Proof.
  unfold step3_solve, validate_expression, solved.
  destruct (classify e) as [pt [sol | msg]]; cbn [snd].
  - cbn. split; [| split; [| split]].
    + split; [discriminate |]. intros [[m Hm] _]. discriminate.
    + reflexivity.
    + lia.
    + intros msg v Hm. discriminate.
  - destruct (simplify e) as [v | msg'] eqn:Hs; cbn.
    + split; [| split; [| split]].
      * split; [discriminate |]. intros [_ [m Hm]]. discriminate.
      * reflexivity.
      * lia.
      * intros msg0 v0 H0 Hv. inversion H0; inversion Hv; subst. reflexivity.
    + split; [| split; [| split]].
      * split; [| reflexivity]. intros _. split; eexists; reflexivity.
      * destruct (has_zoo e || has_nan e); discriminate.
      * lia.
      * intros msg0 v0 _ Hv. discriminate.
Qed.

(** X3. An equation whose solver raises: when the fallback [simplify]
    answers, stage 3 reports a successful [simplification] whose solution
    is the simplified equation; only when [simplify] raises too does the
    record keep the type [equation], and then it has no solution. *)
Theorem failed_equation_falls_back (E : Engine) (e : Expr) (msg : str) :
  class_of e = ClsEq ->
  solve e (free_symbols e) = Raise msg ->
  step3_solve (Some e) =
  match simplify e with
  | Ok v =>
    {| s3_success := true;
       s3_problem_type := Some simplification;
       s3_solutions := Some (PExpr v);
       s3_errors := [msg] |}
  | Raise _ =>
    {| s3_success := false;
       s3_problem_type := Some equation;
       s3_solutions := None;
       s3_errors := [msg] |}
  end.
Proof.
  intros Hcls Hsolve. unfold step3_solve, classify, solved, solved_list.
  rewrite Hcls, Hsolve. cbn [bind].
  destruct (simplify e); reflexivity.
Qed.

Lemma failed_equation_falls_back_witness :
  step3_solve (E:=Faulty.engine false true false false) (Some (lit "Eq(x+0, 1)"))
  = Build_stage3 (E:=Faulty.engine false true false false) true
      (Some simplification) (Some (PExpr (lit "Eq(x, 1)"))) [Faulty.failure]
  /\ step3_solve (E:=Faulty.engine true true false false) (Some (lit "Eq(x+0, 1)"))
     = Build_stage3 (E:=Faulty.engine true true false false) false
         (Some equation) None [Faulty.failure].
Proof.
  split.
  - apply (failed_equation_falls_back (Faulty.engine false true false false)
             (lit "Eq(x+0, 1)") Faulty.failure); reflexivity.
  - apply (failed_equation_falls_back (Faulty.engine true true false false)
             (lit "Eq(x+0, 1)") Faulty.failure); reflexivity.
Defined.

(** X4. An inequality that does not have exactly one free symbol: the
    text of the expression shows [<] or [>], and stage 3 reports success
    with problem type [inequality] and no solution at all; stage 4 then
    fails without an error message and without any output. *)
Theorem inequality_without_single_variable (E : Engine) (e : Expr) :
  class_of e = ClsSymbol \/ class_of e = ClsOther ->
  contains (lit "<") (str_of e) || contains (lit ">") (str_of e) = true ->
  length (free_symbols e) <> 1 ->
  step3_solve (Some e) =
  {| s3_success := true;
     s3_problem_type := Some inequality;
     s3_solutions := None;
     s3_errors := [] |}
  /\ step4_format_output (s3_solutions (step3_solve (Some e)))
                         (s3_problem_type (step3_solve (Some e))) =
     {| s4_success := false;
        s4_numerical_output := None;
        s4_latex_output := None;
        s4_pretty_output := None;
        s4_errors := [] |}.
Proof.
  intros Hcls Hrel Hlen.
  assert (H3 : step3_solve (Some e) =
               {| s3_success := true;
                  s3_problem_type := Some inequality;
                  s3_solutions := None;
                  s3_errors := [] |}).
  { unfold step3_solve, classify.
    rewrite contains_any_relational, Hrel.
    destruct (free_symbols e) as [| var [| var' free]] eqn:Hfree;
      [| cbn [length] in Hlen; congruence |];
      destruct Hcls as [-> | ->]; reflexivity. }
  split; [exact H3 |]. rewrite H3. reflexivity.
Qed.

Lemma inequality_without_single_variable_witness :
  step3_solve (E:=Toy.engine) (Some (lit "x**2 + y**2 < 1"))
  = Build_stage3 (E:=Toy.engine) true (Some inequality) None [].
Proof.
  apply (inequality_without_single_variable Toy.engine (lit "x**2 + y**2 < 1"));
    [right; reflexivity | reflexivity | vm_compute; discriminate].
Defined.

(** X5. An equation for which the solver returns the empty list: stage 3
    reports the problem type [equation] with the empty list as solution,
    and stage 4 formats it successfully: the numerical output is the text
    of the empty list and the LaTeX output is the empty text. *)
Theorem equation_without_solutions (E : Engine) (e : Expr) :
  class_of e = ClsEq ->
  solve e (free_symbols e) = Ok [] ->
  step3_solve (Some e) =
  {| s3_success := true;
     s3_problem_type := Some equation;
     s3_solutions := Some (PList []);
     s3_errors := [] |}
  /\ step4_format_output (s3_solutions (step3_solve (Some e)))
                         (s3_problem_type (step3_solve (Some e))) =
     {| s4_success := true;
        s4_numerical_output := Some (lit "[]");
        s4_latex_output := Some [];
        s4_pretty_output :=
          Some (match pretty (PList []) with
                | Ok s => s
                | Raise _ => lit "[]"
                end);
        s4_errors := [] |}.
Proof.
  intros Hcls Hsolve.
  assert (H3 : step3_solve (Some e) =
               {| s3_success := true;
                  s3_problem_type := Some equation;
                  s3_solutions := Some (PList []);
                  s3_errors := [] |}).
  { unfold step3_solve, classify, solved_list. rewrite Hcls, Hsolve. reflexivity. }
  split; [exact H3 |]. rewrite H3. reflexivity.
Qed.

Lemma equation_without_solutions_witness :
  step3_solve (E:=Toy.engine) (Some (lit "Eq(x**2, -1)"))
  = Build_stage3 (E:=Toy.engine) true (Some equation) (Some (PList [])) [].
Proof.
  apply (equation_without_solutions Toy.engine (lit "Eq(x**2, -1)")); reflexivity.
Defined.

(** X6. Stage 4 fails on a solution only when the solution is a single
    expression with [evalf] and [evalf] raises; its message is then the
    only error and no output is produced.  A list of solutions is always
    formatted, and a renderer that raises never fails the stage: the
    text of the solution stands in for the LaTeX or the pretty form. *)
Theorem format_fails_only_when_evalf_raises (E : Engine)
    (sol : payload Expr) (problem : option problem_type) :
  (s4_success (step4_format_output (Some sol) problem) = false <->
     exists e msg, sol = PExpr e /\ has_evalf e = true /\ evalf e = Raise msg)
  /\ (forall e msg,
        sol = PExpr e -> has_evalf e = true -> evalf e = Raise msg ->
        step4_format_output (Some sol) problem =
        {| s4_success := false;
           s4_numerical_output := None;
           s4_latex_output := None;
           s4_pretty_output := None;
           s4_errors := [msg] |})
  /\ (s4_success (step4_format_output (Some sol) problem) = true ->
        s4_latex_output (step4_format_output (Some sol) problem)
        = Some (latex_output sol)
        /\ s4_pretty_output (step4_format_output (Some sol) problem)
           = Some (pretty_output sol)
        /\ s4_errors (step4_format_output (Some sol) problem) = [])
  /\ (forall e msg, latex e = Raise msg -> latex_output (PExpr e) = str_of e)
  /\ (forall msg, pretty sol = Raise msg -> pretty_output sol = str_of_payload sol).
Proof.
  split; [| split; [| split; [| split]]].
  - unfold step4_format_output, numerical_output.
    destruct sol as [e | l]; cbn.
    + destruct (has_evalf e) eqn:Hev.
      * destruct (evalf e) as [v | msg] eqn:Hv; cbn.
        -- split; [discriminate |]. intros (e' & m & He' & _ & Hm).
           inversion He'; subst. congruence.
        -- split; [| reflexivity]. intros _. exists e, msg. auto.
      * cbn. split; [discriminate |]. intros (e' & m & He' & Hh & _).
        inversion He'; subst. congruence.
    + split; [discriminate |]. intros (e' & m & He' & _). discriminate.
  - intros e msg -> Hev Hm. unfold step4_format_output, numerical_output.
    rewrite Hev, Hm. reflexivity.
  - unfold step4_format_output.
    destruct (numerical_output sol); cbn; [auto | discriminate].
  - intros e msg H. unfold latex_output, or_str. rewrite H. reflexivity.
  - intros msg H. unfold pretty_output, or_str. rewrite H. reflexivity.
Qed.

(** X7. The flag [show_steps] changes the result of the driver only for
    an input that stage 1 rejects: for every other input the two results
    are equal. *)
Theorem show_steps_matters_only_on_rejection (E : Engine) (user_input : str) :
  s1_success (step1_parse_and_validate user_input) = true ->
  process_user_input user_input true = process_user_input user_input false.
Proof.
  intros H. unfold process_user_input. rewrite H. reflexivity.
Qed.

Lemma show_steps_matters_only_on_rejection_witness :
  process_user_input (E:=Toy.engine) (lit "x^2 + 4*x - 8") true
  = process_user_input (E:=Toy.engine) (lit "x^2 + 4*x - 8") false.
Proof.
  apply (show_steps_matters_only_on_rejection Toy.engine (lit "x^2 + 4*x - 8")).
  vm_compute. reflexivity.
Defined.

(** X8. The shape of the driver's result: the input is recorded and the
    first record is that of stage 1; the result is marked successful
    exactly when all four stage records are present, which is exactly
    when it carries a final answer; it is marked failed exactly when the
    steps are shown and stage 1 failed, and then only the record of
    stage 1 is present.  The final answer is the record of stage 4, made
    from the solutions of stage 3, whose problem type the result
    repeats. *)
Theorem result_shape (E : Engine) (user_input : str) (show_steps : bool) :
  let r := process_user_input user_input show_steps in
  original_input r = user_input
  /\ hd_error (stages r) = Some (Stage1 (step1_parse_and_validate user_input))
  /\ (success r = true <-> length (stages r) = 4)
  /\ (success r = true <-> final_answer r <> None)
  /\ (success r = false <->
      show_steps = true
      /\ s1_success (step1_parse_and_validate user_input) = false)
  /\ (success r = false ->
      stages r = [Stage1 (step1_parse_and_validate user_input)]
      /\ final_problem_type r = None)
  /\ (success r = true ->
      exists s2 s3,
        stages r = [Stage1 (step1_parse_and_validate user_input);
                    Stage2 s2; Stage3 s3;
                    Stage4 (step4_format_output (s3_solutions s3)
                                                (s3_problem_type s3))]
        /\ final_answer r = Some (step4_format_output (s3_solutions s3)
                                                      (s3_problem_type s3))
        /\ final_problem_type r = s3_problem_type s3
        /\ s3 = step3_solve (s2_simplified_expression s2)
        /\ s2 = step2_simplify
                  (s1_parsed_expression (step1_parse_and_validate user_input))).
Proof.
  unfold process_user_input.
  destruct (show_steps && negb (s1_success (step1_parse_and_validate user_input)))
    eqn:Hb; cbn.
  - apply andb_true_iff in Hb. destruct Hb as [-> Hs].
    apply negb_true_iff in Hs.
    split; [reflexivity |]. split; [reflexivity |].
    split; [split; discriminate |].
    split; [split; [discriminate | congruence] |].
    split; [split; [intros _; split; [reflexivity | exact Hs] | reflexivity] |].
    split; [intros _; split; reflexivity | discriminate].
  - split; [reflexivity |]. split; [reflexivity |].
    split; [split; reflexivity |].
    split; [split; [discriminate | reflexivity] |].
    split; [split; [discriminate |] |].
    + intros [-> Hs]. rewrite Hs in Hb. discriminate.
    + split; [discriminate |].
      intros _. eexists _, _. repeat split; reflexivity.
Qed.

(** X9. An expression that no strategy changes: when the text shows
    neither [log(exp(] nor [exp(log(] and every strategy either raises or
    returns the expression itself, stage 2 returns the expression and
    shows no step. *)
Theorem nothing_to_simplify (E : Engine) (e : Expr) :
  is_derivative_or_integral e = false ->
  contains (lit "log(exp(") (str_of e) = false ->
  contains (lit "exp(log(") (str_of e) = false ->
  unchanged_by simplify e ->
  unchanged_by expand e ->
  unchanged_by factor e ->
  unchanged_by cancel e ->
  unchanged_by (fun e => collect e (free_symbols e)) e ->
  unchanged_by trigsimp e ->
  unchanged_by logcombine e ->
  unchanged_by powsimp e ->
  unchanged_by expand_log e ->
  step2_simplify (Some e) =
  {| s2_success := true;
     s2_original_expression := Some e;
     s2_simplified_expression := Some e;
     s2_simplification_steps := [];
     s2_errors := [] |}.
Proof.
  intros Hcls Hle Hel Hsim Hexp Hfac Hcan Hcol Htri Hlog Hpow Hxl.
  assert (Hall : Forall (fun kv => snd kv = e)
                        (generic_strategies e (str_of e) [])).
  { unfold generic_strategies.
    assert (H4 : Forall (fun kv => snd kv = e)
                   (guarded_step "cancelled" (cancel e) e
                      (guarded_step "factored" (factor e) e
                         (guarded_step "expanded" (expand e) e
                            (guarded_step "basic" (simplify e) e []))))).
    { apply (guarded_values (fun v => v = e) "cancelled" cancel);
        [| reflexivity | exact Hcan].
      apply (guarded_values (fun v => v = e) "factored" factor);
        [| reflexivity | exact Hfac].
      apply (guarded_values (fun v => v = e) "expanded" expand);
        [| reflexivity | exact Hexp].
      apply (guarded_values (fun v => v = e) "basic" simplify);
        [| reflexivity | exact Hsim].
      constructor. }
    assert (H5 : Forall (fun kv => snd kv = e)
                   (if is_nil (free_symbols e)
                    then guarded_step "cancelled" (cancel e) e
                           (guarded_step "factored" (factor e) e
                              (guarded_step "expanded" (expand e) e
                                 (guarded_step "basic" (simplify e) e [])))
                    else guarded_step "collected" (collect e (free_symbols e)) e
                           (guarded_step "cancelled" (cancel e) e
                              (guarded_step "factored" (factor e) e
                                 (guarded_step "expanded" (expand e) e
                                    (guarded_step "basic" (simplify e) e [])))))).
    { destruct (is_nil (free_symbols e)); [exact H4 |].
      apply (guarded_values (fun v => v = e) "collected"
               (fun e => collect e (free_symbols e)));
        [exact H4 | reflexivity | exact Hcol]. }
    match goal with
    | |- Forall _ (if _ then log_block e _ ?d else ?d) =>
      assert (H6 : Forall (fun kv => snd kv = e) d)
    end.
    { destruct (contains_any ["sin"; "cos"; "tan"; "sec"; "csc"; "cot"]%string
                             (str_of e)); [| exact H5].
      apply (guarded_values (fun v => v = e) "trigsimp" trigsimp);
        [exact H5 | reflexivity | exact Htri]. }
    match goal with
    | |- Forall _ (if ?c then _ else _) => destruct c; [| exact H6]
    end.
    unfold log_block.
    destruct (logcombine e) as [a |] eqn:Ha; [| exact H6].
    destruct (powsimp e) as [b |] eqn:Hb;
      [| apply (dict_set_values (fun v => v = e));
         [exact H6 | exact (Hlog a Ha)]].
    destruct (expand_log e) as [c |] eqn:Hc;
      [| repeat apply (dict_set_values (fun v => v = e));
         [exact H6 | exact (Hlog a Ha) | exact (Hpow b Hb)]].
    rewrite Hle.
    repeat apply (dict_set_values (fun v => v = e));
      [exact H6 | exact (Hlog a Ha) | exact (Hpow b Hb) | exact (Hxl c Hc)]. }
  assert (Hnone : forall f, filter (fun kv => expr_neqb (snd kv) e && f kv)
                                   (generic_strategies e (str_of e) []) = []).
  { intros f. induction Hall as [| kv d Hkv Hd IH]; [reflexivity |].
    cbn [filter]. rewrite Hkv, expr_neqb_refl. exact IH. }
  unfold step2_simplify. rewrite Hcls, (identity_absent e Hle Hel). f_equal.
  - f_equal. apply choose_none. unfold candidates.
    etransitivity; [| exact (Hnone (fun _ => true))].
    apply filter_ext. intros kv. rewrite andb_true_r. reflexivity.
  - unfold shown_steps. apply Hnone.
Qed.

Lemma nothing_to_simplify_witness :
  step2_simplify (E:=Toy.engine) (Some (lit "x"))
  = Build_stage2 (E:=Toy.engine) true (Some (lit "x")) (Some (lit "x")) [] [].
Proof.
  apply (nothing_to_simplify Toy.engine (lit "x"));
    try reflexivity; intros v H; vm_compute in H |- *; congruence.
Defined.

(** * Further properties of the lexical normalizer *)

Section NormalForm.

(** What [tidy_go] says of a whitespace character inside the text. *)
Lemma tidy_go_inside a :
  forall after c b,
    tidy_go after (a ++ c :: b) = true -> is_space c = true ->
    c = 32%N
    /\ (a = [] -> after = false)
    /\ (a <> [] -> exists a' p, a = a' ++ [p] /\ is_space p = false)
    /\ (exists n b', b = n :: b' /\ is_space n = false).
Proof.
  induction a as [| x a IH]; intros after c b H Hc.
  - cbn [app tidy_go] in H. rewrite Hc in H.
    apply andb_true_iff in H. destruct H as [H Hb].
    apply andb_true_iff in H. destruct H as [H32 Hafter].
    apply N.eqb_eq in H32. apply negb_true_iff in Hafter.
    split; [exact H32 |]. split; [intros _; exact Hafter |].
    split; [congruence |].
    destruct b as [| n b']; [discriminate |].
    exists n, b'. split; [reflexivity |].
    cbn [tidy_go] in Hb. destruct (is_space n); [| reflexivity].
    rewrite andb_false_r in Hb. discriminate.
  - cbn [app tidy_go] in H.
    assert (Hrec : exists after', tidy_go after' (a ++ c :: b) = true
                                  /\ after' = is_space x).
    { destruct (is_space x).
      - apply andb_true_iff in H. destruct H as [_ H]. eauto.
      - eauto. }
    destruct Hrec as (after' & Hgo & Hafter').
    destruct (IH after' c b Hgo Hc) as (H32 & Hnil & Hlast & Hnext).
    split; [exact H32 |]. split; [discriminate |].
    split; [| exact Hnext].
    intros _. destruct a as [| y a].
    + exists [], x. split; [reflexivity |].
      rewrite <- Hafter'. apply Hnil. reflexivity.
    + destruct Hlast as (a' & p & Ha & Hp); [discriminate |].
      exists (x :: a'), p. split; [rewrite Ha; reflexivity | exact Hp].
Qed.

Lemma strip_blank t : forallb is_space t = true -> strip t = [].
Proof.
  intros H. unfold strip, rstrip.
  assert (Hl : lstrip t = []).
  { induction t as [| c t IH]; [reflexivity |].
    cbn [forallb] in H. apply andb_true_iff in H. destruct H as [Hc Ht].
    cbn [lstrip]. rewrite Hc. apply IH. exact Ht. }
  rewrite Hl. reflexivity.
Qed.

Lemma blank_has_no (c : char) t :
  is_space c = false -> forallb is_space t = true -> ~ In c t.
Proof.
  intros Hc Ht Hin. rewrite forallb_forall in Ht.
  rewrite (Ht c Hin) in Hc. discriminate.
Qed.

Lemma contains_needs_head c w t : ~ In c t -> contains (c :: w) t = false.
Proof.
  induction t as [| x t IH]; intros Hin; cbn [contains starts_with].
  - reflexivity.
  - rewrite IH by (intros H; apply Hin; right; exact H).
    destruct (c =? x)%N eqn:Hx; [| reflexivity].
    apply N.eqb_eq in Hx. exfalso. apply Hin. left. symmetry. exact Hx.
Qed.

(** A pattern that starts with a literal character finds nothing in a text
    without that character. *)
Lemma search_needs_first cap c r' s :
  ~ In c s -> forall prev, search_go ((cap, One (Chr c)) :: r') prev s = None.
Proof.
  induction s as [| x s IH]; intros Hin prev; cbn [search_go match_here].
  - reflexivity.
  - cbn [in_cls]. destruct (x =? c)%N eqn:Hx.
    + apply N.eqb_eq in Hx. exfalso. apply Hin. left. exact Hx.
    + apply IH. intros H. apply Hin. right. exact H.
Qed.

End NormalForm.

(** X10. The normalized text holds none of the characters that the
    tables of the normalizer replace: none of the eight Cyrillic letters
    and none of the six special symbols is left. *)
Theorem normalized_text_has_no_table_character (t : str) :
  Forall (fun c => ~ In c (preprocess_text t))
         (map fst cyrillic_replacements ++ map fst symbol_replacements).
Proof.
  apply Forall_forall. intros c Hc. apply in_app_or in Hc.
  destruct Hc as [Hc | Hc].
  - apply cyrillic_removed. exact Hc.
  - apply symbols_removed. exact Hc.
Qed.

(** X11. Whitespace in the normalized text: every whitespace character
    is a single space (U+0020) that stands between two characters that
    are no whitespace; so the text neither starts nor ends with
    whitespace and has no two whitespace characters in a row. *)
Theorem normalized_whitespace (t a b : str) (c : char) :
  preprocess_text t = a ++ c :: b ->
  is_space c = true ->
  c = 32%N
  /\ (exists a' p, a = a' ++ [p] /\ is_space p = false)
  /\ (exists n b', b = n :: b' /\ is_space n = false).
Proof.
  intros Heq Hc.
  pose proof (preprocess_tidy t) as Ht. rewrite Heq in Ht.
  destruct (tidy_cases _ Ht) as [Hnil | Hgo];
    [destruct a; discriminate |].
  destruct (tidy_go_inside a true c b Hgo Hc) as (H32 & Hnil & Hlast & Hnext).
  split; [exact H32 |]. split; [| exact Hnext].
  apply Hlast. intros ->. specialize (Hnil eq_refl). discriminate.
Qed.

Lemma normalized_whitespace_witness :
  32%N = 32%N
  /\ (exists a' p, lit "log" = a' ++ [p] /\ is_space p = false)
  /\ (exists n b', lit "x" = n :: b' /\ is_space n = false).
Proof.
  apply (normalized_whitespace [9; 108; 110; 32; 9; 32; 120; 32]%N
           (lit "log") (lit "x") 32%N); reflexivity.
Defined.

(** X12. A blank input, empty or made of whitespace only, is normalized
    to the empty text, is taken for a mathematical input, and reaches the
    parser as the empty text: what stage 1 makes of it is decided by the
    parser alone. *)
Theorem blank_input_reaches_parser_empty (E : Engine) (t : str) :
  forallb is_space t = true ->
  preprocess_text t = []
  /\ detect_input_type t = mathematical_input
  /\ parse_mathematical_expression t =
     match parse_expr [] with
     | Ok e => Ok e
     | Raise msg => Raise (parse_error t msg)
     end.
Proof.
  intros Ht.
  assert (Hp : preprocess_text t = []).
  { unfold preprocess_text, collapse_spaces. rewrite (strip_blank t Ht).
    reflexivity. }
  split; [exact Hp |]. split.
  - unfold detect_input_type.
    assert (Hb : ~ In (ch "\") t) by (apply blank_has_no; [reflexivity | exact Ht]).
    assert (Hc : ~ In (ch "{") t) by (apply blank_has_no; [reflexivity | exact Ht]).
    assert (Hs : forall c r', ~ In c t ->
                 search (tok (One (Chr c)) :: r') t = None).
    { intros c r' Hin. apply search_needs_first. exact Hin. }
    unfold latex_patterns. cbn [existsb text map lit list_ascii_of_string].
    change (tok (One (Chr (N_of_ascii "\"))) :: ?r) with
      (tok (One (Chr (ch "\"))) :: r).
    rewrite !(Hs (ch "\")) by exact Hb.
    rewrite (Hs (ch "{")) by exact Hc.
    reflexivity.
  - unfold parse_mathematical_expression, parse_mathematical_body.
    rewrite Hp.
    change (contains (lit "=") t) with (contains [ch "="] t).
    rewrite (contains_needs_head (ch "=") [] t)
      by (apply blank_has_no; [reflexivity | exact Ht]).
    cbn [andb]. reflexivity.
Qed.

Lemma blank_input_reaches_parser_empty_witness :
  parse_mathematical_expression (E:=Toy.engine) [32; 9; 32]%N
  = Raise (parse_error [32; 9; 32]%N (lit "invalid syntax")).
Proof.
  apply (blank_input_reaches_parser_empty Toy.engine [32; 9; 32]%N).
  reflexivity.
Defined.

(** * Further properties of the insertion rules *)

Section Separation.

(** A rule that puts a star between a run of class [p] and a run of class
    [q], and that matches wherever a character of [p] is directly
    followed by one of [q]. *)
Variables (r : regex) (repl : list str -> str) (p q : cls).

Hypothesis Hmatch :
  forall prev s gs rest,
    match_here r prev s = Some (gs, rest) ->
    exists m1 m2,
      m1 <> []
      /\ forallb (in_cls p) m1 = true /\ forallb (in_cls q) m2 = true
      /\ s = m1 ++ m2 ++ rest
      /\ repl (groups_of s gs rest) = m1 ++ ch "*" :: m2.

Hypothesis Hmiss :
  forall prev c l s',
    in_cls p c = true -> in_cls q l = true ->
    match_here r prev (c :: l :: s') <> None.

Hypothesis Hdisj : forall c, in_cls q c = true -> in_cls p c = false.
Hypothesis Hstar_p : in_cls p (ch "*") = false.
Hypothesis Hstar_q : in_cls q (ch "*") = false.

Lemma apart_run_q m2 :
  forallb (in_cls q) m2 = true ->
  forall out, apart p q false (m2 ++ out) = apart p q false out.
Proof.
  induction m2 as [| c m2 IH]; intros Hq out; [reflexivity |].
  cbn [forallb] in Hq. apply andb_true_iff in Hq. destruct Hq as [Hc Hq].
  cbn [app apart andb negb]. rewrite (Hdisj c Hc). apply IH. exact Hq.
Qed.

Lemma apart_run_p m1 :
  forallb (in_cls p) m1 = true ->
  forall b out,
    (forall c, in_cls p c = true -> in_cls q c = false) ->
    apart p q b (m1 ++ ch "*" :: out) = apart p q false out.
Proof.
  induction m1 as [| c m1 IH]; intros Hp b out Hpq.
  - cbn [app apart]. rewrite Hstar_q, Hstar_p, andb_false_r. reflexivity.
  - cbn [forallb] in Hp. apply andb_true_iff in Hp. destruct Hp as [Hc Hp].
    cbn [app apart]. rewrite (Hpq c Hc), andb_false_r. cbn [negb andb].
    apply IH; assumption.
Qed.

Lemma classes_disjoint c : in_cls p c = true -> in_cls q c = false.
Proof.
  intros Hp. destruct (in_cls q c) eqn:Hq; [| reflexivity].
  rewrite (Hdisj c Hq) in Hp. discriminate.
Qed.

Lemma sub_go_apart :
  forall n s prev b,
    length s <= n ->
    (b = true -> match s with
                 | l :: _ => in_cls q l = false
                 | [] => True
                 end) ->
    apart p q b (sub_go r repl prev s 0) = true.
Proof.
  induction n as [| n IH]; intros s prev b Hn Hb.
  - destruct s; [| simpl in Hn; lia]. cbn [sub_go].
    destruct (match_here r prev []) as [[gs rest] |] eqn:Hm; [| reflexivity].
    destruct (Hmatch _ _ _ _ Hm) as (m1 & m2 & Hne & _ & _ & Hs & _).
    destruct m1; [congruence | discriminate].
  - destruct s as [| c s'].
    + cbn [sub_go].
      destruct (match_here r prev []) as [[gs rest] |] eqn:Hm; [| reflexivity].
      destruct (Hmatch _ _ _ _ Hm) as (m1 & m2 & Hne & _ & _ & Hs & _).
      destruct m1; [congruence | discriminate].
    + cbn [sub_go].
      destruct (match_here r prev (c :: s')) as [[gs rest] |] eqn:Hm.
      * destruct (Hmatch _ _ _ _ Hm) as (m1 & m2 & Hne & Hp & Hq & Hs & ->).
        destruct m1 as [| c1 m1]; [congruence |].
        cbn [app] in Hs. injection Hs as Hc Hs'. subst c1.
        assert (Hlen : length (c :: s') - length rest = S (length (m1 ++ m2))).
        { rewrite Hs'. cbn [length]. rewrite !length_app. lia. }
        rewrite Hlen, Hs', app_assoc, sub_go_skip.
        change ((c :: m1) ++ ch "*" :: m2) with (c :: (m1 ++ ch "*" :: m2)).
        rewrite <- app_comm_cons, <- app_assoc. cbn [app].
        change (c :: m1 ++ ch "*" :: m2 ++ ?x)
          with ((c :: m1) ++ ch "*" :: m2 ++ x).
        rewrite (apart_run_p (c :: m1) Hp b _ classes_disjoint).
        rewrite (apart_run_q m2 Hq).
        apply IH; [| discriminate].
        simpl in Hn. rewrite Hs', !length_app in Hn. lia.
      * cbn [apart]. apply andb_true_iff. split.
        -- destruct b; [| reflexivity]. rewrite (Hb eq_refl). reflexivity.
        -- apply IH; [simpl in Hn; lia |].
           intros Hc. destruct s' as [| l s'']; [exact I |].
           destruct (in_cls q l) eqn:Hl; [| reflexivity].
           exfalso. exact (Hmiss prev c l s'' Hc Hl Hm).
Qed.

Lemma sub_fn_apart s : apart p q false (sub_fn r repl s) = true.
Proof.
  unfold sub_fn. apply (sub_go_apart (length s)); [apply le_n | discriminate].
Qed.

End Separation.

Section Rules.

Lemma apart_starred p q :
  in_cls p (ch "*") = false -> in_cls q (ch "*") = false ->
  forall x y,
    starred x y -> forall b, apart p q b x = true -> apart p q b y = true.
Proof.
  intros Hp Hq x y H.
  assert (Hw : forall b s, apart p q b s = true -> apart p q false s = true).
  { intros b s. destruct s as [| c s]; [reflexivity |]. cbn [apart andb negb].
    intros Hs. apply andb_true_iff in Hs. apply Hs. }
  induction H as [| c x y _ IH | x y _ IH]; intros b Hx.
  - reflexivity.
  - cbn [apart] in *. apply andb_true_iff in Hx. destruct Hx as [Hc Hx].
    rewrite Hc. apply IH. exact Hx.
  - cbn [apart]. rewrite Hp, Hq, andb_false_r. cbn [negb andb].
    apply (Hw b). apply IH. exact Hx.
Qed.

Lemma starred_trans x y z : starred x y -> starred y z -> starred x z.
Proof.
  intros Hxy Hyz. revert x Hxy.
  induction Hyz as [| c y z _ IH | y z _ IH]; intros x Hxy.
  - exact Hxy.
  - inversion Hxy; subst.
    + apply starred_keep. apply IH. assumption.
    + apply starred_star. apply IH. assumption.
  - apply starred_star. apply IH. exact Hxy.
Qed.

Lemma starred_filter x y :
  starred x y ->
  filter (fun c => negb (c =? ch "*")%N) y
  = filter (fun c => negb (c =? ch "*")%N) x.
Proof.
  induction 1 as [| c x y _ IH | x y _ IH]; cbn [filter].
  - reflexivity.
  - rewrite IH. reflexivity.
  - rewrite N.eqb_refl. exact IH.
Qed.

Lemma starred_length x y : starred x y -> length x <= length y.
Proof. induction 1; cbn [length]; lia. Qed.

Lemma insert_multiplication_starred s : starred s (insert_multiplication s).
Proof.
  unfold insert_multiplication.
  repeat (eapply starred_trans;
          [| apply rule_starred; simpl; auto 10]).
  apply starred_refl.
Qed.

(** What the five rules match. *)
Lemma shape_plus_one cap1 cap2 k1 k2 prev s gs rest :
  match_here [(cap1, Plus k1); (cap2, One k2)] prev s = Some (gs, rest) ->
  exists m1 l,
    m1 <> [] /\ forallb (in_cls k1) m1 = true /\ in_cls k2 l = true
    /\ s = m1 ++ [l] ++ rest
    /\ gs = (if cap1 then [m1] else []) ++ (if cap2 then [[l]] else []).
Proof.
  intros H.
  destruct (match_plus _ _ _ _ _ _ _ H) as (j & gs' & H1 & Hj & Hc & ->).
  destruct (match_one _ _ _ _ _ _ _ Hc) as (l & x & gs'' & Hs & Hl & He & ->).
  destruct (match_end _ _ _ _ He) as [-> ->].
  exists (firstn j s), l. repeat split.
  - apply firstn_nonempty; [exact H1 |]. pose proof (span_le k1 s). lia.
  - apply span_firstn. exact Hj.
  - exact Hl.
  - cbn [app]. rewrite <- Hs. symmetry. apply firstn_skipn.
  - destruct cap1, cap2; reflexivity.
Qed.

Lemma shape_one_plus cap1 cap2 k1 k2 prev s gs rest :
  match_here [(cap1, One k1); (cap2, Plus k2)] prev s = Some (gs, rest) ->
  exists l m2,
    m2 <> [] /\ in_cls k1 l = true /\ forallb (in_cls k2) m2 = true
    /\ s = [l] ++ m2 ++ rest
    /\ gs = (if cap1 then [[l]] else []) ++ (if cap2 then [m2] else []).
Proof.
  intros H.
  destruct (match_one _ _ _ _ _ _ _ H) as (l & s' & gs' & -> & Hl & Hm & ->).
  destruct (match_plus _ _ _ _ _ _ _ Hm) as (j & gs'' & H1 & Hj & He & ->).
  destruct (match_end _ _ _ _ He) as [-> ->].
  exists l, (firstn j s'). repeat split.
  - apply firstn_nonempty; [exact H1 |]. pose proof (span_le k2 s'). lia.
  - exact Hl.
  - apply span_firstn. exact Hj.
  - cbn [app]. rewrite firstn_skipn. reflexivity.
  - destruct cap1, cap2; reflexivity.
Qed.

Lemma shape_one_one cap1 cap2 k1 k2 prev s gs rest :
  match_here [(cap1, One k1); (cap2, One k2)] prev s = Some (gs, rest) ->
  exists l1 l2,
    in_cls k1 l1 = true /\ in_cls k2 l2 = true
    /\ s = [l1] ++ [l2] ++ rest
    /\ gs = (if cap1 then [[l1]] else []) ++ (if cap2 then [[l2]] else []).
Proof.
  intros H.
  destruct (match_one _ _ _ _ _ _ _ H) as (l1 & s' & gs' & -> & Hl1 & Hm & ->).
  destruct (match_one _ _ _ _ _ _ _ Hm) as (l2 & x & gs'' & -> & Hl2 & He & ->).
  destruct (match_end _ _ _ _ He) as [-> ->].
  exists l1, l2. repeat split; try assumption.
  destruct cap1, cap2; reflexivity.
Qed.

(** Where the five rules cannot fail to match. *)
Lemma hit_plus_one cap1 cap2 k1 k2 prev c l s' :
  in_cls k1 c = true -> in_cls k2 l = true -> in_cls k1 l = false ->
  match_here [(cap1, Plus k1); (cap2, One k2)] prev (c :: l :: s') <> None.
Proof.
  intros Hc Hl Hl1. cbn [match_here span]. rewrite Hc, Hl1.
  cbn [Nat.ltb Nat.leb backtrack firstn skipn match_here]. rewrite Hl.
  destruct cap1, cap2; discriminate.
Qed.

Lemma hit_one_plus cap1 cap2 k1 k2 prev c l s' :
  in_cls k1 c = true -> in_cls k2 l = true ->
  match_here [(cap1, One k1); (cap2, Plus k2)] prev (c :: l :: s') <> None.
Proof.
  intros Hc Hl. cbn [match_here span]. rewrite Hc, Hl.
  cbn [Nat.ltb Nat.leb backtrack match_here with_cap].
  destruct cap1, cap2; discriminate.
Qed.

Lemma hit_one_one cap1 cap2 k1 k2 prev c l s' :
  in_cls k1 c = true -> in_cls k2 l = true ->
  match_here [(cap1, One k1); (cap2, One k2)] prev (c :: l :: s') <> None.
Proof.
  intros Hc Hl. cbn [match_here]. rewrite Hc, Hl.
  destruct cap1, cap2; discriminate.
Qed.

Lemma forallb_one (f : char -> bool) c : f c = true -> forallb f [c] = true.
Proof. intros H. cbn [forallb]. rewrite H. reflexivity. Qed.

Lemma paren_not_letter c : in_cls Letter_ c = true -> (c =? ch ")")%N = false.
Proof.
  intros H. destruct (c =? ch ")")%N eqn:Hc; [| reflexivity].
  apply N.eqb_eq in Hc. subst c. discriminate.
Qed.

Lemma paren_not_digit c : in_cls Digit c = true -> (c =? ch ")")%N = false.
Proof.
  intros H. destruct (c =? ch ")")%N eqn:Hc; [| reflexivity].
  apply N.eqb_eq in Hc. subst c. discriminate.
Qed.

Lemma open_not_digit c : (c =? ch "(")%N = true -> in_cls Digit c = false.
Proof. intros H. apply N.eqb_eq in H. subst c. reflexivity. Qed.

(** Each rule leaves none of the pairs that it matches. *)
Lemma rule1_apart s :
  apart Digit Letter_ false
    (sub [grp (Plus Digit); grp (One Letter_)] [G 1; T "*"; G 2] s) = true.
Proof.
  apply sub_fn_apart; try reflexivity.
  - intros prev x gs rest H.
    destruct (shape_plus_one _ _ _ _ _ _ _ _ H) as (m1 & l & Hne & Hm & Hl & -> & ->).
    exists m1, [l].
    split; [exact Hne |]. split; [exact Hm |].
    split; [apply forallb_one; exact Hl |]. split; [reflexivity |].
    unfold expand_template, groups_of, group; simpl;
      rewrite ?app_nil_r; reflexivity.
  - intros prev c l s' Hc Hl. apply hit_plus_one; try assumption.
    apply letter_not_digit. exact Hl.
  - intros c. apply letter_not_digit.
Qed.

Lemma rule2_apart s :
  apart Letter_ Digit false
    (sub [grp (One Letter_); grp (Plus Digit)] [G 1; T "*"; G 2] s) = true.
Proof.
  apply sub_fn_apart; try reflexivity.
  - intros prev x gs rest H.
    destruct (shape_one_plus _ _ _ _ _ _ _ _ H) as (l & m2 & Hne & Hl & Hm & -> & ->).
    exists [l], m2.
    split; [discriminate |]. split; [apply forallb_one; exact Hl |].
    split; [exact Hm |]. split; [reflexivity |].
    unfold expand_template, groups_of, group; simpl;
      rewrite ?app_nil_r; reflexivity.
  - intros prev c l s' Hc Hl. apply hit_one_plus; assumption.
  - intros c. apply digit_not_letter.
Qed.

Lemma rule3_apart s :
  apart Digit (Chr (ch "(")) false
    (sub [grp (Plus Digit); tok (One (Chr (ch "(")))] [G 1; T "*("] s) = true.
Proof.
  apply sub_fn_apart; try reflexivity.
  - intros prev x gs rest H.
    destruct (shape_plus_one _ _ _ _ _ _ _ _ H) as (m1 & l & Hne & Hm & Hl & -> & ->).
    exists m1, [l].
    split; [exact Hne |]. split; [exact Hm |].
    split; [apply forallb_one; exact Hl |]. split; [reflexivity |].
    cbn [in_cls] in Hl. apply N.eqb_eq in Hl. subst l.
    unfold expand_template, groups_of, group; simpl;
      rewrite ?app_nil_r; reflexivity.
  - intros prev c l s' Hc Hl. apply hit_plus_one; try assumption.
    apply open_not_digit. exact Hl.
  - intros c. apply open_not_digit.
Qed.

Lemma rule4_apart s :
  apart (Chr (ch ")")) Letter_ false
    (sub [tok (One (Chr (ch ")"))); grp (One Letter_)] [T ")*"; G 1] s) = true.
Proof.
  apply sub_fn_apart; try reflexivity.
  - intros prev x gs rest H.
    destruct (shape_one_one _ _ _ _ _ _ _ _ H) as (l1 & l2 & Hl1 & Hl2 & -> & ->).
    exists [l1], [l2].
    split; [discriminate |]. split; [apply forallb_one; exact Hl1 |].
    split; [apply forallb_one; exact Hl2 |]. split; [reflexivity |].
    cbn [in_cls] in Hl1. apply N.eqb_eq in Hl1. subst l1.
    unfold expand_template, groups_of, group; simpl;
      rewrite ?app_nil_r; reflexivity.
  - intros prev c l s' Hc Hl. apply hit_one_one; assumption.
  - intros c. apply paren_not_letter.
Qed.

Lemma rule5_apart s :
  apart (Chr (ch ")")) Digit false
    (sub [tok (One (Chr (ch ")"))); grp (Plus Digit)] [T ")*"; G 1] s) = true.
Proof.
  apply sub_fn_apart; try reflexivity.
  - intros prev x gs rest H.
    destruct (shape_one_plus _ _ _ _ _ _ _ _ H) as (l & m2 & Hne & Hl & Hm & -> & ->).
    exists [l], m2.
    split; [discriminate |]. split; [apply forallb_one; exact Hl |].
    split; [exact Hm |]. split; [reflexivity |].
    cbn [in_cls] in Hl. apply N.eqb_eq in Hl. subst l.
    unfold expand_template, groups_of, group; simpl;
      rewrite ?app_nil_r; reflexivity.
  - intros prev c l s' Hc Hl. apply hit_one_plus; assumption.
  - intros c. apply paren_not_digit.
Qed.

(** What [apart] says of two neighbours. *)
Lemma apart_pair p q a :
  forall b x y rest,
    apart p q b (a ++ x :: y :: rest) = true ->
    in_cls p x = true -> in_cls q y = false.
Proof.
  induction a as [| c a IH]; intros b x y rest H Hx.
  - cbn [app apart] in H. rewrite Hx in H.
    apply andb_true_iff in H. destruct H as [_ H].
    apply andb_true_iff in H. destruct H as [H _].
    cbn [andb] in H. apply negb_true_iff in H. exact H.
  - cbn [app apart] in H. apply andb_true_iff in H. destruct H as [_ H].
    apply (IH _ _ _ _ H Hx).
Qed.

End Rules.

(** X13. The insertion rules only put in stars: the result is the input
    with [*] characters added, so without its stars it reads as the
    input without its stars, and it is never shorter. *)
Theorem insertion_only_adds_stars (s : str) :
  starred s (insert_multiplication s)
  /\ filter (fun c => negb (c =? ch "*")%N) (insert_multiplication s)
     = filter (fun c => negb (c =? ch "*")%N) s
  /\ length s <= length (insert_multiplication s).
Proof.
  pose proof (insert_multiplication_starred s) as H.
  split; [exact H |]. split.
  - apply starred_filter. exact H.
  - apply starred_length. exact H.
Qed.

(** X14. After the insertion rules no two neighbours are left that a
    rule separates: a digit is followed neither by a character of
    [[a-zA-Z_]] nor by an opening parenthesis, a character of
    [[a-zA-Z_]] is not followed by a digit, and a closing parenthesis
    is followed neither by a character of [[a-zA-Z_]] nor by a digit. *)
Theorem insertion_separates_every_pair (s a b : str) (x y : char) :
  insert_multiplication s = a ++ x :: y :: b ->
  (is_decimal x = true -> in_cls Letter_ y = false /\ y <> ch "(")
  /\ (in_cls Letter_ x = true -> is_decimal y = false)
  /\ (x = ch ")" -> in_cls Letter_ y = false /\ is_decimal y = false).
Proof.
  intros Heq.
  assert (Hstep : forall p q r tpl t,
             in_cls p (ch "*") = false -> in_cls q (ch "*") = false ->
             In (r, tpl) insertion_rules ->
             apart p q false t = true -> apart p q false (sub r tpl t) = true).
  { intros p q r tpl t Hp Hq Hin.
    apply (apart_starred p q Hp Hq). apply rule_starred. exact Hin. }
  assert (H1 : apart Digit Letter_ false (insert_multiplication s) = true).
  { unfold insert_multiplication.
    do 4 (apply Hstep; [reflexivity | reflexivity | simpl; auto 10 |]).
    apply rule1_apart. }
  assert (H2 : apart Letter_ Digit false (insert_multiplication s) = true).
  { unfold insert_multiplication.
    do 3 (apply Hstep; [reflexivity | reflexivity | simpl; auto 10 |]).
    apply rule2_apart. }
  assert (H3 : apart Digit (Chr (ch "(")) false (insert_multiplication s) = true).
  { unfold insert_multiplication.
    do 2 (apply Hstep; [reflexivity | reflexivity | simpl; auto 10 |]).
    apply rule3_apart. }
  assert (H4 : apart (Chr (ch ")")) Letter_ false (insert_multiplication s) = true).
  { unfold insert_multiplication.
    do 1 (apply Hstep; [reflexivity | reflexivity | simpl; auto 10 |]).
    apply rule4_apart. }
  assert (H5 : apart (Chr (ch ")")) Digit false (insert_multiplication s) = true).
  { unfold insert_multiplication. apply rule5_apart. }
  rewrite Heq in H1, H2, H3, H4, H5.
  split; [| split].
  - intros Hx. split.
    + apply (apart_pair _ _ _ _ _ _ _ H1). exact Hx.
    + pose proof (apart_pair _ _ _ _ _ _ _ H3 Hx) as Hy.
      cbn [in_cls] in Hy. apply N.eqb_neq. exact Hy.
  - intros Hx. apply (apart_pair _ _ _ _ _ _ _ H2). exact Hx.
  - intros ->. split.
    + apply (apart_pair _ _ _ _ _ _ _ H4). reflexivity.
    + apply (apart_pair _ _ _ _ _ _ _ H5). reflexivity.
Qed.

Lemma insertion_separates_every_pair_witness :
  (is_decimal (ch "2") = true ->
   in_cls Letter_ (ch "*") = false /\ ch "*" <> ch "(")
  /\ (in_cls Letter_ (ch "2") = true -> is_decimal (ch "*") = false)
  /\ (ch "2" = ch ")" -> in_cls Letter_ (ch "*") = false
                         /\ is_decimal (ch "*") = false).
Proof.
  apply (insertion_separates_every_pair (lit "2x(3)y") [] (lit "x(3)*y")).
  reflexivity.
Defined.

(** * Further facts about the matcher *)

Section Search.

Lemma search_go_eq r prev s :
  search_go r prev s =
  match match_here r prev s with
  | Some (gs, rest) => Some (groups_of s gs rest)
  | None =>
    match s with
    | [] => None
    | c :: s' => search_go r (Some c) s'
    end
  end.
Proof. destruct s; reflexivity. Qed.

(** A match at some place of the text makes the search succeed. *)
Lemma search_go_found r a :
  forall prev b,
    match_here r (last_of prev a) b <> None ->
    search_go r prev (a ++ b) <> None.
Proof.
  induction a as [| c a IH]; intros prev b H; rewrite search_go_eq.
  - cbn [app]. change (last_of prev []) with prev in H.
    destruct (match_here r prev b) as [[gs rest] |]; [discriminate | congruence].
  - destruct (match_here r prev ((c :: a) ++ b)) as [[gs rest] |];
      [discriminate |].
    cbn [app]. apply IH. rewrite (last_of_cons prev c a) in H. exact H.
Qed.

(** A successful search has a match behind it. *)
Lemma search_go_inv r s :
  forall prev,
    search_go r prev s <> None ->
    exists a b gs rest,
      s = a ++ b /\ match_here r (last_of prev a) b = Some (gs, rest).
Proof.
  induction s as [| c s IH]; intros prev H; rewrite search_go_eq in H.
  - destruct (match_here r prev []) as [[gs rest] |] eqn:Hm; [| congruence].
    exists [], [], gs, rest. split; [reflexivity | exact Hm].
  - destruct (match_here r prev (c :: s)) as [[gs rest] |] eqn:Hm.
    + exists [], (c :: s), gs, rest. split; [reflexivity | exact Hm].
    + destruct (IH (Some c) H) as (a & b & gs & rest & Hs & Hab).
      exists (c :: a), b, gs, rest. split.
      * rewrite Hs. reflexivity.
      * rewrite last_of_cons. exact Hab.
Qed.

(** When the rest of the pattern matches after the longest run, the
    repetition takes the whole run. *)
Lemma backtrack_first cont cap prev s lo n gs rest :
  cont (last_of prev (firstn n s)) (skipn n s) = Some (gs, rest) ->
  backtrack cont cap prev s lo n
  = Some (if cap then firstn n s :: gs else gs, rest).
Proof. intros H. destruct n; cbn [backtrack]; rewrite H; reflexivity. Qed.

(** When the rest of the pattern matches after some admissible part of
    the run, the repetition matches. *)
Lemma backtrack_found cont cap prev s lo :
  forall n j,
    lo <= j -> j <= n ->
    cont (last_of prev (firstn j s)) (skipn j s) <> None ->
    backtrack cont cap prev s lo n <> None.
Proof.
  induction n as [| n IH]; intros j Hlo Hj H; cbn [backtrack].
  - assert (j = 0) by lia. subst j.
    destruct (cont (last_of prev (firstn 0 s)) (skipn 0 s)) as [[gs rest] |];
      [discriminate | congruence].
  - destruct (cont (last_of prev (firstn (S n) s)) (skipn (S n) s))
      as [[gs rest] |] eqn:Hn; [discriminate |].
    cbn [with_cap].
    assert (Hjn : j <= n).
    { destruct (Nat.eq_dec j (S n)) as [-> | Hne]; [congruence | lia]. }
    assert (Hlt : (n <? lo) = false) by (apply Nat.ltb_ge; lia).
    rewrite Hlt. apply (IH j); assumption.
Qed.

Lemma match_star cap k r' prev s gs rest :
  match_here ((cap, Star k) :: r') prev s = Some (gs, rest) ->
  exists j gs',
    j <= span k s
    /\ match_here r' (last_of prev (firstn j s)) (skipn j s) = Some (gs', rest)
    /\ gs = if cap then firstn j s :: gs' else gs'.
Proof.
  cbn [match_here]. intros H.
  destruct (backtrack_some _ _ _ _ _ _ _ _ H) as (j & gs' & Hj & _ & Hc & Hgs).
  exists j, gs'. repeat split; assumption.
Qed.

Lemma span_run k x :
  forallb (in_cls k) x = true -> forall y, length x <= span k (x ++ y).
Proof.
  induction x as [| c x IH]; intros Hx y; cbn [app span length]; [lia |].
  cbn [forallb] in Hx. apply andb_true_iff in Hx. destruct Hx as [Hc Hx].
  rewrite Hc. specialize (IH Hx y). lia.
Qed.

Lemma span_exact k x c y :
  forallb (in_cls k) x = true -> in_cls k c = false ->
  span k (x ++ c :: y) = length x.
Proof.
  induction x as [| d x IH]; intros Hx Hc; cbn [app span length].
  - rewrite Hc. reflexivity.
  - cbn [forallb] in Hx. apply andb_true_iff in Hx. destruct Hx as [Hd Hx].
    rewrite Hd, (IH Hx Hc). reflexivity.
Qed.

Lemma firstn_run (x y : str) : firstn (length x) (x ++ y) = x.
Proof.
  rewrite firstn_app, Nat.sub_diag, firstn_all. cbn [firstn].
  apply app_nil_r.
Qed.

(** A pattern without [\b] does not look at the character before. *)
Lemma backtrack_ext cont cont' cap prev prev' s lo :
  (forall p p' x, cont p x = cont' p' x) ->
  forall n, backtrack cont cap prev s lo n = backtrack cont' cap prev' s lo n.
Proof.
  intros H. induction n as [| n IH]; cbn [backtrack].
  - rewrite (H _ (last_of prev' (firstn 0 s))). reflexivity.
  - rewrite (H _ (last_of prev' (firstn (S n) s))), IH. reflexivity.
Qed.

Lemma match_here_unbounded r :
  unbounded r = true ->
  forall prev prev' s, match_here r prev s = match_here r prev' s.
Proof.
  induction r as [| [cap a] r IH]; intros Hr prev prev' s; [reflexivity |].
  cbn [unbounded forallb snd] in Hr.
  apply andb_true_iff in Hr. destruct Hr as [Ha Hr]. fold (unbounded r) in Hr.
  destruct a as [k | k | k |]; [| | | discriminate]; cbn [match_here].
  - reflexivity.
  - destruct (span k s <? 1); [reflexivity |].
    apply backtrack_ext. intros p p' x. apply IH. exact Hr.
  - apply backtrack_ext. intros p p' x. apply IH. exact Hr.
Qed.

Lemma sub_go_unbounded r repl :
  unbounded r = true ->
  forall s prev prev' k, sub_go r repl prev s k = sub_go r repl prev' s k.
Proof.
  intros Hr. induction s as [| c s IH]; intros prev prev' k.
  - destruct k; [| reflexivity]. cbn [sub_go].
    rewrite (match_here_unbounded r Hr prev prev'). reflexivity.
  - destruct k as [| k]; [| reflexivity]. cbn [sub_go].
    rewrite (match_here_unbounded r Hr prev prev'). reflexivity.
Qed.

(** The substitution up to and including its first match, when the
    pattern starts with a literal character that the text before the
    match does not hold. *)
Lemma sub_go_first_match cap c r' repl pre m rest gs :
  ~ In c pre -> m <> [] ->
  unbounded ((cap, One (Chr c)) :: r') = true ->
  match_here ((cap, One (Chr c)) :: r') None (m ++ rest) = Some (gs, rest) ->
  forall prev,
    sub_go ((cap, One (Chr c)) :: r') repl prev (pre ++ m ++ rest) 0
    = pre ++ repl (groups_of (m ++ rest) gs rest)
          ++ sub_go ((cap, One (Chr c)) :: r') repl None rest 0.
Proof.
  intros Hpre Hm Hr Hmatch.
  induction pre as [| x pre IH]; intros prev.
  - cbn [app].
    destruct m as [| c1 m]; [congruence |]. cbn [app].
    cbn [sub_go]. rewrite (match_here_unbounded _ Hr prev None).
    cbn [app] in Hmatch. rewrite Hmatch.
    assert (Hlen : length (c1 :: m ++ rest) - length rest = S (length m)).
    { cbn [length]. rewrite length_app. lia. }
    rewrite Hlen, sub_go_skip. f_equal.
    apply sub_go_unbounded. exact Hr.
  - cbn [app sub_go].
    assert (Hno : match_here ((cap, One (Chr c)) :: r') prev
                    (x :: pre ++ m ++ rest) = None).
    { cbn [match_here in_cls]. destruct (x =? c)%N eqn:Hx; [| reflexivity].
      apply N.eqb_eq in Hx. exfalso. apply Hpre. left. exact Hx. }
    rewrite Hno. f_equal. apply IH. intros H. apply Hpre. right. exact H.
Qed.

Lemma sub_first_match cap c r' repl pre m rest gs :
  ~ In c pre -> m <> [] ->
  unbounded ((cap, One (Chr c)) :: r') = true ->
  match_here ((cap, One (Chr c)) :: r') None (m ++ rest) = Some (gs, rest) ->
  sub_fn ((cap, One (Chr c)) :: r') repl (pre ++ m ++ rest)
  = pre ++ repl (groups_of (m ++ rest) gs rest)
        ++ sub_fn ((cap, One (Chr c)) :: r') repl rest.
Proof.
  intros Hpre Hm Hr Hmatch. unfold sub_fn.
  apply sub_go_first_match; assumption.
Qed.

Lemma sub_fn_absent cap c r' repl s :
  ~ In c s -> sub_fn ((cap, One (Chr c)) :: r') repl s = s.
Proof.
  intros H. unfold sub_fn. apply sub_go_no_match.
  apply search_needs_first. exact H.
Qed.

End Search.

(** * Further properties of input detection and parsing *)

Section Detection.

Lemma is_some_search r s : is_some (search r s) = true <-> search r s <> None.
Proof.
  destruct (search r s); cbn [is_some]; split; congruence.
Qed.

Lemma match_one_head cap k r' prev c s gs rest :
  in_cls k c = true ->
  match_here r' (Some c) s = Some (gs, rest) ->
  match_here ((cap, One k) :: r') prev (c :: s)
  = Some (if cap then [c] :: gs else gs, rest).
Proof.
  intros Hc H. cbn [match_here]. rewrite Hc, H. reflexivity.
Qed.

(** A repetition followed by a character outside its class takes the
    whole run when the rest of the pattern matches there. *)
Lemma match_plus_run cap k r' prev x c y gs rest :
  x <> [] -> forallb (in_cls k) x = true -> in_cls k c = false ->
  match_here r' (last_of prev x) (c :: y) = Some (gs, rest) ->
  match_here ((cap, Plus k) :: r') prev (x ++ c :: y)
  = Some (if cap then x :: gs else gs, rest).
Proof.
  intros Hne Hx Hc H. cbn [match_here].
  rewrite (span_exact k x c y Hx Hc).
  destruct x as [| x0 x]; [congruence |].
  cbn [length Nat.ltb Nat.leb].
  change (S (length x)) with (length (x0 :: x)).
  rewrite (backtrack_first (match_here r') cap prev ((x0 :: x) ++ c :: y) 1
             (length (x0 :: x)) gs rest).
  - rewrite firstn_run. reflexivity.
  - rewrite firstn_run, skipn_self. exact H.
Qed.

Lemma span_head k s :
  1 <= span k s -> exists c s', s = c :: s' /\ in_cls k c = true.
Proof.
  destruct s as [| c s']; cbn [span]; [lia |].
  destruct (in_cls k c) eqn:Hc; [| lia].
  intros _. exists c, s'. split; [reflexivity | exact Hc].
Qed.

Lemma found_command s :
  has_command s ->
  search [tok (One (Chr (ch "\"))); tok (Plus Letter)] s <> None.
Proof.
  intros (a & c & b & -> & Hc). unfold search.
  apply search_go_found. apply hit_one_plus; [reflexivity | exact Hc].
Qed.

Lemma command_found c2 r' s :
  is_ascii_letter c2 = true ->
  search (tok (One (Chr (ch "\"))) :: tok (One (Chr c2)) :: r') s <> None ->
  has_command s.
Proof.
  intros Hc2 H. unfold search in H.
  destruct (search_go_inv _ _ _ H) as (a & b & gs & rest & -> & Hm).
  unfold tok in Hm.
  destruct (match_one _ _ _ _ _ _ _ Hm) as (c & s' & gs' & -> & Hc & Hm' & _).
  destruct (match_one _ _ _ _ _ _ _ Hm') as (l & s'' & gs'' & -> & Hl & _ & _).
  cbn [in_cls] in Hc, Hl. apply N.eqb_eq in Hc, Hl. subst c l.
  exists a, c2, s''. split; [reflexivity | exact Hc2].
Qed.

Lemma command_found_run s :
  search [tok (One (Chr (ch "\"))); tok (Plus Letter)] s <> None ->
  has_command s.
Proof.
  intros H. unfold search in H.
  destruct (search_go_inv _ _ _ H) as (a & b & gs & rest & -> & Hm).
  unfold tok in Hm.
  destruct (match_one _ _ _ _ _ _ _ Hm) as (c & s' & gs' & -> & Hc & Hm' & _).
  destruct (match_plus _ _ _ _ _ _ _ Hm') as (j & gs'' & H1 & Hj & _ & _).
  destruct (span_head Letter s') as (l & s'' & -> & Hl); [lia |].
  cbn [in_cls] in Hc. apply N.eqb_eq in Hc. subst c.
  exists a, l, s''. split; [reflexivity | exact Hl].
Qed.

Lemma dot_run m : forallb (in_cls Dot) m = true <-> ~ In 10%N m.
Proof.
  induction m as [| c m IH]; cbn [forallb In in_cls].
  - split; [intros _ [] | reflexivity].
  - rewrite andb_true_iff, IH, negb_true_iff, N.eqb_neq. intuition congruence.
Qed.

Lemma found_braces s :
  has_braces s ->
  search [tok (One (Chr (ch "{"))); tok (Star Dot); tok (One (Chr (ch "}")))] s
  <> None.
Proof.
  intros (a & m & b & -> & Hm). unfold search.
  apply search_go_found. unfold tok. cbn [match_here in_cls].
  rewrite N.eqb_refl.
  assert (H : backtrack (match_here [(false, One (Chr (ch "}")))]) false
                (Some (ch "{")) (m ++ ch "}" :: b) 0
                (span Dot (m ++ ch "}" :: b)) <> None).
  { apply (backtrack_found _ _ _ _ _ _ (length m)).
    - lia.
    - apply span_run. apply dot_run. exact Hm.
    - rewrite skipn_self. cbn [match_here in_cls]. rewrite N.eqb_refl.
      discriminate. }
  destruct (backtrack _ _ _ _ _ _) as [[gs rest] |]; [discriminate | congruence].
Qed.

Lemma braces_found s :
  search [tok (One (Chr (ch "{"))); tok (Star Dot); tok (One (Chr (ch "}")))] s
  <> None ->
  has_braces s.
Proof.
  intros H. unfold search in H.
  destruct (search_go_inv _ _ _ H) as (a & b & gs & rest & -> & Hm).
  unfold tok in Hm.
  destruct (match_one _ _ _ _ _ _ _ Hm) as (c & s' & gs' & -> & Hc & Hm' & _).
  destruct (match_star _ _ _ _ _ _ _ Hm') as (j & gs'' & Hj & Hm'' & _).
  destruct (match_one _ _ _ _ _ _ _ Hm'') as (d & t & gs3 & Ht & Hd & _ & _).
  cbn [in_cls] in Hc, Hd. apply N.eqb_eq in Hc, Hd. subst c d.
  exists a, (firstn j s'), t. split.
  - rewrite <- Ht, firstn_skipn. reflexivity.
  - apply dot_run. apply span_firstn. exact Hj.
Qed.

End Detection.

(** X15. What makes an input a LaTeX input: a backslash directly followed
    by an ASCII letter, or an opening brace with a closing brace after it
    on the same line; every other input is mathematical.  The three
    patterns for [\frac], [\sqrt] and [\int] never decide.  In
    particular an input with neither a backslash nor an opening brace is
    mathematical. *)
Theorem latex_input_detected (s : str) :
  (detect_input_type s = latex_input <-> has_command s \/ has_braces s)
  /\ (~ In (ch "\") s -> ~ In (ch "{") s ->
      detect_input_type s = mathematical_input).
Proof.
  assert (Hiff : detect_input_type s = latex_input
                 <-> has_command s \/ has_braces s).
  { unfold detect_input_type, latex_patterns. cbn [existsb]. split.
    - intros H.
      destruct (is_some (search [tok (One (Chr (ch "\"))); tok (Plus Letter)] s))
        eqn:H1.
      { left. apply command_found_run. apply is_some_search. exact H1. }
      destruct (is_some (search [tok (One (Chr (ch "{"))); tok (Star Dot);
                                 tok (One (Chr (ch "}")))] s)) eqn:H2.
      { right. apply braces_found. apply is_some_search. exact H2. }
      destruct (is_some (search (text "\frac") s)) eqn:H3.
      { left. apply is_some_search in H3.
        apply (command_found (ch "f") _ s eq_refl H3). }
      destruct (is_some (search (text "\sqrt") s)) eqn:H4.
      { left. apply is_some_search in H4.
        apply (command_found (ch "s") _ s eq_refl H4). }
      destruct (is_some (search (text "\int") s)) eqn:H5.
      { left. apply is_some_search in H5.
        apply (command_found (ch "i") _ s eq_refl H5). }
      discriminate.
    - intros [H | H].
      + apply found_command, is_some_search in H. rewrite H. reflexivity.
      + apply found_braces, is_some_search in H. rewrite H.
        rewrite orb_true_r. reflexivity. }
  split; [exact Hiff |].
  intros Hb Hc.
  destruct (detect_input_type s) eqn:Hd; [| reflexivity].
  exfalso.
  destruct (proj1 Hiff eq_refl) as [(a & c & b & -> & _) | (a & m & b & -> & _)].
  - apply Hb. apply in_or_app. right. left. reflexivity.
  - apply Hc. apply in_or_app. right. left. reflexivity.
Qed.

Section Fallback.

Context {E : Engine}.

Lemma latex_command_needs_brace s :
  ~ In (ch "{") s -> forall prev, search_go latex_command prev s = None.
Proof.
  intros Hs prev.
  destruct (search_go latex_command prev s) eqn:H; [exfalso | reflexivity].
  assert (H' : search_go latex_command prev s <> None) by congruence.
  destruct (search_go_inv _ _ _ H') as (a & b & gs & rest & -> & Hm).
  unfold latex_command, tok, grp in Hm.
  destruct (match_one _ _ _ _ _ _ _ Hm) as (c & s' & gs' & -> & _ & Hm1 & _).
  destruct (match_plus _ _ _ _ _ _ _ Hm1) as (j & gs1 & _ & _ & Hm2 & _).
  destruct (match_one _ _ _ _ _ _ _ Hm2) as (d & t & gs2 & Ht & Hd & _ & _).
  cbn [in_cls] in Hd. apply N.eqb_eq in Hd. subst d.
  apply Hs. apply in_or_app. right. right.
  rewrite <- (firstn_skipn j s'), Ht. apply in_or_app. right. left. reflexivity.
Qed.

Lemma strip_braces_absent s :
  ~ In (ch "{") s -> ~ In (ch "}") s ->
  replace (lit "}") [] (replace (lit "{") [] s) = s.
Proof.
  intros H1 H2. change (lit "{") with [ch "{"]. change (lit "}") with [ch "}"].
  rewrite (replace_absent (ch "{") [] s H1). apply replace_absent. exact H2.
Qed.

Lemma replace_app c r x y :
  replace [c] r (x ++ y) = replace [c] r x ++ replace [c] r y.
Proof. rewrite !replace_single. apply flat_map_app. Qed.

End Fallback.

(** X16. The fallback of the LaTeX parser on a text without braces: when
    [parse_latex] raises, the text is handed to the parser of
    mathematical expressions as it is, backslash commands included. *)
Theorem latex_fallback_keeps_text_without_braces (E : Engine) (latex_expr : str) :
  ~ In (ch "{") latex_expr -> ~ In (ch "}") latex_expr ->
  parse_latex_expression latex_expr =
  match parse_latex latex_expr with
  | Ok e => Ok e
  | Raise _ => parse_mathematical_expression latex_expr
  end.
Proof.
  intros H1 H2. unfold parse_latex_expression.
  destruct (parse_latex latex_expr); [reflexivity |].
  unfold sub, sub_fn.
  rewrite (sub_go_no_match latex_command _ latex_expr None
             (latex_command_needs_brace latex_expr H1 None)).
  rewrite (strip_braces_absent latex_expr H1 H2). reflexivity.
Qed.

Lemma latex_fallback_keeps_text_without_braces_witness :
  parse_latex_expression (E:=Toy.engine) (lit "\pi + 1")
  = parse_mathematical_expression (E:=Toy.engine) (lit "\pi + 1").
Proof.
  apply (latex_fallback_keeps_text_without_braces Toy.engine (lit "\pi + 1"));
    vm_compute; intuition discriminate.
Defined.

(** X17. The fallback of the LaTeX parser on a command with two braced
    arguments, such as [\frac{a}{b}]: when [parse_latex] raises, the
    command and the braces are dropped and the two arguments are handed
    to the parser of mathematical expressions side by side, as [ab]. *)
Theorem latex_fallback_joins_arguments (E : Engine) (name a b : str) :
  name <> [] -> forallb is_ascii_letter name = true ->
  a <> [] ->
  (forall c, In c [ch "\"; ch "{"; ch "}"] -> ~ In c a /\ ~ In c b) ->
  parse_latex_expression
    (ch "\" :: name ++ ch "{" :: a ++ ch "}" :: ch "{" :: b ++ [ch "}"]) =
  match parse_latex
          (ch "\" :: name ++ ch "{" :: a ++ ch "}" :: ch "{" :: b ++ [ch "}"]) with
  | Ok e => Ok e
  | Raise _ => parse_mathematical_expression (a ++ b)
  end.
Proof.
  intros Hname Hletters Ha Hfree.
  destruct (Hfree (ch "\")) as [Ha1 Hb1]; [simpl; auto |].
  destruct (Hfree (ch "{")) as [Ha2 Hb2]; [simpl; auto |].
  destruct (Hfree (ch "}")) as [Ha3 Hb3]; [simpl; auto |].
  unfold parse_latex_expression.
  destruct (parse_latex _); [reflexivity |].
  pose (rest := ch "{" :: b ++ [ch "}"]).
  pose (m := ch "\" :: name ++ ch "{" :: a ++ [ch "}"]).
  assert (Hsplit : ch "\" :: name ++ ch "{" :: a ++ ch "}" :: ch "{" :: b ++ [ch "}"]
                   = [] ++ m ++ rest).
  { unfold m, rest. cbn [app]. f_equal. rewrite <- !app_assoc. cbn [app].
    f_equal. f_equal. rewrite <- app_assoc. reflexivity. }
  assert (Hmatch : match_here latex_command None (m ++ rest) = Some ([a], rest)).
  { unfold m, latex_command, tok, grp. cbn [app].
    rewrite <- !app_assoc. cbn [app].
    apply (match_one_head false (Chr (ch "\")) _ None (ch "\") _ [a] rest);
      [reflexivity |].
    apply (match_plus_run false Letter _ (Some (ch "\")) name (ch "{") _ [a] rest);
      [exact Hname | exact Hletters | reflexivity |].
    apply (match_one_head false (Chr (ch "{")) _ _ (ch "{") _ [a] rest);
      [reflexivity |].
    rewrite <- app_assoc. cbn [app].
    apply (match_plus_run true (Except (ch "}")) _ (Some (ch "{")) a (ch "}")
             rest [] rest); [exact Ha | | reflexivity |].
    - apply forallb_forall. intros x Hx. cbn [in_cls].
      apply negb_true_iff, N.eqb_neq. intros ->. exact (Ha3 Hx).
    - apply (match_one_head false (Chr (ch "}")) [] _ (ch "}") rest [] rest);
        reflexivity. }
  rewrite Hsplit. unfold sub.
  assert (Hm : m <> []) by discriminate.
  pose proof (sub_first_match false (ch "\")
                [tok (Plus Letter); tok (One (Chr (ch "{")));
                 grp (Plus (Except (ch "}"))); tok (One (Chr (ch "}")))]
                (expand_template [G 1]) [] m rest [a]
                (fun H => H) Hm eq_refl Hmatch) as Hfirst.
  change ((false, One (Chr (ch "\")))
          :: [tok (Plus Letter); tok (One (Chr (ch "{")));
              grp (Plus (Except (ch "}"))); tok (One (Chr (ch "}")))])
    with latex_command in Hfirst.
  rewrite Hfirst. clear Hfirst.
  assert (Hrest : sub_fn latex_command (expand_template [G 1]) rest = rest).
  { apply sub_fn_absent. unfold rest. intros [H | H]; [discriminate |].
    apply in_app_or in H. destruct H as [H | [H | []]];
      [exact (Hb1 H) | discriminate]. }
  rewrite Hrest.
  assert (Hg : expand_template [G 1] (groups_of (m ++ rest) [a] rest) = a).
  { unfold expand_template, groups_of, group. cbn [flat_map nth].
    apply app_nil_r. }
  rewrite Hg. cbn [app]. unfold rest.
  change (lit "{") with [ch "{"]. change (lit "}") with [ch "}"].
  assert (Hclean : replace [ch "}"] []
                     (replace [ch "{"] [] (a ++ ch "{" :: b ++ [ch "}"]))
                   = a ++ b).
  { change (a ++ ch "{" :: b ++ [ch "}"]) with (a ++ [ch "{"] ++ b ++ [ch "}"]).
    rewrite !replace_app.
    rewrite (replace_absent (ch "{") [] a Ha2).
    rewrite (replace_absent (ch "{") [] b Hb2).
    change (replace [ch "{"] [] [ch "{"]) with (@nil char).
    change (replace [ch "{"] [] [ch "}"]) with [ch "}"].
    cbn [app]. rewrite ?replace_app.
    rewrite (replace_absent (ch "}") [] a Ha3).
    rewrite (replace_absent (ch "}") [] b Hb3).
    change (replace [ch "}"] [] [ch "}"]) with (@nil char).
    rewrite app_nil_r. reflexivity. }
  rewrite Hclean. reflexivity.
Qed.

Lemma latex_fallback_joins_arguments_witness :
  parse_latex_expression (E:=Toy.engine) (lit "\frac{x+1}{2}")
  = parse_mathematical_expression (E:=Toy.engine) (lit "x+12").
Proof.
  apply (latex_fallback_joins_arguments Toy.engine (lit "frac") (lit "x+1") (lit "2"));
    try discriminate; try reflexivity.
  intros c Hc. simpl in Hc.
  destruct Hc as [<- | [<- | [<- | []]]]; vm_compute; intuition discriminate.
Defined.

(** * Further properties of the notation resolver and of equations *)

Section Bars.

Lemma bars_match a rest :
  a <> [] -> ~ In (ch "|") a ->
  match_here [tok (One (Chr (ch "|"))); grp (Plus (Except (ch "|")));
              tok (One (Chr (ch "|")))] None
             ((ch "|" :: a ++ [ch "|"]) ++ rest)
  = Some ([a], rest).
Proof.
  intros Ha Hbar. unfold tok, grp. cbn [app]. rewrite <- app_assoc. cbn [app].
  apply (match_one_head false (Chr (ch "|")) _ None (ch "|") _ [a] rest);
    [reflexivity |].
  apply (match_plus_run true (Except (ch "|")) _ (Some (ch "|")) a (ch "|")
           rest [] rest); [exact Ha | | reflexivity |].
  - apply forallb_forall. intros x Hx. cbn [in_cls].
    apply negb_true_iff, N.eqb_neq. intros ->. exact (Hbar Hx).
  - apply (match_one_head false (Chr (ch "|")) [] _ (ch "|") rest [] rest);
      reflexivity.
Qed.

End Bars.

(** X18. Absolute-value bars: in a text whose first bar opens a pair
    [|a|] with [a] not empty, the pair becomes [Abs(a)], the text before
    it is kept and the text after it is rewritten in the same way; a text
    without a bar is left as it is. *)
Theorem absolute_value_bars (pre a rest : str) :
  ~ In (ch "|") pre ->
  a <> [] ->
  ~ In (ch "|") a ->
  rewrite_abs (pre ++ ch "|" :: a ++ ch "|" :: rest)
  = pre ++ lit "Abs(" ++ a ++ lit ")" ++ rewrite_abs rest
  /\ rewrite_abs pre = pre.
Proof.
  intros Hpre Ha Hbar. split.
  - unfold rewrite_abs, sub.
    assert (Hm : ch "|" :: a ++ [ch "|"] <> []) by discriminate.
    pose proof (sub_first_match false (ch "|")
                  [grp (Plus (Except (ch "|"))); tok (One (Chr (ch "|")))]
                  (expand_template [T "Abs("; G 1; T ")"])
                  pre (ch "|" :: a ++ [ch "|"]) rest [a]
                  Hpre Hm eq_refl (bars_match a rest Ha Hbar)) as H.
    replace (pre ++ ch "|" :: a ++ ch "|" :: rest)
      with (pre ++ (ch "|" :: a ++ [ch "|"]) ++ rest)
      by (cbn [app]; rewrite <- app_assoc; reflexivity).
    unfold tok in H |- *. rewrite H. f_equal.
    unfold expand_template, groups_of, group. cbn [flat_map nth].
    rewrite app_nil_r, <- !app_assoc. reflexivity.
  - unfold rewrite_abs, sub. apply sub_fn_absent. exact Hpre.
Qed.

Lemma absolute_value_bars_witness :
  rewrite_abs (lit "2*|x-1| + |y|")
  = lit "2*" ++ lit "Abs(" ++ lit "x-1" ++ lit ")" ++ rewrite_abs (lit " + |y|").
Proof.
  apply (absolute_value_bars (lit "2*") (lit "x-1") (lit " + |y|"));
    vm_compute; intuition discriminate.
Defined.

Section Equations.

Context {E : Engine}.

Lemma split_go_absent sep s :
  ~ In sep s -> forall cur, split_go sep s cur = [rev cur ++ s].
Proof.
  induction s as [| c s IH]; intros Hs cur; cbn [split_go].
  - rewrite app_nil_r. reflexivity.
  - destruct (c =? sep)%N eqn:Hc.
    + apply N.eqb_eq in Hc. exfalso. apply Hs. left. exact Hc.
    + rewrite IH by (intros H; apply Hs; right; exact H).
      cbn [rev]. rewrite <- app_assoc. reflexivity.
Qed.

Lemma split_go_once sep l r :
  ~ In sep l -> ~ In sep r ->
  forall cur, split_go sep (l ++ sep :: r) cur = [rev cur ++ l; r].
Proof.
  induction l as [| c l IH]; intros Hl Hr cur; cbn [app split_go].
  - rewrite N.eqb_refl, app_nil_r, (split_go_absent sep r Hr []). reflexivity.
  - destruct (c =? sep)%N eqn:Hc.
    + apply N.eqb_eq in Hc. exfalso. apply Hl. left. exact Hc.
    + rewrite IH; [| intros H; apply Hl; right; exact H | exact Hr].
      cbn [rev]. rewrite <- app_assoc. reflexivity.
Qed.

Lemma contains_middle c l r : contains [c] (l ++ c :: r) = true.
Proof.
  induction l as [| x l IH]; cbn [app contains starts_with].
  - rewrite N.eqb_refl. reflexivity.
  - rewrite IH. apply orb_true_r.
Qed.

Lemma contains_no_double c l r :
  ~ In c l -> ~ In c r -> contains [c; c] (l ++ c :: r) = false.
Proof.
  intros Hl Hr. induction l as [| x l IH]; cbn [app].
  - cbn [contains starts_with]. rewrite N.eqb_refl. cbn [andb].
    rewrite (contains_needs_head c [c] r Hr), orb_false_r.
    destruct r as [| y r]; [reflexivity |].
    destruct (c =? y)%N eqn:Hy; [| reflexivity].
    apply N.eqb_eq in Hy. exfalso. apply Hr. left. symmetry. exact Hy.
  - cbn [contains starts_with].
    rewrite IH by (intros H; apply Hl; right; exact H).
    destruct (c =? x)%N eqn:Hx; [| reflexivity].
    apply N.eqb_eq in Hx. exfalso. apply Hl. left. symmetry. exact Hx.
Qed.

End Equations.

(** X19. An input with exactly one equals sign that is part of no [<=]
    or [>=] is parsed as an equation: the text before and the text
    after the sign are normalized and resolved each on its own, and the
    two results are joined by [Eq]; the special forms [integrate(] and
    [diff(] are not looked for. *)
Theorem single_equals_sign_makes_equation (E : Engine) (l r : str) :
  ~ In (ch "=") l ->
  ~ In (ch "=") r ->
  contains (lit "<=") (l ++ ch "=" :: r) = false ->
  contains (lit ">=") (l ++ ch "=" :: r) = false ->
  parse_mathematical_body (l ++ ch "=" :: r) =
  (left_expr <- handle_mathematical_notation (preprocess_text (strip l)) ;;
   right_expr <- handle_mathematical_notation (preprocess_text (strip r)) ;;
   mk_eq left_expr right_expr).
Proof.
  intros Hl Hr Hle Hge. unfold parse_mathematical_body.
  change (contains (lit "=") (l ++ ch "=" :: r))
    with (contains [ch "="] (l ++ ch "=" :: r)).
  rewrite contains_middle. cbn [existsb andb].
  rewrite Hle, Hge.
  change (contains (lit "==") (l ++ ch "=" :: r))
    with (contains [ch "="; ch "="] (l ++ ch "=" :: r)).
  rewrite (contains_no_double (ch "=") l r Hl Hr). cbn [orb negb].
  unfold split. rewrite (split_go_once (ch "=") l r Hl Hr []).
  reflexivity.
Qed.

Lemma single_equals_sign_makes_equation_witness :
  parse_mathematical_body (E:=Toy.engine) (lit "x^2 - 4 = 0")
  = Ok (lit "Eq(x**2 - 4, 0)").
Proof.
  apply (single_equals_sign_makes_equation Toy.engine (lit "x^2 - 4 ") (lit " 0"));
    vm_compute; intuition discriminate.
Defined.

Section Protection.

Lemma lit_injective a b : lit a = lit b -> a = b.
Proof.
  unfold lit. intros H.
  rewrite <- (string_of_list_ascii_of_string a),
          <- (string_of_list_ascii_of_string b).
  f_equal. revert H.
  generalize (list_ascii_of_string a) (list_ascii_of_string b).
  induction l as [| x l IH]; intros [| y l'] H; try discriminate; [reflexivity |].
  cbn [map] in H. injection H as Hxy Hl.
  f_equal; [| apply IH; exact Hl].
  rewrite <- (ascii_N_embedding x), <- (ascii_N_embedding y), Hxy. reflexivity.
Qed.

Lemma str_of_nat_injective n m : str_of_nat n = str_of_nat m -> n = m.
Proof.
  unfold str_of_nat. intros H. apply lit_injective in H.
  apply (f_equal NilEmpty.uint_of_string) in H.
  rewrite !NilEmpty.usu in H. injection H as H.
  rewrite <- (Unsigned.of_to n), <- (Unsigned.of_to m), H. reflexivity.
Qed.

Lemma temp_marker_injective n m : temp_marker n = temp_marker m -> n = m.
Proof.
  unfold temp_marker. intros H. apply app_inv_head in H.
  apply app_inv_tail in H. apply str_of_nat_injective. exact H.
Qed.

Lemma markers_distinct k n : NoDup (map temp_marker (seq k n)).
Proof.
  revert k. induction n as [| n IH]; intros k; cbn [seq map].
  - constructor.
  - constructor; [| apply IH].
    intros H. apply in_map_iff in H. destruct H as (j & Hj & Hin).
    apply temp_marker_injective in Hj. apply in_seq in Hin. lia.
Qed.

(** The table that [protect] returns, for any starting table that is
    numbered up to the counter. *)
Lemma protect_table words :
  forall e reps k,
    length reps = k ->
    map fst reps = map temp_marker (seq 0 k) ->
    Forall (fun pr => exists w, In w words /\ snd pr = lit w)
           (skipn k (snd (protect words e reps k)))
    /\ map fst (snd (protect words e reps k))
       = map temp_marker (seq 0 (length (snd (protect words e reps k))))
    /\ length (snd (protect words e reps k)) <= k + length words
    /\ firstn k (snd (protect words e reps k)) = reps.
Proof.
  induction words as [| w words IH]; intros e reps k Hlen Hkeys; cbn [protect].
  - cbn [snd]. rewrite <- Hlen, skipn_all, firstn_all. rewrite Hlen.
    repeat split; [constructor | exact Hkeys | cbn [length]; lia].
  - destruct (contains (lit w) e).
    + assert (Hlen' : length (reps ++ [(temp_marker k, lit w)]) = S k)
        by (rewrite length_app; cbn [length]; lia).
      assert (Hkeys' : map fst (reps ++ [(temp_marker k, lit w)])
                       = map temp_marker (seq 0 (S k))).
      { rewrite map_app, Hkeys, seq_S, map_app. reflexivity. }
      destruct (IH (replace (lit w) (temp_marker k) e)
                   (reps ++ [(temp_marker k, lit w)]) (S k) Hlen' Hkeys')
        as (Hvals & Hk & Hle & Hfirst).
      set (table := snd (protect words (replace (lit w) (temp_marker k) e)
                           (reps ++ [(temp_marker k, lit w)]) (S k))) in *.
      assert (Htable : table = (reps ++ [(temp_marker k, lit w)]) ++ skipn (S k) table).
      { rewrite <- Hfirst at 1. symmetry. apply firstn_skipn. }
      split; [| split; [exact Hk | split]].
      * rewrite Htable, <- app_assoc, <- Hlen, skipn_app, skipn_all, Nat.sub_diag.
        cbn [app skipn]. constructor.
        -- exists w. split; [left; reflexivity | reflexivity].
        -- rewrite Hlen. revert Hvals. apply Forall_impl.
           intros pr (w' & Hw' & Hpr). exists w'. split; [right; exact Hw' | exact Hpr].
      * cbn [length]. lia.
      * rewrite Htable, <- app_assoc, <- Hlen, firstn_app, firstn_all, Nat.sub_diag.
        cbn [firstn]. apply app_nil_r.
    + destruct (IH e reps k Hlen Hkeys) as (Hvals & Hk & Hle & Hfirst).
      split; [| split; [exact Hk | split; [cbn [length]; lia | exact Hfirst]]].
      revert Hvals. apply Forall_impl.
      intros pr (w' & Hw' & Hpr). exists w'. split; [right; exact Hw' | exact Hpr].
Qed.

Lemma protect_nothing words :
  forall e reps k,
    (forall w, In w words -> contains (lit w) e = false) ->
    protect words e reps k = (e, reps).
Proof.
  induction words as [| w words IH]; intros e reps k H; cbn [protect].
  - reflexivity.
  - rewrite (H w (or_introl eq_refl)). apply IH.
    intros w' Hw'. apply H. right. exact Hw'.
Qed.

End Protection.

(** X20. The table of protected words: its markers are [__TEMP_0__],
    [__TEMP_1__], ... in this order without a gap, so they are pairwise
    distinct; every marker stands for a word of the protected list, and
    there are at most as many entries as protected words.  A text that
    holds no protected word is left as it is, with an empty table. *)
Theorem protection_table_is_numbered (expression : str) :
  map fst (snd (protect protected_words expression [] 0))
  = map temp_marker
        (seq 0 (length (snd (protect protected_words expression [] 0))))
  /\ NoDup (map fst (snd (protect protected_words expression [] 0)))
  /\ Forall (fun pr => exists w, In w protected_words /\ snd pr = lit w)
            (snd (protect protected_words expression [] 0))
  /\ length (snd (protect protected_words expression [] 0))
     <= length protected_words
  /\ ((forall w, In w protected_words -> contains (lit w) expression = false) ->
      protect protected_words expression [] 0 = (expression, [])).
Proof.
  pose proof (protect_table protected_words expression [] 0 eq_refl eq_refl)
    as H.
  pose proof (protect_nothing protected_words expression [] 0) as Hnothing.
  generalize dependent (protect protected_words expression [] 0).
  intros p (Hvals & Hkeys & Hle & _) Hnothing.
  cbn [skipn Nat.add] in Hvals, Hle.
  split; [exact Hkeys |]. split; [| split; [exact Hvals | split; [exact Hle |]]].
  - rewrite Hkeys. apply markers_distinct.
  - exact Hnothing.
Qed.

(** * Properties of the steps log and of the assistant *)

Section LogLemmas.

Lemma numbered_steps_app a :
  forall i b,
    Log.numbered_steps i (a ++ b)
    = Log.numbered_steps i a ++ Log.numbered_steps (i + length a) b.
Proof.
  induction a as [| step a IH]; intros i b; cbn [app Log.numbered_steps length].
  - rewrite Nat.add_0_r. reflexivity.
  - rewrite IH, <- !app_assoc, Nat.add_succ_r. reflexivity.
Qed.

End LogLemmas.

(** X21. The rendering of a step never shows LaTeX: whether the imports
    succeed, whether the expression parses and whatever [latex] returns
    or raises, the result is the expression itself, with the name of the
    step and a colon before it when LaTeX is enabled and the name is not
    empty. *)
Theorem rendering_never_shows_latex (E : Engine) (imports_ok : bool)
    (plain_parse_expr : str -> result Expr)
    (expression step_name : str) (enable_latex : bool) :
  Log.render_latex_output imports_ok plain_parse_expr
    expression step_name enable_latex
  = if enable_latex && negb (is_nil step_name)
    then step_name ++ lit ": " ++ expression
    else expression.
Proof.
  unfold Log.render_latex_output.
  destruct enable_latex; [| reflexivity]. cbn [negb andb].
  destruct imports_ok; [| reflexivity].
  destruct (sympy_expr <- plain_parse_expr expression ;; latex sympy_expr);
    reflexivity.
Qed.

(** X22. The exported text numbers the steps from 1 in the order in
    which they were added: adding a step to a log adds one line to the
    export, numbered with the new length of the log, and the export of
    the empty log is the heading alone. *)
Theorem exported_steps_are_numbered (E : Engine) (imports_ok : bool)
    (plain_parse_expr : str -> result Expr) (steps_log : list str)
    (step_name expression : str) (enable_latex : bool) :
  Log.export_latex_steps
    (Log.add_latex_step imports_ok plain_parse_expr steps_log
       step_name expression enable_latex)
  = Log.export_latex_steps steps_log
    ++ str_of_nat (S (length steps_log)) ++ lit ". "
    ++ Log.render_latex_output imports_ok plain_parse_expr
         expression step_name enable_latex
    ++ [10%N]
  /\ Log.export_latex_steps Log.create_latex_steps_log = Log.export_heading.
Proof.
  split.
  - unfold Log.export_latex_steps, Log.add_latex_step.
    rewrite numbered_steps_app. cbn [Log.numbered_steps Nat.add].
    rewrite <- !app_assoc, app_nil_r. reflexivity.
  - unfold Log.export_latex_steps, Log.create_latex_steps_log.
    apply app_nil_r.
Qed.

Section History.

Lemma exchanges_app h :
  forall n h',
    length h <= n ->
    exchanges h = true -> exchanges h' = true -> exchanges (h ++ h') = true.
Proof.
  intros n. revert h.
  induction n as [| n IH]; intros h h' Hn Hh Hh'.
  - destruct h; [exact Hh' | simpl in Hn; lia].
  - destruct h as [| u [| a h]]; [exact Hh' | discriminate |].
    cbn [app exchanges] in *.
    apply andb_true_iff in Hh. destruct Hh as [Hua Hh]. rewrite Hua.
    apply IH; [cbn [length] in Hn; lia | exact Hh | exact Hh'].
Qed.

(** The parity of the length, for the truncation. *)
Lemma exchanges_skipn k :
  forall h, exchanges h = true -> exchanges (skipn (2 * k) h) = true.
Proof.
  induction k as [| k IH]; intros h Hh; [exact Hh |].
  replace (2 * S k) with (S (S (2 * k))) by lia.
  destruct h as [| u [| a h]]; [reflexivity | discriminate |].
  cbn [skipn]. apply IH. cbn [exchanges] in Hh.
  apply andb_true_iff in Hh. apply Hh.
Qed.

Lemma exchanges_even h :
  forall n, length h <= n -> exchanges h = true -> exists k, length h = 2 * k.
Proof.
  intros n. revert h. induction n as [| n IH]; intros h Hn Hh.
  - destruct h; [exists 0; reflexivity | simpl in Hn; lia].
  - destruct h as [| u [| a h]]; [exists 0; reflexivity | discriminate |].
    cbn [exchanges] in Hh. apply andb_true_iff in Hh. destruct Hh as [_ Hh].
    destruct (IH h) as [k Hk]; [cbn [length] in Hn; lia | exact Hh |].
    exists (S k). cbn [length]. lia.
Qed.

Lemma last_twenty_short h : length (AI.last_twenty h) <= 20.
Proof.
  unfold AI.last_twenty. destruct (20 <? length h) eqn:H.
  - apply Nat.ltb_lt in H. rewrite length_skipn. lia.
  - apply Nat.ltb_ge in H. exact H.
Qed.

Lemma last_twenty_exchanges h :
  exchanges h = true -> exchanges (AI.last_twenty h) = true.
Proof.
  intros Hh. unfold AI.last_twenty. destruct (20 <? length h) eqn:H; [| exact Hh].
  apply Nat.ltb_lt in H.
  destruct (exchanges_even h (length h) (le_n _) Hh) as [k Hk].
  replace (length h - 20) with (2 * (k - 10)) by lia.
  apply exchanges_skipn. exact Hh.
Qed.

End History.

Section Chat.

Variable World : Type.
Variable O : AI.Ollama World.

(** The object after [chat]: unchanged, or with the exchange added to
    the history. *)
Lemma chat_cases (self : AI.OllamaAI) (message prompt_type : str)
    (include_history : bool) (w : World) :
  snd (fst (AI.chat O self message prompt_type include_history w)) = self
  \/ (include_history = true /\ prompt_type = lit "dialog"
      /\ snd (fst (AI.chat O self message prompt_type include_history w))
         = AI.with_history self
             (AI.last_twenty
                (AI.conversation_history self
                 ++ [{| AI.msg_role := AI.user; AI.content := message |};
                     {| AI.msg_role := AI.assistant;
                        AI.content :=
                          fst (fst (AI.chat O self message prompt_type
                                      include_history w)) |}]))).
Proof.
  unfold AI.chat.
  destruct (AI.check_ollama_installation O w) as [installed w1].
  destruct installed; cbn [negb]; [| left; reflexivity].
  destruct (AI.check_model_availability O self w1) as [available w2].
  destruct available; cbn [negb]; [| left; reflexivity].
  destruct (AI.ollama_chat O _ _ w2) as [[answer | e] w3]; [| left; reflexivity].
  destruct include_history; cbn [andb]; [| left; reflexivity].
  destruct (str_eqb prompt_type (lit "dialog")) eqn:Hp; [| left; reflexivity].
  right. apply str_eqb_eq in Hp.
  split; [reflexivity |]. split; [exact Hp | reflexivity].
Qed.

End Chat.

(** X23. The history of the dialog stays well formed through every call
    of [chat]: it remains a sequence of exchanges, a message of the user
    followed by the answer of the assistant, so no system prompt is ever
    stored; and it never holds more than twenty messages.  A call either
    leaves the object as it is or, in a dialog with history, adds the
    message and the returned answer and keeps the last twenty entries;
    the settings and the system prompts are never changed. *)
Theorem chat_keeps_history_well_formed (World : Type) (O : AI.Ollama World)
    (self : AI.OllamaAI) (message prompt_type : str) (include_history : bool)
    (w : World) :
  exchanges (AI.conversation_history self) = true ->
  length (AI.conversation_history self) <= 20 ->
  exchanges (AI.conversation_history
               (snd (fst (AI.chat O self message prompt_type include_history w))))
  = true
  /\ length (AI.conversation_history
               (snd (fst (AI.chat O self message prompt_type include_history w))))
     <= 20
  /\ AI.settings (snd (fst (AI.chat O self message prompt_type include_history w)))
     = AI.settings self
  /\ AI.system_prompts
       (snd (fst (AI.chat O self message prompt_type include_history w)))
     = AI.system_prompts self
  /\ (snd (fst (AI.chat O self message prompt_type include_history w)) = self
      \/ (include_history = true /\ prompt_type = lit "dialog"
          /\ AI.conversation_history
               (snd (fst (AI.chat O self message prompt_type include_history w)))
             = AI.last_twenty
                 (AI.conversation_history self
                  ++ [{| AI.msg_role := AI.user; AI.content := message |};
                      {| AI.msg_role := AI.assistant;
                         AI.content :=
                           fst (fst (AI.chat O self message prompt_type
                                       include_history w)) |}]))).
Proof.
  intros Hex Hlen.
  destruct (chat_cases World O self message prompt_type include_history w)
    as [Hsame | (Hi & Hp & Hnew)].
  - rewrite Hsame. repeat split; try assumption. left. reflexivity.
  - rewrite Hnew. cbn [AI.with_history AI.conversation_history AI.settings
                       AI.system_prompts].
    split; [| split; [| split; [| split]]].
    + apply last_twenty_exchanges.
      apply (exchanges_app _ (length (AI.conversation_history self)));
        [apply le_n | exact Hex | reflexivity].
    + apply last_twenty_short.
    + reflexivity.
    + reflexivity.
    + right. repeat split; assumption.
Qed.

Lemma chat_keeps_history_well_formed_witness :
  AI.conversation_history
    (snd (fst (AI.chat Echo.service Echo.helper (lit "2+2") (lit "dialog") true 0)))
  = [ {| AI.msg_role := AI.user; AI.content := lit "2+2" |};
      {| AI.msg_role := AI.assistant; AI.content := lit "2+2" |} ].
Proof.
  pose proof (chat_keeps_history_well_formed nat Echo.service Echo.helper
                (lit "2+2") (lit "dialog") true 0 eq_refl) as H.
  destruct H as (_ & _ & _ & _ & H); [cbn; lia |].
  reflexivity.
Defined.

(** X24. The explanations never touch the assistant: [explain_error] and
    [explain_step] return the object as they found it, history
    included; and when the setting is off they return no text and do not
    call the service at all. *)
Theorem explanations_leave_assistant_unchanged (World : Type)
    (O : AI.Ollama World) (self : AI.OllamaAI) (a b c : str) (w : World) :
  snd (fst (AI.explain_error O self a b w)) = self
  /\ snd (fst (AI.explain_step O self a b c w)) = self
  /\ (AI.ai_error_explanations (AI.settings self) = false ->
      AI.explain_error O self a b w = (None, self, w))
  /\ (AI.ai_step_explanations (AI.settings self) = false ->
      AI.explain_step O self a b c w = (None, self, w)).
Proof.
  assert (Hchat : forall message prompt_type,
             snd (fst (AI.chat O self message prompt_type false w)) = self).
  { intros message prompt_type.
    destruct (chat_cases World O self message prompt_type false w)
      as [H | (H & _)]; [exact H | discriminate]. }
  split; [| split; [| split]].
  - unfold AI.explain_error.
    destruct (AI.ai_error_explanations (AI.settings self)); cbn [negb];
      [| reflexivity].
    specialize (Hchat (AI.error_prompt a b) (lit "error")).
    destruct (AI.chat O self (AI.error_prompt a b) (lit "error") false w)
      as [[answer self'] w']. exact Hchat.
  - unfold AI.explain_step.
    destruct (AI.ai_step_explanations (AI.settings self)); cbn [negb];
      [| reflexivity].
    specialize (Hchat (AI.step_prompt a b c) (lit "explanation")).
    destruct (AI.chat O self (AI.step_prompt a b c) (lit "explanation") false w)
      as [[answer self'] w']. exact Hchat.
  - intros H. unfold AI.explain_error. rewrite H. reflexivity.
  - intros H. unfold AI.explain_step. rewrite H. reflexivity.
Qed.

Section SetupLemmas.

Variable lower : str -> str.

Lemma ask_consumes yes no inputs :
  forall answer rest,
    AI.ask lower yes no inputs = Some (answer, rest) ->
    exists used, inputs = used ++ rest /\ 1 <= length used.
Proof.
  induction inputs as [| line inputs IH]; intros answer rest H; cbn [AI.ask] in H.
  - discriminate.
  - destruct (existsb (str_eqb (lower (strip line))) yes).
    + injection H as _ <-. exists [line]. split; [reflexivity | simpl; lia].
    + destruct (existsb (str_eqb (lower (strip line))) no).
      * injection H as _ <-. exists [line]. split; [reflexivity | simpl; lia].
      * destruct (IH _ _ H) as (used & -> & Hu).
        exists (line :: used). split; [reflexivity | simpl; lia].
Qed.

End SetupLemmas.

(** X25. The settings after [setup_ai_settings], whenever the four
    questions are answered: the explanations of the steps are enabled
    only if the steps are shown, the name of the model is the one the
    settings had before, and at least three typed lines were read. *)
Theorem setup_keeps_settings_consistent (lower : str -> str)
    (ai_settings s : AI.AISettings) (inputs rest : list str) :
  AI.setup_ai_settings lower ai_settings inputs = Some (s, rest) ->
  (AI.ai_step_explanations s = true -> AI.show_steps s = true)
  /\ AI.model s = AI.model ai_settings
  /\ exists used, inputs = used ++ rest /\ 3 <= length used.
Proof.
  unfold AI.setup_ai_settings. intros H.
  destruct (AI.ask lower ([] :: AI.answers_yes) AI.answers_no inputs)
    as [[show in1] |] eqn:H1; [| discriminate].
  destruct (AI.ask lower AI.answers_yes ([] :: AI.answers_no) in1)
    as [[errs in2] |] eqn:H2; [| discriminate].
  destruct (ask_consumes lower _ _ _ _ _ H1) as (u1 & -> & Hu1).
  destruct (ask_consumes lower _ _ _ _ _ H2) as (u2 & -> & Hu2).
  destruct show.
  - destruct (AI.ask lower AI.answers_yes ([] :: AI.answers_no) in2)
      as [[steps in3] |] eqn:H3; [| discriminate].
    destruct (AI.ask lower AI.answers_yes ([] :: AI.answers_no) in3)
      as [[skip in4] |] eqn:H4; [| discriminate].
    destruct (ask_consumes lower _ _ _ _ _ H3) as (u3 & -> & Hu3).
    destruct (ask_consumes lower _ _ _ _ _ H4) as (u4 & -> & Hu4).
    injection H as <- <-. cbn. repeat split.
    exists (u1 ++ u2 ++ u3 ++ u4). split.
    + rewrite <- !app_assoc. reflexivity.
    + rewrite !length_app. lia.
  - destruct (AI.ask lower AI.answers_yes ([] :: AI.answers_no) in2)
      as [[skip in4] |] eqn:H4; [| discriminate].
    destruct (ask_consumes lower _ _ _ _ _ H4) as (u4 & -> & Hu4).
    injection H as <- <-. cbn. repeat split.
    + discriminate.
    + exists (u1 ++ u2 ++ u4). split.
      * rewrite <- !app_assoc. reflexivity.
      * rewrite !length_app. lia.
Qed.

Lemma setup_keeps_settings_consistent_witness :
  (false = true -> false = true)
  /\ lit "gemma3:4b-it-qat" = lit "gemma3:4b-it-qat"
  /\ exists used,
       [lit " N "; lit "maybe"; lit "y"; lit ""; lit "x"]
       = used ++ [lit "x"] /\ 3 <= length used.
Proof.
  apply (setup_keeps_settings_consistent
           (map (fun c => if between 65%N 90%N c then (c + 32)%N else c))
           AI.AISettings_init
           {| AI.show_steps := false;
              AI.ai_error_explanations := true;
              AI.ai_step_explanations := false;
              AI.model := lit "gemma3:4b-it-qat";
              AI.skip_model_check := false |}
           [lit " N "; lit "maybe"; lit "y"; lit ""; lit "x"] [lit "x"]).
  reflexivity.
Defined.

(** X26. The defaults that the questions announce: when every question
    is answered with an empty line, the steps are shown and the three
    other options are off; four lines are read.  When no line is typed
    at all the set-up ends with the end-of-input error. *)
Theorem setup_defaults (lower : str -> str) (ai_settings : AI.AISettings)
    (rest : list str) :
  lower [] = [] ->
  AI.setup_ai_settings lower ai_settings ([] :: [] :: [] :: [] :: rest)
  = Some ({| AI.show_steps := true;
             AI.ai_error_explanations := false;
             AI.ai_step_explanations := false;
             AI.model := AI.model ai_settings;
             AI.skip_model_check := false |}, rest)
  /\ AI.setup_ai_settings lower ai_settings [] = None.
Proof.
  intros Hlower. split; [| reflexivity].
  assert (Hy : forall inputs,
             AI.ask lower ([] :: AI.answers_yes) AI.answers_no ([] :: inputs)
             = Some (true, inputs)).
  { intros inputs. cbn [AI.ask]. change (strip []) with (@nil char).
    rewrite Hlower. reflexivity. }
  assert (Hn : forall inputs,
             AI.ask lower AI.answers_yes ([] :: AI.answers_no) ([] :: inputs)
             = Some (false, inputs)).
  { intros inputs. cbn [AI.ask]. change (strip []) with (@nil char).
    rewrite Hlower. reflexivity. }
  unfold AI.setup_ai_settings. rewrite Hy, !Hn. reflexivity.
Qed.

Lemma setup_defaults_witness :
  AI.setup_ai_settings (fun s => s) AI.AISettings_init [[]; []; []; []]
  = Some (AI.AISettings_init, []).
Proof.
  apply (setup_defaults (fun s => s) AI.AISettings_init []). reflexivity.
Defined.

(** * The passes of the normalizer, one by one *)

(** X27. Each of the four passes of the normalizer is idempotent on its
    own, for every text: collapsing the whitespace, rewriting the
    aliases, replacing the Cyrillic letters and replacing the special
    symbols. *)
Theorem each_pass_is_idempotent (s : str) :
  collapse_spaces (collapse_spaces s) = collapse_spaces s
  /\ replace_aliases (replace_aliases s) = replace_aliases s
  /\ replace_chars cyrillic_replacements (replace_chars cyrillic_replacements s)
     = replace_chars cyrillic_replacements s
  /\ replace_chars symbol_replacements (replace_chars symbol_replacements s)
     = replace_chars symbol_replacements s.
Proof.
  split; [| split; [| split]].
  - apply collapse_spaces_fixed. apply tidy_collapse_spaces.
  - rewrite (replace_aliases_table (replace_aliases s)).
    apply (sub_aliases_fixed alias_table _ eq_refl (fun pr H => H)).
    apply replace_aliases_no_alias.
  - apply replace_chars_absent. intros c Hc.
    revert c Hc. apply replace_chars_removes.
    intros k pr Hk Hpr. revert pr Hpr. apply Forall_forall.
    simpl in Hk.
    repeat match goal with
           | H : _ \/ _ |- _ => destruct H as [H | H]
           end; try contradiction; subst k;
      repeat constructor; simpl; intuition discriminate.
  - apply replace_chars_absent. intros c Hc. apply symbols_removed. exact Hc.
Qed.

(** * A lone symbol in stage 3 *)

(** X28. A lone symbol that [simplify] returns unchanged is classified by
    the length of its name: with a name of at most three characters it
    is a [simplification] whose solution is the symbol itself; with a
    longer name it is solved as an equation with zero, for the symbol. *)
Theorem lone_symbol_is_classified_by_length (E : Engine) (e : Expr)
    (roots : list Expr) :
  class_of e = ClsSymbol ->
  free_symbols e = [e] ->
  contains (lit "<") (str_of e) || contains (lit ">") (str_of e) = false ->
  contains_any ["log"; "exp"]%string (str_of e) = false ->
  simplify e = Ok e ->
  solve e [e] = Ok roots ->
  step3_solve (Some e) =
  if length (strip (str_of e)) <=? 3
  then {| s3_success := true;
          s3_problem_type := Some simplification;
          s3_solutions := Some (PExpr e);
          s3_errors := [] |}
  else {| s3_success := true;
          s3_problem_type := Some equation_zero;
          s3_solutions := Some (PList roots);
          s3_errors := [] |}.
Proof.
  intros Hcls Hfree Hrel Hlog Hsim Hsolve.
  unfold step3_solve, classify. rewrite Hcls, contains_any_relational, Hrel, Hfree.
  cbn [is_nil]. unfold classify_plain.
  rewrite Hsim, Hlog, Hfree, Hcls. cbn [bind]. rewrite expr_neqb_refl.
  cbn [bind length Nat.eqb existsb andb]. rewrite str_eqb_refl. cbn [orb andb].
  rewrite andb_true_r.
  destruct (length (strip (str_of e)) <=? 3); [reflexivity |].
  rewrite Hsolve. reflexivity.
Qed.

Lemma lone_symbol_is_classified_by_length_witness :
  step3_solve (E:=Toy.engine) (Some (lit "x"))
  = Build_stage3 (E:=Toy.engine) true (Some simplification)
      (Some (PExpr (lit "x"))) [].
Proof.
  apply (lone_symbol_is_classified_by_length Toy.engine (lit "x") []);
    reflexivity.
Defined.

(** * The eager evaluation of calls *)

Section Eagerness.

Context {E : Engine}.

Lemma starts_with_all p :
  forall s c, starts_with p s = true -> In c p -> In c s.
Proof.
  induction p as [| a p IH]; intros s c H Hc; [destruct Hc |].
  destruct s as [| b s]; cbn [starts_with] in H; [discriminate |].
  apply andb_true_iff in H. destruct H as [Hab Hp].
  apply N.eqb_eq in Hab. subst b.
  destruct Hc as [-> | Hc]; [left; reflexivity | right; apply (IH s c Hp Hc)].
Qed.

(** A text that lacks a character of [p] does not contain [p]. *)
Lemma contains_without_char c p s :
  In c p -> ~ In c s -> contains p s = false.
Proof.
  intros Hp. induction s as [| x s IH]; intros Hs; cbn [contains].
  - destruct (starts_with p []) eqn:H; [| reflexivity].
    exfalso. exact (starts_with_all p [] c H Hp).
  - rewrite IH by (intros H; apply Hs; right; exact H).
    destruct (starts_with p (x :: s)) eqn:H; [| reflexivity].
    exfalso. apply Hs. exact (starts_with_all p (x :: s) c H Hp).
Qed.

Lemma contains_cons p c s :
  contains p (c :: s) = starts_with p (c :: s) || contains p s.
Proof. reflexivity. Qed.

Lemma contains_of_prefix p s : starts_with p s = true -> contains p s = true.
Proof. intros H. destruct s; cbn [contains]; rewrite H; reflexivity. Qed.

Lemma starts_with_join w u s :
  starts_with w s = true -> starts_with u (skipn (length w) s) = true ->
  starts_with (w ++ u) s = true.
Proof.
  revert s. induction w as [| a w IH]; intros s Hw Hu; [exact Hu |].
  destruct s as [| b s]; cbn [starts_with] in Hw; [discriminate |].
  apply andb_true_iff in Hw. destruct Hw as [Hab Hw].
  cbn [app starts_with length skipn] in *. rewrite Hab. apply IH; assumption.
Qed.

(** A call pattern changes nothing in a text that does not hold the name
    followed by an opening parenthesis. *)
Lemma call_pattern_absent name repl s :
  contains (lit name ++ lit "(") s = false ->
  sub_fn (call_pattern name) repl s = s.
Proof.
  intros H. unfold sub_fn. apply sub_go_no_match.
  destruct (search_go (call_pattern name) None s) eqn:Hs; [exfalso | reflexivity].
  assert (Hs' : search_go (call_pattern name) None s <> None) by congruence.
  destruct (search_go_inv _ _ _ Hs') as (a & b & gs & rest & -> & Hm).
  unfold call_pattern, text in Hm. rewrite match_text in Hm.
  destruct (starts_with (lit name) b) eqn:Hname; [| discriminate].
  cbn [map lit list_ascii_of_string app] in Hm.
  destruct (match_one _ _ _ _ _ _ _ Hm) as (c & t & gs' & Ht & Hc & _ & _).
  cbn [in_cls] in Hc. apply N.eqb_eq in Hc. subst c.
  assert (Hb : starts_with (lit name ++ lit "(") b = true).
  { apply starts_with_join; [exact Hname |]. rewrite Ht.
    cbn [lit map list_ascii_of_string starts_with]. rewrite N.eqb_refl.
    reflexivity. }
  rewrite (contains_app_r _ a b (contains_of_prefix _ _ Hb)) in H.
  discriminate.
Qed.

Lemma sine_call_match arg :
  arg <> [] -> ~ In (ch ")") arg ->
  match_here (call_pattern "sin") None ((lit "sin(" ++ arg ++ lit ")") ++ [])
  = Some ([arg], []).
Proof.
  intros Harg Hclose.
  change (call_pattern "sin")
    with [tok (One (Chr (ch "s"))); tok (One (Chr (ch "i")));
          tok (One (Chr (ch "n"))); tok (One (Chr (ch "(")));
          grp (Plus (Except (ch ")"))); tok (One (Chr (ch ")")))].
  rewrite app_nil_r.
  change (lit "sin(" ++ arg ++ lit ")")
    with (ch "s" :: ch "i" :: ch "n" :: ch "(" :: arg ++ [ch ")"]).
  unfold tok, grp.
  apply (match_one_head false (Chr (ch "s")) _ None (ch "s") _ [arg] []);
    [reflexivity |].
  apply (match_one_head false (Chr (ch "i")) _ _ (ch "i") _ [arg] []);
    [reflexivity |].
  apply (match_one_head false (Chr (ch "n")) _ _ (ch "n") _ [arg] []);
    [reflexivity |].
  apply (match_one_head false (Chr (ch "(")) _ _ (ch "(") _ [arg] []);
    [reflexivity |].
  apply (match_plus_run true (Except (ch ")")) _ (Some (ch "(")) arg (ch ")")
           [] [] []); [exact Harg | | reflexivity |].
  - apply forallb_forall. intros x Hx. cbn [in_cls].
    apply negb_true_iff, N.eqb_neq. intros ->. exact (Hclose Hx).
  - apply (match_one_head false (Chr (ch ")")) [] _ (ch ")") [] [] []);
      reflexivity.
Qed.

End Eagerness.

(** X29. The eager evaluation of calls is not anchored at the start of a
    name: in [asin(arg)] with a numeric argument the pattern of [sin]
    matches the tail [sin(arg)], which is replaced by the text of the
    value of the sine, so that the text becomes the letter [a] followed
    by that value. *)
Theorem eager_evaluation_is_not_anchored (E : Engine) (arg : str) (z v : Expr) :
  arg <> [] ->
  ~ In (ch "(") arg ->
  ~ In (ch ")") arg ->
  sympify arg = Ok z ->
  is_number z = true ->
  apply_function FSin z = Ok v ->
  ~ In (ch "(") (str_of v) ->
  evaluate_calls (lit "asin(" ++ arg ++ lit ")") = lit "a" ++ str_of v.
Proof.
  intros Harg Hopen Hclose Hsym Hnum Hsin Hv.
  assert (Htail : ~ In (ch "(") (arg ++ [ch ")"])).
  { intros H. apply in_app_or in H. destruct H as [H | [H | []]];
      [exact (Hopen H) | discriminate]. }
  assert (Hbefore : forall name,
             In name ["log10"; "log"; "sqrt"]%string ->
             contains (lit name ++ lit "(") (lit "asin(" ++ arg ++ lit ")")
             = false).
  { intros name Hname.
    change (lit "asin(" ++ arg ++ lit ")")
      with (ch "a" :: ch "s" :: ch "i" :: ch "n" :: ch "(" :: arg ++ [ch ")"]).
    simpl in Hname.
    destruct Hname as [<- | [<- | [<- | []]]];
      repeat (rewrite contains_cons;
              match goal with
              | |- context [starts_with ?p (?c :: ?s)] =>
                change (starts_with p (c :: s)) with false
              end; cbn [orb]);
      apply (contains_without_char (ch "(")); try exact Htail;
      simpl; auto 10. }
  assert (Hafter : forall name,
             In name ["cos"; "tan"; "factorial"; "exp"]%string ->
             contains (lit name ++ lit "(") (lit "a" ++ str_of v) = false).
  { intros name Hname. apply (contains_without_char (ch "(")).
    - apply in_or_app. right. left. reflexivity.
    - intros [H | H]; [discriminate | exact (Hv H)]. }
  unfold evaluate_calls, function_patterns. cbn [fold_left fst snd].
  rewrite (call_pattern_absent "log10") by (apply Hbefore; simpl; auto).
  rewrite (call_pattern_absent "log") by (apply Hbefore; simpl; auto).
  rewrite (call_pattern_absent "sqrt") by (apply Hbefore; simpl; auto).
  assert (Hstep : sub_fn (call_pattern "sin") (replace_func FSin)
                    (lit "asin(" ++ arg ++ lit ")")
                  = lit "a" ++ str_of v).
  { assert (Hm : lit "sin(" ++ arg ++ lit ")" <> []) by discriminate.
    assert (Hpre : ~ In (ch "s") (lit "a"))
      by (intros [H | []]; discriminate).
    pose proof (sub_first_match false (ch "s")
                  [tok (One (Chr (ch "i"))); tok (One (Chr (ch "n")));
                   tok (One (Chr (ch "("))); grp (Plus (Except (ch ")")));
                   tok (One (Chr (ch ")")))]
                  (replace_func FSin) (lit "a")
                  (lit "sin(" ++ arg ++ lit ")") [] [arg]
                  Hpre Hm eq_refl (sine_call_match arg Harg Hclose)) as H.
    change ((false, One (Chr (ch "s")))
            :: [tok (One (Chr (ch "i"))); tok (One (Chr (ch "n")));
                tok (One (Chr (ch "("))); grp (Plus (Except (ch ")")));
                tok (One (Chr (ch ")")))])
      with (call_pattern "sin") in H.
    rewrite app_nil_r in H.
    change (lit "a" ++ lit "sin(" ++ arg ++ lit ")")
      with (lit "asin(" ++ arg ++ lit ")") in H.
    rewrite H. f_equal.
    assert (Hnil : sub_fn (call_pattern "sin") (replace_func FSin) [] = [])
      by reflexivity.
    rewrite Hnil, app_nil_r.
    unfold replace_func, replacement, groups_of, group. cbn [nth].
    rewrite Hsym, Hnum. cbn [orb bind]. rewrite Hsin. reflexivity. }
  rewrite Hstep.
  rewrite (call_pattern_absent "cos") by (apply Hafter; simpl; auto).
  rewrite (call_pattern_absent "tan") by (apply Hafter; simpl; auto).
  rewrite (call_pattern_absent "factorial") by (apply Hafter; simpl; auto).
  rewrite (call_pattern_absent "exp") by (apply Hafter; simpl; auto).
  reflexivity.
Qed.

Lemma eager_evaluation_is_not_anchored_witness :
  evaluate_calls (E:=Eager.engine) (lit "asin(0)") = lit "a0".
Proof.
  apply (eager_evaluation_is_not_anchored Eager.engine (lit "0") (lit "0") (lit "0"));
    try reflexivity; try discriminate;
    vm_compute; intuition discriminate.
Defined.

(** * The special forms of the parser *)

Section Forms.

Context {E : Engine}.

(** The search up to its first match, when the pattern starts with a
    literal character that the text before the match does not hold. *)
Lemma search_first_match cap c r' pre m rest gs :
  ~ In c pre ->
  unbounded ((cap, One (Chr c)) :: r') = true ->
  match_here ((cap, One (Chr c)) :: r') None (m ++ rest) = Some (gs, rest) ->
  forall prev,
    search_go ((cap, One (Chr c)) :: r') prev (pre ++ m ++ rest)
    = Some (groups_of (m ++ rest) gs rest).
Proof.
  intros Hpre Hr Hmatch.
  induction pre as [| x pre IH]; intros prev; rewrite search_go_eq.
  - cbn [app]. rewrite (match_here_unbounded _ Hr prev None), Hmatch.
    reflexivity.
  - assert (Hno : match_here ((cap, One (Chr c)) :: r') prev
                    ((x :: pre) ++ m ++ rest) = None).
    { cbn [app match_here in_cls]. destruct (x =? c)%N eqn:Hx; [| reflexivity].
      apply N.eqb_eq in Hx. exfalso. apply Hpre. left. exact Hx. }
    rewrite Hno. cbn [app]. apply IH. intros H. apply Hpre. right. exact H.
Qed.

(** A starred repetition followed by a character outside its class takes
    the whole run when the rest of the pattern matches there. *)
Lemma match_star_run cap k r' prev x c y gs rest :
  forallb (in_cls k) x = true -> in_cls k c = false ->
  match_here r' (last_of prev x) (c :: y) = Some (gs, rest) ->
  match_here ((cap, Star k) :: r') prev (x ++ c :: y)
  = Some (if cap then x :: gs else gs, rest).
Proof.
  intros Hx Hc H. cbn [match_here].
  rewrite (span_exact k x c y Hx Hc).
  rewrite (backtrack_first (match_here r') cap prev (x ++ c :: y) 0
             (length x) gs rest).
  - rewrite firstn_run. reflexivity.
  - rewrite firstn_run, skipn_self. exact H.
Qed.

Lemma integral_form_match f ws v post :
  f <> [] -> ~ In (ch ",") f ->
  forallb is_space ws = true ->
  v <> [] -> ~ In (ch ")") v ->
  (forall c v', v = c :: v' -> is_space c = false) ->
  match_here (construct_pattern "integrate") None
    ((lit "integrate(" ++ f ++ ch "," :: ws ++ v ++ [ch ")"]) ++ post)
  = Some ([f; v], post).
Proof.
  intros Hf Hcomma Hws Hv Hclose Hhead.
  change (construct_pattern "integrate")
    with (map (fun c => tok (One (Chr c))) (lit "integrate(")
          ++ [grp (Plus (Except (ch ","))); tok (One (Chr (ch ",")));
              tok (Star Space); grp (Plus (Except (ch ")")));
              tok (One (Chr (ch ")")))]).
  rewrite match_text, <- !app_assoc, starts_with_self, skipn_self.
  cbn [app]. rewrite <- !app_assoc. cbn [app]. unfold tok, grp.
  destruct v as [| c0 v']; [congruence |].
  pose proof (Hhead c0 v' eq_refl) as Hc0.
  apply (match_plus_run true (Except (ch ",")) _ _ f (ch ",") _ [c0 :: v'] post);
    [exact Hf | | reflexivity |].
  { apply forallb_forall. intros x Hx. cbn [in_cls].
    apply negb_true_iff, N.eqb_neq. intros ->. exact (Hcomma Hx). }
  apply (match_one_head false (Chr (ch ",")) _ _ (ch ",") _ [c0 :: v'] post);
    [reflexivity |].
  cbn [app].
  apply (match_star_run false Space _ (Some (ch ",")) ws c0 _ [c0 :: v'] post);
    [exact Hws | exact Hc0 |].
  change (c0 :: v' ++ ch ")" :: post) with ((c0 :: v') ++ ch ")" :: post).
  apply (match_plus_run true (Except (ch ")")) _ _ (c0 :: v') (ch ")") post
           [] post); [discriminate | | reflexivity |].
  { apply forallb_forall. intros x Hx. cbn [in_cls].
    apply negb_true_iff, N.eqb_neq. intros ->. exact (Hclose Hx). }
  apply (match_one_head false (Chr (ch ")")) [] _ (ch ")") post [] post);
    reflexivity.
Qed.

End Forms.

(** X30. The special form [integrate(f, v)] ignores the text around it:
    when the normalized input holds the form, with no letter [i] before
    it, the result is the integral of [f], parsed on its own, over the
    symbol named [v]; whatever stands before or after the form is
    dropped, and the notation resolver is not run on [f]. *)
Theorem integral_form_ignores_surrounding_text (E : Engine)
    (expression pre f ws v post : str) :
  contains (lit "=") expression = false ->
  preprocess_text expression
  = pre ++ lit "integrate(" ++ f ++ ch "," :: ws ++ v ++ ch ")" :: post ->
  ~ In (ch "i") pre ->
  f <> [] ->
  ~ In (ch ",") f ->
  forallb is_space ws = true ->
  v <> [] ->
  ~ In (ch ")") v ->
  (forall c v', v = c :: v' -> is_space c = false) ->
  parse_mathematical_body expression =
  (func_expr <- sympify f ;;
   var <- mk_symbol (strip v) ;;
   mk_integral func_expr var).
Proof.
  intros Heq Htext Hpre Hf Hcomma Hws Hv Hclose Hhead.
  unfold parse_mathematical_body. rewrite Heq. cbn [andb]. rewrite Htext.
  assert (Hshape : pre ++ lit "integrate(" ++ f ++ ch "," :: ws ++ v ++ ch ")" :: post
                   = pre ++ (lit "integrate(" ++ f ++ ch "," :: ws ++ v ++ [ch ")"])
                         ++ post).
  { f_equal. rewrite <- !app_assoc. cbn [app]. f_equal. f_equal. f_equal.
    rewrite <- !app_assoc. reflexivity. }
  assert (Hhas : contains (lit "integrate(")
                   (pre ++ lit "integrate(" ++ f ++ ch "," :: ws ++ v ++ ch ")" :: post)
                 = true).
  { apply contains_app_r. apply contains_of_prefix. apply starts_with_self. }
  rewrite Hhas, Hshape. unfold search.
  pose proof (search_first_match false (ch "i")
                (map (fun c => tok (One (Chr c))) (lit "ntegrate(")
                 ++ [grp (Plus (Except (ch ","))); tok (One (Chr (ch ",")));
                     tok (Star Space); grp (Plus (Except (ch ")")));
                     tok (One (Chr (ch ")")))])
                pre (lit "integrate(" ++ f ++ ch "," :: ws ++ v ++ [ch ")"])
                post [f; v] Hpre eq_refl
                (integral_form_match f ws v post Hf Hcomma Hws Hv Hclose Hhead)
                None) as H.
  change ((false, One (Chr (ch "i")))
          :: map (fun c => tok (One (Chr c))) (lit "ntegrate(")
             ++ [grp (Plus (Except (ch ","))); tok (One (Chr (ch ",")));
                 tok (Star Space); grp (Plus (Except (ch ")")));
                 tok (One (Chr (ch ")")))])
    with (construct_pattern "integrate") in H.
  rewrite H. reflexivity.
Qed.

Lemma integral_form_ignores_surrounding_text_witness :
  parse_mathematical_body (E:=Toy.engine) (lit "2*integrate(x^2, x) + 5")
  = Ok (lit "Integral(x**2, x)").
Proof.
  apply (integral_form_ignores_surrounding_text Toy.engine
           (lit "2*integrate(x^2, x) + 5")
           (lit "2*") (lit "x**2") (lit " ") (lit "x") (lit " + 5"));
    try reflexivity; try discriminate.
  - vm_compute. intuition discriminate.
  - vm_compute. intuition discriminate.
  - vm_compute. intuition discriminate.
  - intros c v' H. injection H as <- _. reflexivity.
Defined.
